(** * hunter: scanner orchestration and job execution

    A shallow embedding of the orchestration core of the hunter security
    scanner (packages [pkg/types], [internal/scanner], [internal/web/jobs]
    and the parts of [internal/scanner/headers] and [internal/web/api] that
    the properties below refer to), followed by the properties themselves.

    Conventions
    - Go [string] is [string] (a sequence of bytes), Go [int] and
      [time.Duration] are [Z]; the one place where 64-bit wrap-around can be
      observed ([Duration] multiplication) writes the wrap-around out.
    - Go [error] values are an inductive type that records the dynamic type
      of the value; [Error] is the method of the same name.
    - a clock reading ([time.Now]) is an input supplied by the environment.
    - goroutines are threads of an explicit transition system whose steps
      are chosen by a schedule. *)

From Stdlib Require Import ZArith Ascii String List Lia.
From stdpp Require Import base option list gmap strings fin_maps pretty.

Local Open Scope string_scope.
Local Open Scope list_scope.
Local Open Scope Z_scope.

(* ===================================================================== *)
(** * Go values shared by every package                                   *)
(* ===================================================================== *)

Module Go.

(** The double quote and the backslash, written by code point. *)
Definition dquote : ascii := ascii_of_nat 34.
Definition backslash : ascii := ascii_of_nat 92.

Definition hexdigit (n : nat) : ascii :=
  if (n <? 10)%nat then ascii_of_nat (48 + n) else ascii_of_nat (87 + n).

(** [strconv.Quote] on one byte, as [appendEscapedRune] does it for the
    ASCII range: the quote and the backslash are escaped, printable ASCII
    is copied, the seven named control characters get their letter, every
    other control byte is written [\xhh].  Bytes from 0x80 on are copied,
    which is what [Quote] does with well-formed UTF-8 encodings of
    printable runes; the Unicode tables behind [IsPrint] are not part of
    this development, and no statement below depends on such bytes. *)
Definition quoteByte (c : ascii) : string :=
  let n := nat_of_ascii c in
  if (n =? 34)%nat then String backslash (String dquote "")
  else if (n =? 92)%nat then String backslash (String backslash "")
  else if ((32 <=? n) && (n <? 127))%nat then String c ""
  else if (n =? 7)%nat then String backslash "a"
  else if (n =? 8)%nat then String backslash "b"
  else if (n =? 12)%nat then String backslash "f"
  else if (n =? 10)%nat then String backslash "n"
  else if (n =? 13)%nat then String backslash "r"
  else if (n =? 9)%nat then String backslash "t"
  else if (n =? 11)%nat then String backslash "v"
  else if (n <? 128)%nat then
    String backslash (String "x" (String (hexdigit (n / 16)) (String (hexdigit (n mod 16)) "")))
  else String c "".

Fixpoint quoteBody (s : string) : string :=
  match s with
  | EmptyString => ""
  | String c s' => quoteByte c +:+ quoteBody s'
  end.

(** [fmt]'s verb [%q] applied to a string. *)
Definition Quote (s : string) : string :=
  String dquote (quoteBody s +:+ String dquote "").

(** A byte that [%q] leaves alone. *)
Definition plainByte (c : ascii) : bool :=
  let n := nat_of_ascii c in
  ((32 <=? n) && (n <? 127) && negb (n =? 34) && negb (n =? 92))%nat.

Fixpoint plain (s : string) : bool :=
  match s with
  | EmptyString => true
  | String c s' => plainByte c && plain s'
  end.

(** Dynamic types of the [error] values this program creates. *)
Inductive errType :=
| errors_errorString      (* *errors.errorString *)
| fmt_wrapError           (* *fmt.wrapError *)
| context_deadlineExceededError.

(** [error] values.  [fmt.Errorf] builds an [errorString] through
    [errors.New] when its format has no [%w], and a [wrapError] when it has
    one. *)
Inductive error :=
| errorString (s : string)
| wrapError (msg : string) (wrapped : error)
| deadlineExceeded.

Definition Error (e : error) : string :=
  match e with
  | errorString s => s
  | wrapError msg _ => msg
  | deadlineExceeded => "context deadline exceeded"
  end.

Definition dynType (e : error) : errType :=
  match e with
  | errorString _ => errors_errorString
  | wrapError _ _ => fmt_wrapError
  | deadlineExceeded => context_deadlineExceededError
  end.

(** [context.Canceled] is [errors.New("context canceled")]. *)
Definition Canceled : error := errorString "context canceled".

(** [time.Duration] and [int64] arithmetic: the result of an operation is
    reduced to the signed 64-bit range. *)
Definition wrap64 (z : Z) : Z := (z + 2 ^ 63) mod 2 ^ 64 - 2 ^ 63.

Definition Duration := Z.
Definition mulDuration (a b : Duration) : Duration := wrap64 (a * b).

Definition Second : Duration := 1000000000.

(** A [time.Time]: [None] is the zero value, [Some ns] an instant given by
    its Unix time in nanoseconds. *)
Definition Time := option Z.

(** A [context.Context] as the code under study can observe it: its
    deadline and the value of [ctx.Err()]. *)
Record Context := mkContext {
  Deadline : option Z;
  Err : option error
}.

Definition Background : Context := mkContext None None.

(** [context.WithTimeout(parent, d)] called at instant [now]: the deadline
    is [now + d], unless the parent's is earlier; a deadline that has
    already passed yields a context that is done at once. *)
Definition WithTimeout (parent : Context) (now : Z) (d : Duration) : Context :=
  let dl := match Deadline parent with
            | Some p => Z.min p (now + d)
            | None => now + d
            end in
  mkContext (Some dl)
    (match Err parent with
     | Some e => Some e
     | None => if dl <=? now then Some deadlineExceeded else None
     end).

(** The same context observed at a later instant. *)
Definition observe (ctx : Context) (now : Z) : Context :=
  mkContext (Deadline ctx)
    (match Err ctx with
     | Some e => Some e
     | None => match Deadline ctx with
               | Some dl => if dl <=? now then Some deadlineExceeded else None
               | None => None
               end
     end).

End Go.


(* ===================================================================== *)
(** * pkg/types                                                          *)
(* ===================================================================== *)

(** A field whose name is also the name of a type of its package carries a
    trailing underscore ([Target_], [Severity_]); every other name is the
    source's. *)
Module types.

Definition Severity := string.

Definition SeverityCritical : Severity := "CRITICAL".
Definition SeverityHigh : Severity := "HIGH".
Definition SeverityMedium : Severity := "MEDIUM".
Definition SeverityLow : Severity := "LOW".
Definition SeverityInfo : Severity := "INFO".

(** [SeverityRank]: a numeric rank for sorting (lower = more severe). *)
Definition SeverityRank (s : Severity) : Z :=
  if String.eqb s SeverityCritical then 0
  else if String.eqb s SeverityHigh then 1
  else if String.eqb s SeverityMedium then 2
  else if String.eqb s SeverityLow then 3
  else if String.eqb s SeverityInfo then 4
  else 5.

Record Target := mkTarget {
  Host : string;
  Ports : list Z;
  URL : string;
  Scheme : string
}.

Record Finding := mkFinding {
  Title : string;
  Description : string;
  Severity_ : Severity;
  Evidence : string;
  Remediation : string;
  Metadata : list (string * string)
}.

Record ScanResult := mkScanResult {
  ScannerName : string;
  Target_ : Target;
  StartedAt : Go.Time;
  CompletedAt : Go.Time;
  Findings : list Finding;
  Error : string
}.

(** The composite literal [ScanResult{ScannerName: n, Target: t, Error: e}]:
    the fields that are not named take their zero value. *)
Definition failure (n : string) (t : Target) (e : string) : ScanResult :=
  mkScanResult n t None None [] e.

End types.

(* ===================================================================== *)
(** * internal/scanner: Scanner, Options, Registry, Runner                *)
(* ===================================================================== *)

Module scanner.

Record Options := mkOptions {
  Concurrency : Z;
  Timeout : Go.Duration;
  Verbose : bool;
  ExtraArgs : list (string * string)
}.

Definition DefaultOptions : Options :=
  mkOptions 10 (5 * Go.Second) false [].

(** What a call of [Scanner.Run] can do under a context as it stands:
    return a result pointer (possibly nil) together with an error (possibly
    nil), panic, or not return.  A call that is [Blocked] under a context
    stays in progress as long as the context stays as it is; a scanner that
    waits for its context gives [Blocked] until the context is done, one
    that ignores it may give [Blocked] under every context. *)
Inductive RunOutcome :=
| Returned (result : option types.ScanResult) (err : option Go.error)
| Panicked (v : string)
| Blocked.

(** The [Scanner] interface.  [Run] sees the context as it stands while the
    call is in progress. *)
Record Scanner := mkScanner {
  Name : string;
  Description : string;
  Run : Go.Context -> types.Target -> Options -> RunOutcome
}.

(** ** Registry *)

Record Registry := mkRegistry { scanners : gmap string Scanner }.

Definition NewRegistry : Registry := mkRegistry ∅.

Definition Register (r : Registry) (s : Scanner) : Registry :=
  mkRegistry (<[Name s := s]> (scanners r)).

Definition Get (r : Registry) (name : string) : Scanner + Go.error :=
  match scanners r !! name with
  | Some s => inl s
  | None => inr (Go.errorString ("scanner " +:+ Go.Quote name +:+ " not found"))
  end.

(** [All] ranges over the map; Go leaves the order of that iteration
    unspecified, so the slice it returns is some permutation of this list. *)
Definition All (r : Registry) : list Scanner := (map_to_list (scanners r)).*2.

(** Every entry sits under the name of its scanner. *)
Definition keyed (r : Registry) : Prop :=
  ∀ k s, scanners r !! k = Some s → Name s = k.

(** The registry after a sequence of [Register] calls on a new one. *)
Definition registered (l : list Scanner) : Registry :=
  foldl Register NewRegistry l.

(** ** Runner *)

Record Runner := mkRunner { registry : Registry }.

Definition NewRunner (registry : Registry) : Runner := mkRunner registry.

(** [RunOne]: a single scanner by name. *)
Definition RunOne (r : Runner) (ctx : Go.Context) (name : string)
    (target : types.Target) (opts : Options) : RunOutcome :=
  match Get (registry r) name with
  | inr err => Returned None (Some err)
  | inl s => Run s ctx target opts
  end.

(** ** RunAll as a transition system

    [RunAll] starts one goroutine per registered name and joins them.  Its
    state is the program point of the calling goroutine, the program points
    of the workers it has started, and the variables they share: the slice
    [results], the number of tokens in the channel [sem], the mutex [mu] and
    the context.  [results = append(results, x)] reads the slice and then
    writes it; the two accesses are separate steps. *)

Inductive workerPC :=
| AtSelect
    (* at the select statement *)
| InRun
    (* a token is in sem for this worker; scanner.Run is in flight *)
| AtLock (slot : bool) (x : option types.ScanResult)
    (* before mu.Lock(); x is the entry to append, if there is one *)
| InLock (slot : bool) (snap : list types.ScanResult) (x : types.ScanResult)
    (* mu held, results read as snap *)
| AtDefer (slot : bool)
    (* mu released; the deferred <-sem (if slot) and wg.Done() are due *)
| Exited.

Record Worker := mkWorker { wscanner : Scanner; pc : workerPC }.

Inductive mainPC :=
| Ranging (rest : list string)
    (* at the head of the range loop, rest still to visit *)
| Appending (snap : list types.ScanResult) (x : types.ScanResult) (rest : list string)
    (* unknown name: results read as snap, the write is due *)
| Waiting
    (* in wg.Wait() *)
| Finished (out : list types.ScanResult).

Record State := mkState {
  main : mainPC;
  workers : list Worker;
  results : list types.ScanResult;
  sem : Z;
  mu : bool;
  ctx : Go.Context;
  panic : option string
}.

Inductive Event :=
| Main
    (* the calling goroutine takes its next step *)
| Send (i : nat)
    (* worker i's select proceeds with  sem <- struct{}{}  *)
| Recv (i : nat)
    (* worker i's select proceeds with  <-ctx.Done()  *)
| Next (i : nat)
    (* worker i takes its next step after the select *)
| Cancel (e : Go.error).
    (* the context is cancelled or its deadline passes *)

Definition exited (w : Worker) : bool :=
  match pc w with Exited => true | _ => false end.

(** The capacity of [sem]. *)
Definition capacity (opts : Options) : Z :=
  if Concurrency opts <? 1 then 1 else Concurrency opts.

Section RunAll.
Variable r : Runner.
Variable target : types.Target.
Variable opts : Options.

Definition mainStep (σ : State) : option State :=
  match main σ with
  | Ranging [] =>
      Some (mkState Waiting (workers σ) (results σ) (sem σ) (mu σ) (ctx σ) (panic σ))
  | Ranging (name :: rest) =>
      match Get (registry r) name with
      | inr err =>
          Some (mkState
                  (Appending (results σ) (types.failure name target (Go.Error err)) rest)
                  (workers σ) (results σ) (sem σ) (mu σ) (ctx σ) (panic σ))
      | inl s =>
          Some (mkState (Ranging rest) (workers σ ++ [mkWorker s AtSelect])
                  (results σ) (sem σ) (mu σ) (ctx σ) (panic σ))
      end
  | Appending snap x rest =>
      Some (mkState (Ranging rest) (workers σ) (snap ++ [x]) (sem σ) (mu σ) (ctx σ) (panic σ))
  | Waiting =>
      if forallb exited (workers σ)
      then Some (mkState (Finished (results σ)) (workers σ) (results σ) (sem σ) (mu σ)
                   (ctx σ) (panic σ))
      else None
  | Finished _ => None
  end.

Definition setWorker (σ : State) (i : nat) (w : Worker) (p : workerPC) : list Worker :=
  <[i := mkWorker (wscanner w) p]> (workers σ).

Definition sendStep (σ : State) (i : nat) : option State :=
  match workers σ !! i with
  | Some w =>
      match pc w with
      | AtSelect =>
          if sem σ <? capacity opts
          then Some (mkState (main σ) (setWorker σ i w InRun) (results σ) (sem σ + 1)
                       (mu σ) (ctx σ) (panic σ))
          else None
      | _ => None
      end
  | None => None
  end.

Definition recvStep (σ : State) (i : nat) : option State :=
  match workers σ !! i with
  | Some w =>
      match pc w, Go.Err (ctx σ) with
      | AtSelect, Some e =>
          let x := types.failure (Name (wscanner w)) target (Go.Error e) in
          Some (mkState (main σ) (setWorker σ i w (AtLock false (Some x))) (results σ)
                  (sem σ) (mu σ) (ctx σ) (panic σ))
      | _, _ => None
      end
  | None => None
  end.

Definition nextStep (σ : State) (i : nat) : option State :=
  match workers σ !! i with
  | Some w =>
      match pc w with
      | InRun =>
          match Run (wscanner w) (ctx σ) target opts with
          | Panicked v =>
              Some (mkState (main σ) (workers σ) (results σ) (sem σ) (mu σ) (ctx σ) (Some v))
          | Returned _ (Some err) =>
              let x := types.failure (Name (wscanner w)) target (Go.Error err) in
              Some (mkState (main σ) (setWorker σ i w (AtLock true (Some x))) (results σ)
                      (sem σ) (mu σ) (ctx σ) (panic σ))
          | Returned result None =>
              Some (mkState (main σ) (setWorker σ i w (AtLock true result)) (results σ)
                      (sem σ) (mu σ) (ctx σ) (panic σ))
          | Blocked => None
          end
      | AtLock slot None =>
          if mu σ then None
          else Some (mkState (main σ) (setWorker σ i w (AtDefer slot)) (results σ)
                       (sem σ) (mu σ) (ctx σ) (panic σ))
      | AtLock slot (Some x) =>
          if mu σ then None
          else Some (mkState (main σ) (setWorker σ i w (InLock slot (results σ) x))
                       (results σ) (sem σ) true (ctx σ) (panic σ))
      | InLock slot snap x =>
          Some (mkState (main σ) (setWorker σ i w (AtDefer slot)) (snap ++ [x])
                  (sem σ) false (ctx σ) (panic σ))
      | AtDefer slot =>
          Some (mkState (main σ) (setWorker σ i w Exited) (results σ)
                  (if slot then sem σ - 1 else sem σ) (mu σ) (ctx σ) (panic σ))
      | AtSelect | Exited => None
      end
  | None => None
  end.

Definition cancelStep (σ : State) (e : Go.error) : option State :=
  match Go.Err (ctx σ) with
  | None =>
      Some (mkState (main σ) (workers σ) (results σ) (sem σ) (mu σ)
              (Go.mkContext (Go.Deadline (ctx σ)) (Some e)) (panic σ))
  | Some _ => None
  end.

(** One step; [None] when the event is not enabled.  A panic in a worker
    ends the process: nothing is enabled afterwards. *)
Definition step (σ : State) (ev : Event) : option State :=
  match panic σ with
  | Some _ => None
  | None =>
      match ev with
      | Main => mainStep σ
      | Send i => sendStep σ i
      | Recv i => recvStep σ i
      | Next i => nextStep σ i
      | Cancel e => cancelStep σ e
      end
  end.

Fixpoint exec (evs : list Event) (σ : State) : option State :=
  match evs with
  | [] => Some σ
  | ev :: evs' =>
      match step σ ev with
      | Some σ' => exec evs' σ'
      | None => None
      end
  end.

(** The state in which [RunAll(ctx, names, target, opts)] starts: [sem] is
    empty, [results] is nil, no worker has been started. *)
Definition start (c : Go.Context) (names : list string) : State :=
  mkState (Ranging names) [] [] 0 false c None.

(** [RunAll] returns [out] under the schedule [evs]. *)
Definition RunAll (c : Go.Context) (names : list string) (evs : list Event)
    : option (list types.ScanResult) :=
  match exec evs (start c names) with
  | Some σ => match main σ with Finished out => Some out | _ => None end
  | None => None
  end.

End RunAll.

(** ** What the workers hold, and what is still to come *)

(** A token of [sem] stands for the worker. *)
Definition holdsSlot (w : Worker) : bool :=
  match pc w with
  | InRun | AtLock true _ | InLock true _ _ | AtDefer true => true
  | _ => false
  end.

(** The worker's [scanner.Run] is executing. *)
Definition inFlight (w : Worker) : bool :=
  match pc w with InRun => true | _ => false end.

Definition holdsLock (w : Worker) : bool :=
  match pc w with InLock _ _ _ => true | _ => false end.

(** The worker has not yet been through its critical section. *)
Definition owes (w : Worker) : bool :=
  match pc w with
  | AtSelect | InRun | AtLock _ _ | InLock _ _ _ => true
  | AtDefer _ | Exited => false
  end.

Definition count (f : Worker → bool) (ws : list Worker) : nat :=
  length (filter (λ w, f w = true) ws).

(** The admission gate: the tokens in [sem] are the workers that hold a
    slot, there are never more than the capacity, and [mu] is held by
    exactly one worker when it is held. *)
Definition gate (opts : Options) (σ : State) : Prop :=
  sem σ = Z.of_nat (count holdsSlot (workers σ))
  ∧ sem σ ≤ capacity opts
  ∧ count holdsLock (workers σ) = (if mu σ then 1 else 0)%nat.

Definition known (r : Runner) (name : string) : bool :=
  bool_decide (is_Some (scanners (registry r) !! name)).

(** No name that is not registered comes after one that is. *)
Fixpoint unknown_first (r : Runner) (names : list string) : bool :=
  match names with
  | [] => true
  | name :: rest =>
      if known r name then forallb (known r) rest else unknown_first r rest
  end.

(** Entries the calling goroutine has still to append itself or to start a
    worker for. *)
Definition owedMain (m : mainPC) : nat :=
  match m with
  | Ranging rest => length rest
  | Appending _ _ rest => S (length rest)
  | Waiting | Finished _ => 0
  end.

(** The bookkeeping of [results] when the accesses to it do not overlap:
    every name is accounted for by an entry, by the calling goroutine, or by
    a worker that has its entry still to append; a snapshot taken is still
    the slice. *)
Definition exact (r : Runner) (n : nat) (σ : State) : Prop :=
  (length (results σ) + owedMain (main σ) + count owes (workers σ) = n)%nat
  ∧ (∀ i w, workers σ !! i = Some w →
       (∃ name, scanners (registry r) !! name = Some (wscanner w))
       ∧ (∀ slot, pc w ≠ AtLock slot None)
       ∧ (∀ slot snap x, pc w = InLock slot snap x → snap = results σ))
  ∧ panic σ = None
  ∧ match main σ with
    | Ranging rest =>
        (workers σ = [] ∧ unknown_first r rest = true) ∨ forallb (known r) rest = true
    | Appending snap _ rest =>
        workers σ = [] ∧ snap = results σ ∧ unknown_first r rest = true
    | Waiting => True
    | Finished out => out = results σ ∧ forallb exited (workers σ) = true
    end.

(** What holds of [results] whether or not the accesses overlap: the entries
    and what is still owed never exceed the number of names, and this is so
    for every snapshot that has been taken too. *)
Definition atMost (n : nat) (σ : State) : Prop :=
  let owed := (owedMain (main σ) + count owes (workers σ))%nat in
  (length (results σ) + owed ≤ n)%nat
  ∧ (∀ snap x rest, main σ = Appending snap x rest → (length snap + owed ≤ n)%nat)
  ∧ (∀ i w slot snap x, workers σ !! i = Some w → pc w = InLock slot snap x →
       (length snap + owed ≤ n)%nat)
  ∧ (∀ out, main σ = Finished out →
       out = results σ ∧ forallb exited (workers σ) = true).

(** A bound on the number of steps that are left. *)
Definition weightW (w : Worker) : nat :=
  match pc w with
  | AtSelect => 5 | InRun => 4 | AtLock _ _ => 3 | InLock _ _ _ => 2
  | AtDefer _ => 1 | Exited => 0
  end.

Definition weightMain (m : mainPC) : nat :=
  match m with
  | Ranging rest => 7 * length rest + 2
  | Appending _ _ rest => 7 * length rest + 3
  | Waiting => 1
  | Finished _ => 0
  end.

Definition weight (σ : State) : nat :=
  weightMain (main σ) + sum_list_with weightW (workers σ)
  + match Go.Err (ctx σ) with None => 1 | Some _ => 0 end.

(** No registered scanner returns a nil result together with a nil error. *)
Definition never_nil_nil (reg : Registry) : Prop :=
  ∀ name s c t o, scanners reg !! name = Some s → Run s c t o ≠ Returned None None.

(** No registered scanner panics. *)
Definition never_panics (reg : Registry) : Prop :=
  ∀ name s c t o v, scanners reg !! name = Some s → Run s c t o ≠ Panicked v.

(** Every call of a registered scanner comes to an end, by a return or a
    panic. *)
Definition never_blocks (reg : Registry) : Prop :=
  ∀ name s c t o, scanners reg !! name = Some s → Run s c t o ≠ Blocked.




(** ** Where the entries of [results] come from *)

(** The context after an event: a cancellation, or the passing of the
    deadline, sets the error of a context that is not yet done. *)
Definition ctxStep (c : Go.Context) (ev : Event) : Go.Context :=
  match ev with
  | Cancel e =>
      match Go.Err c with
      | None => Go.mkContext (Go.Deadline c) (Some e)
      | Some _ => c
      end
  | _ => c
  end.

(** The context of the call as it stands after the events [evs]. *)
Definition ctxAfter (c : Go.Context) (evs : list Event) : Go.Context :=
  foldl ctxStep c evs.

(** [x] is an entry the worker of scanner [s] makes in the run [evs].
    Either a step [Recv i] of the run, at which a worker finds the context
    done instead of a free slot, was taken when the context of the call
    carried the error [e], and [x] is the failure entry for [e]; or a step
    [Next i] of the run, at which a worker calls [Run], was taken under the
    context of the call as it stood then, and [Run] returned an error, [x]
    being the failure entry for it, or returned [x] with a nil error. *)
Definition fromScanner (target : types.Target) (opts : Options) (c : Go.Context)
    (evs : list Event) (s : Scanner) (x : types.ScanResult) : Prop :=
  ∃ evs0 i,
    ((evs0 ++ [Recv i]) `prefix_of` evs
     ∧ ∃ e, Go.Err (ctxAfter c evs0) = Some e
            ∧ x = types.failure (Name s) target (Go.Error e))
    ∨ ((evs0 ++ [Next i]) `prefix_of` evs
       ∧ ((∃ result e, Run s (ctxAfter c evs0) target opts = Returned result (Some e)
                       ∧ x = types.failure (Name s) target (Go.Error e))
          ∨ Run s (ctxAfter c evs0) target opts = Returned (Some x) None)).

(** [x] is an entry for [name]: the failure entry with the error of [Get]
    if the name is not registered, an entry of the worker of its scanner
    if it is. *)
Definition entryOf (r : Runner) (target : types.Target) (opts : Options)
    (c : Go.Context) (evs : list Event) (name : string) (x : types.ScanResult) : Prop :=
  match Get (registry r) name with
  | inr err => x = types.failure name target (Go.Error err)
  | inl s => fromScanner target opts c evs s x
  end.

Definition sourced (r : Runner) (target : types.Target) (opts : Options)
    (c : Go.Context) (evs : list Event) (names : list string) (x : types.ScanResult)
    : Prop :=
  ∃ name, name ∈ names ∧ entryOf r target opts c evs name x.

(** What a worker has in hand. *)
Definition pending (P Q : types.ScanResult → Prop) (p : workerPC) : Prop :=
  match p with
  | AtLock _ (Some x) => P x
  | InLock _ snap x => Forall Q snap ∧ P x
  | _ => True
  end.

Definition sourcing (r : Runner) (target : types.Target) (opts : Options)
    (c : Go.Context) (names : list string) (evs : list Event) (σ : State) : Prop :=
  let Q := sourced r target opts c evs names in
  Forall Q (results σ)
  ∧ match main σ with
    | Ranging rest => rest ⊆ names
    | Appending snap x rest => Forall Q snap ∧ Q x ∧ rest ⊆ names
    | Waiting => True
    | Finished out => Forall Q out
    end
  ∧ ∀ i w, workers σ !! i = Some w →
      (∃ name, name ∈ names ∧ Get (registry r) name = inl (wscanner w))
      ∧ pending (fromScanner target opts c evs (wscanner w)) Q (pc w).

(** After the events [evs] the context is the context of the call as the
    events have left it, and every entry in [results] or in hand has its
    source in the run so far. *)
Definition provenance (r : Runner) (target : types.Target) (opts : Options)
    (c : Go.Context) (names : list string) (evs : list Event) (σ : State) : Prop :=
  ctx σ = ctxAfter c evs ∧ sourcing r target opts c names evs σ.

(** ** Names that are not registered *)

(** The entry [RunAll] makes for a name that is not registered. *)
Definition missing (target : types.Target) (name : string) : types.ScanResult :=
  types.failure name target ("scanner " +:+ Go.Quote name +:+ " not found").

(** The run when no name is registered: no worker is started, and the
    calling goroutine has appended the entries of the names it has been
    through, in their order. *)
Definition onlyMissing (target : types.Target) (names : list string) (σ : State) : Prop :=
  workers σ = [] ∧ panic σ = None
  ∧ match main σ with
    | Ranging rest =>
        ∃ done, names = done ++ rest ∧ results σ = missing target <$> done
    | Appending snap x rest =>
        ∃ done name, names = done ++ name :: rest
                     ∧ snap = missing target <$> done ∧ x = missing target name
    | Waiting => results σ = missing target <$> names
    | Finished out => out = missing target <$> names
    end.

(** ** One entry per name *)

(** The scanner of a worker that has been through its critical section. *)
Definition delivered (w : Worker) : option Scanner :=
  if owes w then None else Some (wscanner w).

(** The names the calling goroutine has still to go through; while it
    appends the entry of a name that is not registered, that name is the
    one in the entry. *)
Definition ahead (m : mainPC) : list string :=
  match m with
  | Ranging rest => rest
  | Appending _ x rest => types.ScannerName x :: rest
  | Waiting | Finished _ => []
  end.

(** The bookkeeping of [results] name by name, when the accesses to it do
    not overlap: the workers are those of the registered names the calling
    goroutine has been through, in their order, and [results] holds the
    not-found entry of every other name it has been through and one entry
    of every worker that has been through its critical section. *)
Definition perName (r : Runner) (target : types.Target) (opts : Options)
    (c : Go.Context) (names : list string) (evs : list Event) (σ : State) : Prop :=
  ∃ done es,
    names = done ++ ahead (main σ)
    ∧ (∀ snap x rest, main σ = Appending snap x rest →
         x = missing target (types.ScannerName x)
         ∧ known r (types.ScannerName x) = false)
    ∧ Forall2 (λ name s, Get (registry r) name = inl s)
        (filter (λ name, known r name = true) done) (wscanner <$> workers σ)
    ∧ Forall2 (fromScanner target opts c evs) (omap delivered (workers σ)) es
    ∧ results σ ≡ₚ (missing target <$> filter (λ name, known r name = false) done) ++ es.

(** The workers started so far are those of the registered names visited
    so far, in the order of the names. *)
Definition roster (r : Runner) (names : list string) (σ : State) : Prop :=
  ∃ done,
    names = done ++ ahead (main σ)
    ∧ (∀ snap x rest, main σ = Appending snap x rest →
         known r (types.ScannerName x) = false)
    ∧ Forall2 (λ name s, Get (registry r) name = inl s)
        (filter (λ name, known r name = true) done) (wscanner <$> workers σ).

(** The calling goroutine never makes an entry itself. *)
Definition neverAppends (r : Runner) (σ : State) : Prop :=
  match main σ with
  | Ranging rest => forallb (known r) rest = true
  | Appending _ _ _ => False
  | Waiting | Finished _ => True
  end.


(** Every result a registered scanner returns carries the name it is
    registered under. *)
Definition reports_own_name (reg : Registry) : Prop :=
  ∀ name s c t o x,
    scanners reg !! name = Some s → Run s c t o = Returned (Some x) None →
    types.ScannerName x = name.

End scanner.

(* ===================================================================== *)
(** * internal/scanner/headers                                            *)
(* ===================================================================== *)

Module headers.

(** [resolveURL] determines the target URL from the [Target] struct. *)
Definition resolveURL (target : types.Target) : string :=
  if negb (String.eqb (types.URL target) "") then types.URL target
  else
    let scheme := if String.eqb (types.Scheme target) "" then "https"
                  else types.Scheme target in
    if String.eqb (types.Host target) "" then ""
    else scheme +:+ "://" +:+ types.Host target.

(** [Scanner.Run] of the headers scanner.  The request and the evaluation of
    the header rules, from [http.NewRequestWithContext] on, are the
    parameter [fetch]; the part before it is the source's. *)
Definition Run (fetch : string -> Go.Context -> scanner.Options -> scanner.RunOutcome)
    (ctx : Go.Context) (target : types.Target) (opts : scanner.Options)
    : scanner.RunOutcome :=
  let url := resolveURL target in
  if String.eqb url "" then
    scanner.Returned None
      (Some (Go.errorString
               ("cannot determine URL for target " +:+ Go.Quote (types.Host target))))
  else fetch url ctx opts.

Definition New (fetch : string -> Go.Context -> scanner.Options -> scanner.RunOutcome)
    : scanner.Scanner :=
  scanner.mkScanner "headers" "HTTP security header analysis" (Run fetch).

End headers.

(* ===================================================================== *)
(** * internal/web/jobs                                                   *)
(* ===================================================================== *)

Module jobs.

Definition JobStatus := string.

Definition StatusPending : JobStatus := "pending".
Definition StatusRunning : JobStatus := "running".
Definition StatusCompleted : JobStatus := "completed".
Definition StatusFailed : JobStatus := "failed".

Record JobProgress := mkJobProgress {
  TotalScanners : Z;
  CompletedScanners : Z;
  CurrentScanner : string
}.

Record Job := mkJob {
  ID : string;
  Target : types.Target;
  Scanners : list string;
  Options : scanner.Options;
  Status : JobStatus;
  Results : list types.ScanResult;
  Error : string;
  CreatedAt : Go.Time;
  StartedAt : Go.Time;
  CompletedAt : Go.Time;
  Progress : JobProgress
}.

(** [defaultNewUUID]: [fmt.Sprintf("%d", time.Now().UnixNano())], the clock
    reading being the argument. *)
Definition defaultNewUUID (unixNano : Z) : string := pretty unixNano.

Definition newUUID : Z -> string := defaultNewUUID.

(** [Manager.jobs] maps an id to a pointer to a [Job]; a pointer is an index
    into the heap of the [Job] values allocated so far. *)
Record Manager := mkManager {
  jobs : gmap string nat;
  runner : scanner.Runner
}.

(** Program points of [Manager.execute]. *)
Inductive execPC :=
| Entered
    (* go m.execute(job) has been issued *)
| Looping (ctx : Go.Context) (rest : list string)
    (* at the head of the range loop *)
| Calling (ctx : Go.Context) (name : string) (rest : list string)
    (* CurrentScanner recorded; m.runner.RunOne is in progress *)
| Got (ctx : Go.Context) (name : string) (result : option types.ScanResult)
      (err : option Go.error) (rest : list string)
    (* RunOne has returned; the update under the lock is due *)
| Recovering (v : string)
    (* RunOne panicked; the deferred function is due *)
| Exited.

(** A goroutine started by [Start]: the job it was given and where it is. *)
Record Task := mkTask { job : nat; at_ : execPC }.

(** The manager, the [Job] values it has allocated, and every goroutine
    [Start] has launched, those that have exited included. *)
Record State := mkState {
  manager : Manager;
  heap : list Job;
  tasks : list Task
}.

Definition NewManager (runner : scanner.Runner) : State :=
  mkState (mkManager ∅ runner) [] [].

(** [Create]; [tID] and [tCreated] are the two clock readings it takes. *)
Definition Create (σ : State) (target : types.Target) (scanners : list string)
    (opts : scanner.Options) (tID tCreated : Z) : State * nat :=
  let j := mkJob (newUUID tID) target scanners opts StatusPending [] ""
             (Some tCreated) None None
             (mkJobProgress (Z.of_nat (length scanners)) 0 "") in
  let p := length (heap σ) in
  (mkState (mkManager (<[ID j := p]> (jobs (manager σ))) (runner (manager σ)))
     (heap σ ++ [j]) (tasks σ),
   p).

Definition notFound (jobID : string) : Go.error :=
  Go.errorString ("job " +:+ Go.Quote jobID +:+ " not found").

Definition setRunning (now : Z) (j : Job) : Job :=
  mkJob (ID j) (Target j) (Scanners j) (Options j) StatusRunning (Results j) (Error j)
    (CreatedAt j) (Some now) (CompletedAt j) (Progress j).

(** [Start]: under the lock, look the job up and mark it running; then
    launch [execute]. *)
Definition Start (σ : State) (jobID : string) (now : Z) : State * option Go.error :=
  match jobs (manager σ) !! jobID with
  | None => (σ, Some (notFound jobID))
  | Some p =>
      (mkState (manager σ) (alter (setRunning now) p (heap σ))
         (tasks σ ++ [mkTask p Entered]),
       None)
  end.

(** [Get] returns the pointer stored under the id. *)
Definition Get (σ : State) (jobID : string) : nat + Go.error :=
  match jobs (manager σ) !! jobID with
  | None => inr (notFound jobID)
  | Some p => inl p
  end.

Definition Delete (σ : State) (jobID : string) : State * option Go.error :=
  match jobs (manager σ) !! jobID with
  | None => (σ, Some (notFound jobID))
  | Some _ =>
      (mkState (mkManager (delete jobID (jobs (manager σ))) (runner (manager σ)))
         (heap σ) (tasks σ),
       None)
  end.

(** The context [execute] builds on entry. *)
Definition executeContext (j : Job) (now : Z) : Go.Context :=
  if 0 <? scanner.Timeout (Options j)
  then Go.WithTimeout Go.Background now
         (Go.mulDuration (scanner.Timeout (Options j))
            (Z.of_nat (length (Scanners j)) + 1))
  else Go.Background.

(** The updates [execute] makes to its job, each under the lock. *)
Definition setCurrent (name : string) (j : Job) : Job :=
  mkJob (ID j) (Target j) (Scanners j) (Options j) (Status j) (Results j) (Error j)
    (CreatedAt j) (StartedAt j) (CompletedAt j)
    (mkJobProgress (TotalScanners (Progress j)) (CompletedScanners (Progress j)) name).

Definition record (name : string) (result : option types.ScanResult)
    (err : option Go.error) (j : Job) : Job :=
  let results :=
    match err, result with
    | Some e, _ => (Results j ++ [types.failure name (Target j) (Go.Error e)])%list
    | None, Some x => (Results j ++ [x])%list
    | None, None => Results j
    end in
  mkJob (ID j) (Target j) (Scanners j) (Options j) (Status j) results (Error j)
    (CreatedAt j) (StartedAt j) (CompletedAt j)
    (mkJobProgress (TotalScanners (Progress j)) (CompletedScanners (Progress j) + 1)
       (CurrentScanner (Progress j))).

Definition setCompleted (now : Z) (j : Job) : Job :=
  mkJob (ID j) (Target j) (Scanners j) (Options j) StatusCompleted (Results j) (Error j)
    (CreatedAt j) (StartedAt j) (Some now)
    (mkJobProgress (TotalScanners (Progress j)) (CompletedScanners (Progress j)) "").

Definition setFailed (v : string) (now : Z) (j : Job) : Job :=
  mkJob (ID j) (Target j) (Scanners j) (Options j) StatusFailed (Results j)
    ("panic: " +:+ v) (CreatedAt j) (StartedAt j) (Some now) (Progress j).

Definition setTask (σ : State) (i : nat) (t : Task) (p : execPC) : list Task :=
  <[i := mkTask (job t) p]> (tasks σ).

(** One step of the goroutine [i] running [execute], taken at instant
    [now]. *)
Definition executeStep (σ : State) (i : nat) (now : Z) : option State :=
  match tasks σ !! i with
  | None => None
  | Some t =>
      match heap σ !! job t with
      | None => None
      | Some j =>
          match at_ t with
          | Entered =>
              Some (mkState (manager σ) (heap σ)
                      (setTask σ i t (Looping (executeContext j now) (Scanners j))))
          | Looping c (name :: rest) =>
              Some (mkState (manager σ) (alter (setCurrent name) (job t) (heap σ))
                      (setTask σ i t (Calling c name rest)))
          | Calling c name rest =>
              match scanner.RunOne (runner (manager σ)) (Go.observe c now) name
                      (Target j) (Options j) with
              | scanner.Panicked v =>
                  Some (mkState (manager σ) (heap σ) (setTask σ i t (Recovering v)))
              | scanner.Returned result err =>
                  Some (mkState (manager σ) (heap σ)
                          (setTask σ i t (Got c name result err rest)))
              | scanner.Blocked => None
              end
          | Got c name result err rest =>
              Some (mkState (manager σ) (alter (record name result err) (job t) (heap σ))
                      (setTask σ i t (Looping c rest)))
          | Looping c [] =>
              Some (mkState (manager σ) (alter (setCompleted now) (job t) (heap σ))
                      (setTask σ i t Exited))
          | Recovering v =>
              Some (mkState (manager σ) (alter (setFailed v now) (job t) (heap σ))
                      (setTask σ i t Exited))
          | Exited => None
          end
      end
  end.

(** What can happen to the manager: a call of its API, or a step of one of
    the goroutines it has launched. *)
Inductive Event :=
| CallCreate (target : types.Target) (scanners : list string) (opts : scanner.Options)
    (tID tCreated : Z)
| CallStart (jobID : string) (now : Z)
| CallDelete (jobID : string)
| Exec (i : nat) (now : Z).

Definition step (σ : State) (ev : Event) : option State :=
  match ev with
  | CallCreate target scanners opts tID tCreated =>
      Some (Create σ target scanners opts tID tCreated).1
  | CallStart jobID now => Some (Start σ jobID now).1
  | CallDelete jobID => Some (Delete σ jobID).1
  | Exec i now => executeStep σ i now
  end.

Fixpoint exec (evs : list Event) (σ : State) : option State :=
  match evs with
  | [] => Some σ
  | ev :: evs' =>
      match step σ ev with
      | Some σ' => exec evs' σ'
      | None => None
      end
  end.

(** The number of goroutines launched for the job at [p]. *)
Definition launches (σ : State) (p : nat) : nat :=
  length (filter (λ t, job t = p) (tasks σ)).

(** ** The bookkeeping of a job, program point by program point

    [counts E j todo]: [todo] names are still to be completed, and the
    results are no more than the completed names, as many when [E] holds
    ([E] will be: no scanner returns nil, nil). *)
Definition counts (E : Prop) (j : Job) (todo : Z) : Prop :=
  CompletedScanners (Progress j) + todo = TotalScanners (Progress j)
  ∧ Z.of_nat (length (Results j)) ≤ CompletedScanners (Progress j)
  ∧ (E → Z.of_nat (length (Results j)) = CompletedScanners (Progress j)).

(** What holds of the job of a goroutine that is the only one launched for
    it, according to where the goroutine is. *)
Definition task_ok (E : Prop) (j : Job) (pc : execPC) : Prop :=
  match pc with
  | Entered =>
      Status j = StatusRunning ∧ counts E j (Z.of_nat (length (Scanners j)))
  | Looping _ rest =>
      Status j = StatusRunning ∧ counts E j (Z.of_nat (length rest))
  | Calling _ _ rest =>
      Status j = StatusRunning ∧ counts E j (1 + Z.of_nat (length rest))
  | Got _ _ result err rest =>
      Status j = StatusRunning ∧ counts E j (1 + Z.of_nat (length rest))
      ∧ (E → result ≠ None ∨ err ≠ None)
  | Recovering _ =>
      Status j = StatusRunning ∧ ∃ todo, 0 < todo ∧ counts E j todo
  | Exited =>
      (Status j = StatusCompleted ∧ counts E j 0)
      ∨ (Status j = StatusFailed ∧ Error j ≠ "" ∧ ∃ todo, 0 < todo ∧ counts E j todo)
  end.

(** The invariant of the manager: pointers are valid, the total of a job is
    the length of its list, a job never started is as [Create] made it, and
    a job started once is where its goroutine says. *)
Definition invariant (σ : State) : Prop :=
  let E := scanner.never_nil_nil (scanner.registry (runner (manager σ))) in
  (∀ id p, jobs (manager σ) !! id = Some p → (p < length (heap σ))%nat)
  ∧ (∀ i t, tasks σ !! i = Some t → (job t < length (heap σ))%nat)
  ∧ ∀ p j, heap σ !! p = Some j →
      TotalScanners (Progress j) = Z.of_nat (length (Scanners j))
      ∧ (launches σ p = 0%nat →
         Status j = StatusPending ∧ counts E j (Z.of_nat (length (Scanners j))))
      ∧ (launches σ p = 1%nat →
         ∀ i t, tasks σ !! i = Some t → job t = p → task_ok E j (at_ t)).

(** The context of a goroutine that is past the entry of [execute]. *)
Definition contextOf (pc : execPC) : option Go.Context :=
  match pc with
  | Looping c _ | Calling c _ _ | Got c _ _ _ _ => Some c
  | Entered | Recovering _ | Exited => None
  end.

(** ** The rest of the package *)

(** [Job.FindingCount]: the total number of findings across all results. *)
(** ** The bookkeeping of a job that is started any number of times *)

(** The names a goroutine of [execute] has still to complete; [n] is the
    number of names of its job. *)
Definition owed (n : nat) (pc : execPC) : nat :=
  match pc with
  | Entered => n
  | Looping _ rest => length rest
  | Calling _ _ rest => S (length rest)
  | Got _ _ _ _ rest => S (length rest)
  | Recovering _ | Exited => 0
  end.

Definition owedBy (p n : nat) (t : Task) : nat :=
  if decide (job t = p) then owed n (at_ t) else 0%nat.

(** Every goroutine launched for a job accounts for at most one round over
    its names: what is completed and what the goroutines of the job still
    owe stays within the number of launches times the number of names. *)
Definition restarted (σ : State) : Prop :=
  (∀ id p, jobs (manager σ) !! id = Some p → (p < length (heap σ))%nat)
  ∧ (∀ i t, tasks σ !! i = Some t → (job t < length (heap σ))%nat)
  ∧ ∀ p j, heap σ !! p = Some j →
      Z.of_nat (length (Results j)) ≤ CompletedScanners (Progress j)
      ∧ CompletedScanners (Progress j)
        + Z.of_nat (sum_list_with (owedBy p (length (Scanners j))) (tasks σ))
        ≤ Z.of_nat (launches σ p * length (Scanners j)).

(** The four values a [JobStatus] is given by the manager. *)
Definition statuses : list JobStatus :=
  [StatusPending; StatusRunning; StatusCompleted; StatusFailed].

Definition FindingCount (j : Job) : Z :=
  foldl (λ n r, n + Z.of_nat (length (types.Findings r))) 0 (Results j).

(** [Manager.Names]. *)
Definition Names (σ : State) : list string := [].

(** What [execute] appends for an outcome of [RunOne], if anything: the
    three branches of [record]. *)
Definition entry (name : string) (target : types.Target)
    (result : option types.ScanResult) (err : option Go.error)
    : option types.ScanResult :=
  match err, result with
  | Some e, _ => Some (types.failure name target (Go.Error e))
  | None, Some x => Some x
  | None, None => None
  end.

(** A proof rule for the manager.  [fresh] is to hold of a job no goroutine
    was launched for, [ok] of a job and the program point of the one
    goroutine launched for it. *)
Definition holdsFor (fresh : Job → Prop) (ok : Job → execPC → Prop) (σ : State) : Prop :=
  (∀ id p, jobs (manager σ) !! id = Some p → (p < length (heap σ))%nat)
  ∧ (∀ i t, tasks σ !! i = Some t → (job t < length (heap σ))%nat)
  ∧ ∀ p j, heap σ !! p = Some j →
      (launches σ p = 0%nat → fresh j)
      ∧ (launches σ p = 1%nat →
         ∀ i t, tasks σ !! i = Some t → job t = p → ok j (at_ t)).

(** One job value as it was and as it is later. *)
Definition evolves (j j' : Job) : Prop :=
  ID j' = ID j ∧ Target j' = Target j ∧ Scanners j' = Scanners j
  ∧ Options j' = Options j ∧ CreatedAt j' = CreatedAt j
  ∧ TotalScanners (Progress j') = TotalScanners (Progress j)
  ∧ CompletedScanners (Progress j) ≤ CompletedScanners (Progress j')
  ∧ Results j `prefix_of` Results j'.

(** The steps a goroutine of [execute] has left at most, for a job of [n]
    scanners. *)
Definition stepsLeft (n : nat) (pc : execPC) : nat :=
  match pc with
  | Entered => 3 * n + 2
  | Looping _ rest => 3 * length rest + 1
  | Calling _ _ rest => 3 * length rest + 3
  | Got _ _ _ _ rest => 3 * length rest + 2
  | Recovering _ => 1
  | Exited => 0
  end.

Definition isExec (i : nat) (ev : Event) : bool :=
  match ev with
  | Exec i' _ => bool_decide (i' = i)
  | _ => false
  end.

(** The number of steps goroutine [i] takes in [evs]. *)
Definition countExec (i : nat) (evs : list Event) : nat :=
  length (filter (λ ev, isExec i ev = true) evs).

(** [o] is what [execute] records for [name]: the entry for some outcome of
    [RunOne] on that name, or nothing if the outcome was nil, nil. *)
Definition outcomeOf (runner : scanner.Runner) (target : types.Target)
    (opts : scanner.Options) (name : string) (o : option types.ScanResult) : Prop :=
  ∃ c result err,
    scanner.RunOne runner c name target opts = scanner.Returned result err
    ∧ entry name target result err = o.

(** The results of [j] are what was recorded for the names [done], in that
    order. *)
Definition ordered (runner : scanner.Runner) (j : Job) (done : list string) : Prop :=
  ∃ outs, Forall2 (outcomeOf runner (Target j) (Options j)) done outs
          ∧ Results j = omap id outs.

Definition order_ok (runner : scanner.Runner) (j : Job) (pc : execPC) : Prop :=
  match pc with
  | Entered => Results j = []
  | Looping _ rest => ∃ done, Scanners j = done ++ rest ∧ ordered runner j done
  | Calling _ name rest =>
      ∃ done, Scanners j = done ++ name :: rest ∧ ordered runner j done
  | Got _ name result err rest =>
      (∃ done, Scanners j = done ++ name :: rest ∧ ordered runner j done)
      ∧ ∃ c, scanner.RunOne runner c name (Target j) (Options j)
             = scanner.Returned result err
  | Recovering _ => True
  | Exited => Status j = StatusFailed ∨ ordered runner j (Scanners j)
  end.

(** ** Calls that return nil, nil *)

(** Whether the step [ev], taken in [σ], is a call of [RunOne] made for the
    job at [p] that returns a nil result with a nil error. *)
Definition nilReturn (p : nat) (σ : State) (ev : Event) : nat :=
  match ev with
  | Exec i now =>
      match tasks σ !! i with
      | Some t =>
          match at_ t, heap σ !! job t with
          | Calling c name rest, Some j =>
              match scanner.RunOne (runner (manager σ)) (Go.observe c now) name
                      (Target j) (Options j) with
              | scanner.Returned None None => if decide (job t = p) then 1%nat else 0%nat
              | _ => 0%nat
              end
          | _, _ => 0%nat
          end
      | None => 0%nat
      end
  | _ => 0%nat
  end.

(** The number of such calls in the run [evs] from [σ]. *)
Fixpoint nilReturns (p : nat) (evs : list Event) (σ : State) : nat :=
  match evs with
  | [] => 0%nat
  | ev :: evs' =>
      match step σ ev with
      | Some σ' => (nilReturn p σ ev + nilReturns p evs' σ')%nat
      | None => 0%nat
      end
  end.

(** A goroutine that holds a nil, nil outcome it has not recorded yet. *)
Definition nilPending (pc : execPC) : nat :=
  match pc with
  | Got _ _ None None _ => 1%nat
  | _ => 0%nat
  end.

Definition pendingNil (p : nat) (t : Task) : nat :=
  if decide (job t = p) then nilPending (at_ t) else 0%nat.

(** The results of the job at [p] and the [n] calls made for it that
    returned nil, nil make up its completed scanners, but for the nil, nil
    outcomes that are still to be recorded. *)
Definition tally (p n : nat) (σ : State) : Prop :=
  match heap σ !! p with
  | Some j =>
      Z.of_nat (length (Results j)) + Z.of_nat n
      = CompletedScanners (Progress j)
        + Z.of_nat (sum_list_with (pendingNil p) (tasks σ))
  | None => n = 0%nat
  end.

(** ** The context of a goroutine *)

Definition instant (i : nat) (ev : Event) : option Z :=
  match ev with
  | Exec i' now => if decide (i' = i) then Some now else None
  | _ => None
  end.

(** The instants of the steps goroutine [i] takes in [evs]. *)
Definition instants (i : nat) (evs : list Event) : list Z := omap (instant i) evs.

(** The instant at which goroutine [i] entered [execute]: that of its first
    step, the one that builds the context. *)
Definition entered (i : nat) (evs : list Event) : option Z := head (instants i evs).

(** The step that takes a goroutine from [Calling c name rest] to [pc'] at
    instant [now] has called [RunOne] under [c] as it is at [now], for the
    target and the options of [j]. *)
Definition calledUnder (runner : scanner.Runner) (j : Job) (c : Go.Context) (now : Z)
    (name : string) (rest : list string) (pc' : execPC) : Prop :=
  match scanner.RunOne runner (Go.observe c now) name (Target j) (Options j) with
  | scanner.Returned result err => pc' = Got c name result err rest
  | scanner.Panicked v => pc' = Recovering v
  | scanner.Blocked => False
  end.

End jobs.

(* ===================================================================== *)
(** * internal/web/api and internal/web/pages                             *)
(* ===================================================================== *)

Module api.

(** The JSON body of [POST /api/v1/scans]. *)
Record CreateScanRequest := mkCreateScanRequest {
  Target : string;
  Scanners : list string;
  Concurrency : Z;
  Timeout : string
}.

Section CreateScan.

(** [time.ParseDuration]. *)
Variable ParseDuration : string → Go.Duration + Go.error.

(** [decodeCreateScanRequest], from the point where the JSON decoder has
    filled [req]. *)
Definition validate (req : CreateScanRequest) : CreateScanRequest + Go.error :=
  if String.eqb (Target req) "" then inr (Go.errorString "target is required")
  else if Concurrency req <? 0
  then inr (Go.errorString "concurrency must be non-negative")
  else
    let req :=
      if Concurrency req =? 0
      then mkCreateScanRequest (Target req) (Scanners req) 10 (Timeout req)
      else req in
    if negb (String.eqb (Timeout req) "") then
      match ParseDuration (Timeout req) with
      | inr err =>
          inr (Go.wrapError
                 ("invalid timeout " +:+ Go.Quote (Timeout req) +:+ ": " +:+ Go.Error err)
                 err)
      | inl _ => inl req
      end
    else inl req.

(** The names [CreateScan] passes to [Manager.Create]; [all] is the slice
    [Registry.All] returned. *)
Definition scannerNames (req : CreateScanRequest) (all : list scanner.Scanner)
    : list string :=
  let names := Scanners req in
  if (length names =? 0)%nat
     || ((length names =? 1)%nat && String.eqb (default "" (names !! 0%nat)) "all")
  then scanner.Name <$> all
  else names.

(** The options [CreateScan] passes to [Manager.Create]. *)
Definition options (req : CreateScanRequest) : scanner.Options :=
  let timeout :=
    if negb (String.eqb (Timeout req) "") then
      match ParseDuration (Timeout req) with
      | inl d => d
      | inr _ => 0
      end
    else 5 * Go.Second in
  scanner.mkOptions (Concurrency req) timeout false [].

End CreateScan.

Definition StatusOK : Z := 200.
Definition StatusNotFound : Z := 404.
Definition StatusConflict : Z := 409.
Definition StatusInternalServerError : Z := 500.

(** The status code with which [GetScanReport] answers; [render] is
    [HTMLFormatter.Format] on the results of the job.  The handler reads the
    job through the pointer [Get] returned. *)
Definition GetScanReport (render : list types.ScanResult → option Go.error)
    (σ : jobs.State) (id : string) : option Z :=
  match jobs.Get σ id with
  | inr _ => Some StatusNotFound
  | inl p =>
      match jobs.heap σ !! p with
      | None => None
      | Some job =>
          if negb (String.eqb (jobs.Status job) jobs.StatusCompleted)
          then Some StatusConflict
          else match render (jobs.Results job) with
               | Some _ => Some StatusInternalServerError
               | None => Some StatusOK
               end
      end
  end.

End api.

Module pages.

(** [HasRunning] as [ScanList] computes it from the list of jobs. *)
Definition hasRunning (jobList : list jobs.Job) : bool :=
  existsb (λ j, String.eqb (jobs.Status j) jobs.StatusRunning
                || String.eqb (jobs.Status j) jobs.StatusPending) jobList.

End pages.

(* ===================================================================== *)
(** * internal/output                                                     *)
(* ===================================================================== *)

(** The counters are Go [int]s; they count elements of slices held in
    memory and stay far below [2^63], so they are not reduced here. *)
Module output.

(** [severityClass] maps a [Severity] to a CSS class name. *)
Definition severityClass (s : types.Severity) : string :=
  if String.eqb s types.SeverityCritical then "critical"
  else if String.eqb s types.SeverityHigh then "high"
  else if String.eqb s types.SeverityMedium then "medium"
  else if String.eqb s types.SeverityLow then "low"
  else "info".

(** [findingsCount] of the HTML report. *)
Definition findingsCount (results : list types.ScanResult) : Z :=
  foldl (λ n r, n + Z.of_nat (length (types.Findings r))) 0 results.

(** [countSeverity] of the HTML report. *)
Definition countSeverity (results : list types.ScanResult) (sev : types.Severity) : Z :=
  foldl (λ n r,
           foldl (λ n f, if String.eqb (types.Severity_ f) sev then n + 1 else n)
             n (types.Findings r))
    0 results.

(** The map [counts] that the Markdown and the table formatter fill while
    they write the rows of one result: [counts[finding.Severity]++]. *)
Definition tally (findings : list types.Finding) : gmap string Z :=
  foldl (λ counts f,
           <[types.Severity_ f := default 0 (counts !! types.Severity_ f) + 1]> counts)
    ∅ findings.

(** The numbers [markdownSummary] and [formatSummary] print: the total over
    the map (a sum, so the order in which Go ranges over the map does not
    matter), then the counts for critical, high, medium, low and info. *)
Definition summary (counts : gmap string Z) : Z * list Z :=
  (map_fold (λ _ c total, total + c) 0 counts,
   (λ sev, default 0 (counts !! sev)) <$>
     [types.SeverityCritical; types.SeverityHigh; types.SeverityMedium;
      types.SeverityLow; types.SeverityInfo]).

(** [escapeMarkdown]: [strings.ReplaceAll(s, "|", "\\|")]. *)
Fixpoint escapeMarkdown (s : string) : string :=
  match s with
  | EmptyString => EmptyString
  | String c s' =>
      if Ascii.eqb c "|" then String "\" (String "|" (escapeMarkdown s'))
      else String c (escapeMarkdown s')
  end.

(** The findings of all results, in order. *)
Definition allFindings (results : list types.ScanResult) : list types.Finding :=
  results ≫= types.Findings.

(** The number of findings of severity [sev]. *)
Definition having (sev : types.Severity) (findings : list types.Finding) : Z :=
  Z.of_nat (length (filter (λ f, types.Severity_ f = sev) findings)).

(** The number of findings whose severity is none of the five constants. *)
Definition unranked (findings : list types.Finding) : Z :=
  Z.of_nat (length (filter (λ f, types.SeverityRank (types.Severity_ f) = 5) findings)).

End output.

(* ===================================================================== *)
(** * internal/cli: scan full                                             *)
(* ===================================================================== *)

Module cli.

(** [webScannerNames] lists all web scanner names in execution order. *)
Definition webScannerNames : list string := ["port"; "headers"; "ssl"; "dirs"; "vuln"].

(** The registry [runScanFull] builds from the scanners of the packages
    port, headers, ssl, dirs and vuln. *)
Definition fullRegistry (port headers ssl dirs vuln : scanner.Scanner) : scanner.Registry :=
  scanner.Register
    (scanner.Register
       (scanner.Register
          (scanner.Register (scanner.Register scanner.NewRegistry port) headers) ssl)
       dirs)
    vuln.

(** [Name()] of the five scanners, as their packages define it. *)
Definition named (port headers ssl dirs vuln : scanner.Scanner) : Prop :=
  scanner.Name port = "port" ∧ scanner.Name headers = "headers"
  ∧ scanner.Name ssl = "ssl" ∧ scanner.Name dirs = "dirs"
  ∧ scanner.Name vuln = "vuln".

(** The context of the run, made at instant [now]:
    [context.WithTimeout(context.Background(), timeoutFlag*100)]. *)
Definition fullContext (timeoutFlag : Go.Duration) (now : Z) : Go.Context :=
  Go.WithTimeout Go.Background now (Go.mulDuration timeoutFlag 100).

End cli.

(* ===================================================================== *)
(** * Scanner implementations used as inputs                              *)
(* ===================================================================== *)

Module probes.

(** [mockScanner] of the scanner package's tests: one Info finding, no
    error. *)
Definition mockScanner (name : string) : scanner.Scanner :=
  scanner.mkScanner name "mock scanner"
    (λ _ target _,
       scanner.Returned
         (Some (types.mkScanResult name target None None
                  [types.mkFinding "mock finding" "" types.SeverityInfo "" "" []] ""))
         None).

(** An implementation of the interface whose [Run] returns [nil, nil]. *)
Definition nilScanner (name : string) : scanner.Scanner :=
  scanner.mkScanner name "returns nil, nil" (λ _ _ _, scanner.Returned None None).

(** An implementation of the interface whose [Run] panics. *)
Definition panicScanner (name : string) : scanner.Scanner :=
  scanner.mkScanner name "panics" (λ _ _ _, scanner.Panicked "boom").

(** An implementation of the interface whose [Run] never returns. *)
Definition blockedScanner (name : string) : scanner.Scanner :=
  scanner.mkScanner name "never returns" (λ _ _ _, scanner.Blocked).

(** An implementation of the interface whose [Run] waits for its context to
    be done and returns the error of the context. *)
Definition waitingScanner (name : string) : scanner.Scanner :=
  scanner.mkScanner name "waits for its context"
    (λ ctx _ _, match Go.Err ctx with
                | Some e => scanner.Returned None (Some e)
                | None => scanner.Blocked
                end).

(** The headers scanner, its network part answering with an empty result. *)
Definition headersScanner : scanner.Scanner :=
  headers.New (λ url _ _,
    scanner.Returned
      (Some (types.mkScanResult "headers" (types.mkTarget "" [] url "") None None [] ""))
      None).

Definition example_com : types.Target := types.mkTarget "example.com" [] "" "https".

(** [types.Target{}]. *)
Definition noTarget : types.Target := types.mkTarget "" [] "" "".

End probes.

(* ===================================================================== *)
(** * Properties                                                          *)
(* ===================================================================== *)

(** ** Quoting and error values *)

Lemma quoteByte_plain c : Go.plainByte c = true → Go.quoteByte c = String c "".
Proof.
  unfold Go.plainByte, Go.quoteByte. cbv zeta.
  destruct (Nat.eqb (nat_of_ascii c) 34); [by rewrite andb_false_r|].
  destruct (Nat.eqb (nat_of_ascii c) 92); [by rewrite andb_false_r|].
  rewrite !andb_true_r. by intros ->.
Qed.

Lemma quoteBody_plain s : Go.plain s = true → Go.quoteBody s = s.
Proof.
  induction s as [|c s IH]; [done|]. cbn [Go.plain Go.quoteBody].
  intros [Hc Hs]%andb_prop. by rewrite (quoteByte_plain c Hc), (IH Hs).
Qed.

(** On a name made of printable ASCII other than the quote and the
    backslash, [%q] puts the name between two quotes and changes nothing. *)
Lemma Quote_plain s :
  Go.plain s = true → Go.Quote s = String Go.dquote (s +:+ String Go.dquote "").
Proof. intros H. unfold Go.Quote. by rewrite (quoteBody_plain s H). Qed.

(** ** Severity *)

(** C9: [SeverityRank] is defined on every string; on the five severities it
    is strictly increasing from Critical to Info, and every other string
    gets a rank strictly after Info's (it sorts last), not an error. *)
Theorem SeverityRank_total_order :
  (types.SeverityRank types.SeverityCritical < types.SeverityRank types.SeverityHigh
   ∧ types.SeverityRank types.SeverityHigh < types.SeverityRank types.SeverityMedium
   ∧ types.SeverityRank types.SeverityMedium < types.SeverityRank types.SeverityLow
   ∧ types.SeverityRank types.SeverityLow < types.SeverityRank types.SeverityInfo)
  ∧ ∀ s : types.Severity,
      s ∉ [types.SeverityCritical; types.SeverityHigh; types.SeverityMedium;
           types.SeverityLow; types.SeverityInfo] →
      types.SeverityRank s = 5
      ∧ types.SeverityRank types.SeverityInfo < types.SeverityRank s.
Proof.
  split; [by vm_compute|].
  intros s Hs. unfold types.SeverityRank.
  repeat match goal with
         | |- context [String.eqb s ?c] =>
             destruct (String.eqb_spec s c) as [->|_];
             [exfalso; apply Hs; set_solver|]
         end.
  by vm_compute.
Qed.

Lemma SeverityRank_total_order_witness :
  types.SeverityRank "UNKNOWN" = 5
  ∧ types.SeverityRank types.SeverityInfo < types.SeverityRank "UNKNOWN".
Proof.
  apply (proj2 SeverityRank_total_order "UNKNOWN").
  vm_compute. intros H.
  repeat (apply elem_of_cons in H as [H|H]; [discriminate H|]).
  by apply elem_of_nil in H.
Defined.

(** ** Registry *)

Lemma keyed_Register r s : scanner.keyed r → scanner.keyed (scanner.Register r s).
Proof.
  intros Hr k s'. unfold scanner.Register. cbn.
  destruct (decide (scanner.Name s = k)) as [<-|Hne].
  - rewrite lookup_insert_eq. by intros [= <-].
  - rewrite lookup_insert_ne by done. apply Hr.
Qed.

Lemma keyed_foldl l r : scanner.keyed r → scanner.keyed (foldl scanner.Register r l).
Proof.
  revert r. induction l as [|s l IH]; intros r Hr; [done|].
  cbn. apply IH. by apply keyed_Register.
Qed.

Lemma keyed_registered l : scanner.keyed (scanner.registered l).
Proof. apply keyed_foldl. intros k s. cbn. by rewrite lookup_empty. Qed.

Lemma fmap_snd_keys {A} (f : A → string) (l : list (string * A)) :
  Forall (λ ks, f ks.2 = ks.1) l → f <$> l.*2 = l.*1.
Proof. induction 1 as [|[k s] l Hk _ IH]; [done|]. cbn in *. by rewrite Hk, IH. Qed.

Lemma All_names r :
  scanner.keyed r → scanner.Name <$> scanner.All r = (map_to_list (scanner.scanners r)).*1.
Proof.
  intros Hr. unfold scanner.All. apply fmap_snd_keys.
  apply Forall_forall. intros [k s] Hin. cbn.
  apply Hr. by apply elem_of_map_to_list.
Qed.

Lemma filter_none {A} (P : A → Prop) `{∀ x, Decision (P x)} (l : list A) :
  (∀ z, z ∈ l → ¬ P z) → filter P l = [].
Proof.
  induction l as [|y l IH]; intros Hl; [done|].
  rewrite filter_cons_False by (apply Hl; left).
  apply IH. intros z Hz. apply Hl. by right.
Qed.

Lemma filter_unique_key {A} (f : A → string) (l : list A) (x : A) :
  NoDup (f <$> l) → x ∈ l → filter (λ y, f y = f x) l = [x].
Proof.
  induction l as [|y l IH]; intros Hnd Hin; [by apply elem_of_nil in Hin|].
  rewrite fmap_cons in Hnd. apply NoDup_cons in Hnd as [Hy Hnd].
  assert (Hnone : f x = f y → filter (λ z, f z = f x) l = []).
  { intros Hxy. apply filter_none. intros z Hz Hfz.
    apply Hy. rewrite <- Hxy, <- Hfz. by apply list_elem_of_fmap_2. }
  destruct (decide (f y = f x)) as [Hxy|Hxy].
  - rewrite filter_cons_True by done. rewrite Hnone by done.
    apply elem_of_cons in Hin as [->|Hin]; [done|].
    exfalso. apply Hy. rewrite Hxy. by apply list_elem_of_fmap_2.
  - rewrite filter_cons_False by done.
    apply elem_of_cons in Hin as [->|Hin]; [done|]. by apply IH.
Qed.

(** C10: after [Register(s1)] and [Register(s2)] with [s1.Name() =
    s2.Name()], on a registry built by any earlier registrations, [Get] of
    that name succeeds with [s2]; in whatever order [All] lists the map, the
    names in it are pairwise distinct and the one entry under the shared
    name is [s2]. *)
Theorem Register_same_name_last_wins (l : list scanner.Scanner) (s1 s2 : scanner.Scanner) :
  scanner.Name s1 = scanner.Name s2 →
  let r := scanner.Register (scanner.Register (scanner.registered l) s1) s2 in
  scanner.Get r (scanner.Name s1) = inl s2
  ∧ ∀ all : list scanner.Scanner, all ≡ₚ scanner.All r →
      NoDup (scanner.Name <$> all)
      ∧ filter (λ s, scanner.Name s = scanner.Name s2) all = [s2].
Proof.
  intros Hn r.
  assert (Hk : scanner.keyed r) by (do 2 apply keyed_Register; apply keyed_registered).
  assert (Hget : scanner.scanners r !! scanner.Name s2 = Some s2)
    by (unfold r, scanner.Register; cbn; apply lookup_insert_eq).
  split.
  - unfold scanner.Get. by rewrite Hn, Hget.
  - intros all Hall.
    assert (Hnd : NoDup (scanner.Name <$> all)).
    { rewrite Hall, (All_names r Hk). apply NoDup_fst_map_to_list. }
    split; [done|]. apply filter_unique_key; [done|].
    rewrite Hall. unfold scanner.All.
    apply (list_elem_of_fmap_2 snd _ (scanner.Name s2, s2)).
    by apply elem_of_map_to_list.
Qed.

Lemma Register_same_name_last_wins_witness :
  let r := scanner.Register
             (scanner.Register (scanner.registered []) (probes.nilScanner "headers"))
             probes.headersScanner in
  scanner.Get r "headers" = inl probes.headersScanner
  ∧ ∀ all : list scanner.Scanner, all ≡ₚ scanner.All r →
      NoDup (scanner.Name <$> all)
      ∧ filter (λ s, scanner.Name s = "headers") all = [probes.headersScanner].
Proof.
  apply (Register_same_name_last_wins [] (probes.nilScanner "headers")
           probes.headersScanner).
  reflexivity.
Defined.

(** ** RunOne *)

(** C7, as the code has it: [RunOne] returns the registry's error with a nil
    result when the lookup fails, and for a registered name it returns
    exactly what that scanner's [Run] returns (or panics as it does),
    whatever that is.  So a nil result with a nil error comes out of
    [RunOne] exactly when the scanner registered under the name returns
    it. *)
Theorem RunOne_delegates (r : scanner.Runner) (ctx : Go.Context) (name : string)
    (target : types.Target) (opts : scanner.Options) :
  (scanner.scanners (scanner.registry r) !! name = None →
   scanner.RunOne r ctx name target opts =
   scanner.Returned None
     (Some (Go.errorString ("scanner " +:+ Go.Quote name +:+ " not found"))))
  ∧ (∀ s, scanner.scanners (scanner.registry r) !! name = Some s →
       scanner.RunOne r ctx name target opts = scanner.Run s ctx target opts)
  ∧ (scanner.RunOne r ctx name target opts = scanner.Returned None None ↔
     ∃ s, scanner.scanners (scanner.registry r) !! name = Some s
          ∧ scanner.Run s ctx target opts = scanner.Returned None None).
Proof.
  unfold scanner.RunOne, scanner.Get.
  destruct (scanner.scanners (scanner.registry r) !! name) as [s|].
  - split; [done|]. split; [by intros ? [= <-]|]. split.
    + intros Hrun. by exists s.
    + by intros (? & [= <-] & Hrun).
  - split; [done|]. split; [done|]. split; [done|]. by intros (? & ? & _).
Qed.

Lemma RunOne_delegates_witness :
  let r := scanner.NewRunner (scanner.Register scanner.NewRegistry probes.headersScanner) in
  scanner.RunOne r Go.Background "ssl" probes.example_com scanner.DefaultOptions =
    scanner.Returned None
      (Some (Go.errorString ("scanner " +:+ Go.Quote "ssl" +:+ " not found")))
  ∧ scanner.RunOne r Go.Background "headers" probes.example_com scanner.DefaultOptions =
    scanner.Run probes.headersScanner Go.Background probes.example_com
      scanner.DefaultOptions.
Proof.
  intros r. split.
  - apply (proj1 (RunOne_delegates r Go.Background "ssl" probes.example_com
                    scanner.DefaultOptions)).
    reflexivity.
  - apply (proj1 (proj2 (RunOne_delegates r Go.Background "headers" probes.example_com
                           scanner.DefaultOptions))).
    reflexivity.
Defined.

(** C7 as stated fails: "headers" is registered, the lookup succeeds, and
    [RunOne] still returns a nil result with a non-nil error, because the
    headers scanner does so for a target without URL and host. *)
Lemma RunOne_nil_result_for_registered_name :
  let r := scanner.NewRunner (scanner.Register scanner.NewRegistry probes.headersScanner) in
  scanner.Get (scanner.registry r) "headers" = inl probes.headersScanner
  ∧ scanner.RunOne r Go.Background "headers" probes.noTarget scanner.DefaultOptions =
    scanner.Returned None
      (Some (Go.errorString ("cannot determine URL for target " +:+ Go.Quote ""))).
Proof. split; reflexivity. Qed.

(** ** Not-found errors *)

Lemma string_app_assoc (a b c : string) : (a +:+ b) +:+ c = a +:+ (b +:+ c).
Proof. induction a as [|x a IH]; [done|]. change (String x ((a +:+ b) +:+ c) = String x (a +:+ b +:+ c)). by f_equal. Qed.

Lemma quoted_then (s t : string) :
  String Go.dquote (s +:+ String Go.dquote "") +:+ t
  = String Go.dquote (s +:+ String Go.dquote t).
Proof.
  change (String Go.dquote ((s +:+ String Go.dquote "") +:+ t)
          = String Go.dquote (s +:+ String Go.dquote t)).
  by rewrite string_app_assoc.
Qed.

(** C6, as the code has it: a lookup that fails, in the registry or in the
    manager, yields a plain [fmt.Errorf] value (an [*errors.errorString],
    the type of every error made without [%w]) whose message is
    [scanner %q not found] or [job %q not found]; for a name that [%q] does
    not escape this is the name between two quotes.  [Start] and [Delete]
    leave the manager as it was. *)
Theorem not_found_errors (reg : scanner.Registry) (σ : jobs.State)
    (name jobID : string) (now : Z) :
  scanner.scanners reg !! name = None →
  jobs.jobs (jobs.manager σ) !! jobID = None →
  let e1 := Go.errorString ("scanner " +:+ Go.Quote name +:+ " not found") in
  let e2 := Go.errorString ("job " +:+ Go.Quote jobID +:+ " not found") in
  scanner.Get reg name = inr e1
  ∧ jobs.Get σ jobID = inr e2
  ∧ jobs.Start σ jobID now = (σ, Some e2)
  ∧ jobs.Delete σ jobID = (σ, Some e2)
  ∧ Go.dynType e1 = Go.errors_errorString
  ∧ Go.dynType e2 = Go.errors_errorString
  ∧ (Go.plain name = true →
     Go.Error e1 = "scanner " +:+ String Go.dquote (name +:+ String Go.dquote " not found"))
  ∧ (Go.plain jobID = true →
     Go.Error e2 = "job " +:+ String Go.dquote (jobID +:+ String Go.dquote " not found")).
Proof.
  intros Hn Hj e1 e2.
  unfold scanner.Get, jobs.Get, jobs.Start, jobs.Delete, jobs.notFound.
  rewrite Hn, Hj. repeat split; try done.
  - intros Hp. cbn [Go.Error e1]. unfold e1.
    by rewrite (Quote_plain name Hp), quoted_then.
  - intros Hp. cbn [Go.Error e2]. unfold e2.
    by rewrite (Quote_plain jobID Hp), quoted_then.
Qed.

Lemma not_found_errors_witness :
  let σ := jobs.NewManager (scanner.NewRunner scanner.NewRegistry) in
  let e1 := Go.errorString ("scanner " +:+ Go.Quote "nmap" +:+ " not found") in
  let e2 := Go.errorString ("job " +:+ Go.Quote "42" +:+ " not found") in
  scanner.Get scanner.NewRegistry "nmap" = inr e1
  ∧ jobs.Get σ "42" = inr e2
  ∧ jobs.Start σ "42" 7 = (σ, Some e2)
  ∧ jobs.Delete σ "42" = (σ, Some e2)
  ∧ Go.dynType e1 = Go.errors_errorString
  ∧ Go.dynType e2 = Go.errors_errorString
  ∧ (Go.plain "nmap" = true →
     Go.Error e1 = "scanner " +:+ String Go.dquote ("nmap" +:+ String Go.dquote " not found"))
  ∧ (Go.plain "42" = true →
     Go.Error e2 = "job " +:+ String Go.dquote ("42" +:+ String Go.dquote " not found")).
Proof.
  apply (not_found_errors scanner.NewRegistry
           (jobs.NewManager (scanner.NewRunner scanner.NewRegistry)) "nmap" "42" 7);
    reflexivity.
Defined.

(** C6 as stated fails: the error [RunOne] returns for a name that is not
    registered and the error it returns when the headers scanner cannot
    build a URL have the same dynamic type, so no test on the type of the
    error (a type switch, [errors.As]) accepts the first and rejects the
    second; what tells them apart is the text. *)
Lemma not_found_has_no_type_of_its_own :
  let r := scanner.NewRunner (scanner.Register scanner.NewRegistry probes.headersScanner) in
  let e1 := Go.errorString ("scanner " +:+ Go.Quote "missing" +:+ " not found") in
  let e2 := Go.errorString ("cannot determine URL for target " +:+ Go.Quote "") in
  scanner.RunOne r Go.Background "missing" probes.noTarget scanner.DefaultOptions =
    scanner.Returned None (Some e1)
  ∧ scanner.RunOne r Go.Background "headers" probes.noTarget scanner.DefaultOptions =
    scanner.Returned None (Some e2)
  ∧ Go.dynType e1 = Go.dynType e2
  ∧ (∀ isNotFound : Go.errType → bool,
       isNotFound (Go.dynType e1) = isNotFound (Go.dynType e2))
  ∧ Go.Error e1 ≠ Go.Error e2.
Proof. repeat split; try reflexivity. discriminate. Qed.

(** ** Job ids *)

(** Two clock readings that differ give two ids that differ. *)
Lemma newUUID_inj (t1 t2 : Z) : jobs.newUUID t1 = jobs.newUUID t2 → t1 = t2.
Proof. unfold jobs.newUUID, jobs.defaultNewUUID. apply pretty_Z_inj. Qed.

(** C4 fails on the code: the id is the clock reading and nothing else, so
    two [Create] calls that read the same nanosecond allocate the same id;
    the second call stores its job over the first one's entry, the map does
    not grow, and [Get] of the id answers with the second job. *)
Theorem Create_same_instant_overwrites (σ : jobs.State)
    (target1 target2 : types.Target) (scanners1 scanners2 : list string)
    (opts1 opts2 : scanner.Options) (t tc1 tc2 : Z) :
  let c1 := jobs.Create σ target1 scanners1 opts1 t tc1 in
  let c2 := jobs.Create c1.1 target2 scanners2 opts2 t tc2 in
  c1.2 ≠ c2.2
  ∧ jobs.ID <$> jobs.heap c2.1 !! c1.2 = Some (jobs.newUUID t)
  ∧ jobs.ID <$> jobs.heap c2.1 !! c2.2 = Some (jobs.newUUID t)
  ∧ jobs.Get c1.1 (jobs.newUUID t) = inl c1.2
  ∧ jobs.Get c2.1 (jobs.newUUID t) = inl c2.2
  ∧ size (jobs.jobs (jobs.manager c2.1)) = size (jobs.jobs (jobs.manager c1.1)).
Proof.
  cbn. unfold jobs.Get. cbn.
  rewrite !lookup_insert_eq, length_app. cbn.
  repeat split.
  - lia.
  - rewrite lookup_app_l by (rewrite length_app; cbn; lia).
    by rewrite list_lookup_middle.
  - rewrite list_lookup_middle; [done|]. rewrite length_app. cbn. lia.
  - apply map_size_insert_Some. rewrite lookup_insert_eq. by eexists.
Qed.

(** The same on a new manager: after two calls there are two jobs and one
    entry. *)
Example Create_same_instant_example :
  let σ0 := jobs.NewManager (scanner.NewRunner scanner.NewRegistry) in
  let c1 := jobs.Create σ0 probes.example_com ["headers"] scanner.DefaultOptions
              1700000000000000000 1700000000000000050 in
  let c2 := jobs.Create c1.1 probes.noTarget ["ssl"] scanner.DefaultOptions
              1700000000000000000 1700000000000000090 in
  length (jobs.heap c2.1) = 2%nat
  ∧ size (jobs.jobs (jobs.manager c2.1)) = 1%nat
  ∧ jobs.Get c2.1 "1700000000000000000" = inl 1%nat
  ∧ jobs.Scanners <$> jobs.heap c2.1 !! 1%nat = Some ["ssl"].
Proof. by vm_compute. Qed.

(** ** Start *)

(** C3, as the code has it: [Start] fails, with the not-found error and
    without any change, exactly when the id is not in the map.  For an id
    that is in the map it returns nil, whatever the status of the job: the
    job is marked running, its start time is set, and a goroutine running
    [execute] is launched. *)
Theorem Start_marks_any_known_job_running (σ : jobs.State) (jobID : string) (now : Z) :
  match jobs.jobs (jobs.manager σ) !! jobID with
  | None => jobs.Start σ jobID now = (σ, Some (jobs.notFound jobID))
  | Some p =>
      (jobs.Start σ jobID now).2 = None
      ∧ jobs.manager (jobs.Start σ jobID now).1 = jobs.manager σ
      ∧ jobs.tasks (jobs.Start σ jobID now).1 = (jobs.tasks σ ++ [jobs.mkTask p jobs.Entered])%list
      ∧ ∀ j, jobs.heap σ !! p = Some j →
          jobs.heap (jobs.Start σ jobID now).1 !! p = Some (jobs.setRunning now j)
          ∧ jobs.Status (jobs.setRunning now j) = jobs.StatusRunning
          ∧ jobs.StartedAt (jobs.setRunning now j) = Some now
  end.
Proof.
  unfold jobs.Start. destruct (jobs.jobs (jobs.manager σ) !! jobID) as [p|]; [|done].
  cbn. split; [done|]. split; [done|]. split; [done|].
  intros j Hj. split; [|done]. by rewrite list_lookup_alter_eq, Hj.
Qed.

Lemma Start_marks_any_known_job_running_witness :
  let σ := (jobs.Create (jobs.NewManager (scanner.NewRunner scanner.NewRegistry))
              probes.example_com ["headers"] scanner.DefaultOptions 1 2).1 in
  (jobs.Start σ "1" 3).2 = None
  ∧ jobs.Status <$> jobs.heap (jobs.Start σ "1" 3).1 !! 0%nat = Some jobs.StatusRunning
  ∧ jobs.StartedAt <$> jobs.heap (jobs.Start σ "1" 3).1 !! 0%nat = Some (Some 3).
Proof.
  intros σ.
  pose proof (Start_marks_any_known_job_running σ "1" 3) as H.
  change (jobs.jobs (jobs.manager σ) !! "1") with (Some 0%nat) in H.
  destruct H as (H1 & _ & _ & H4).
  split; [exact H1|].
  destruct (H4 _ eq_refl) as (Hj & _ & _).
  rewrite Hj. split; reflexivity.
Defined.

(** ** Executions of the manager *)

Lemma jobs_exec_snoc evs ev σ0 :
  jobs.exec (evs ++ [ev]) σ0 =
  match jobs.exec evs σ0 with Some σ => jobs.step σ ev | None => None end.
Proof.
  revert σ0. induction evs as [|e evs IH]; intros σ0; cbn.
  - by destruct (jobs.step σ0 ev).
  - destruct (jobs.step σ0 e); [apply IH|done].
Qed.

(** Counting the elements of a list that satisfy a predicate. *)
Section Counting.
Context {A : Type} (P : A → Prop) `{!∀ x, Decision (P x)}.

Lemma count_cons x l :
  length (filter P (x :: l)) = ((if decide (P x) then 1 else 0) + length (filter P l))%nat.
Proof. rewrite filter_cons. by destruct (decide (P x)). Qed.

Lemma count_snoc l x :
  length (filter P (l ++ [x])) = (length (filter P l) + if decide (P x) then 1 else 0)%nat.
Proof.
  rewrite filter_app, length_app, filter_cons, filter_nil.
  by destruct (decide (P x)).
Qed.

Lemma count_insert l i x y :
  l !! i = Some x →
  (length (filter P (<[i:=y]> l)) + (if decide (P x) then 1 else 0)
   = length (filter P l) + if decide (P y) then 1 else 0)%nat.
Proof.
  revert i. induction l as [|z l IH]; intros [|i] Hi; try done.
  - injection Hi as ->. change (<[0%nat:=y]> (x :: l)) with (y :: l).
    rewrite !count_cons.
    destruct (decide (P x)), (decide (P y)); lia.
  - change (<[S i:=y]> (z :: l)) with (z :: <[i:=y]> l).
    rewrite !count_cons. specialize (IH i Hi).
    destruct (decide (P x)), (decide (P y)), (decide (P z)); lia.
Qed.

Lemma count_pos l i x : l !! i = Some x → P x → (1 ≤ length (filter P l))%nat.
Proof.
  revert i. induction l as [|z l IH]; intros [|i] Hi Hx; try done; rewrite count_cons.
  - injection Hi as ->. rewrite decide_True by done. lia.
  - specialize (IH i Hi Hx). lia.
Qed.

Lemma count_two l i i' x x' :
  l !! i = Some x → l !! i' = Some x' → i ≠ i' → P x → P x' →
  (2 ≤ length (filter P l))%nat.
Proof.
  revert i i'. induction l as [|z l IH]; intros [|i] [|i'] Hi Hi' Hne Hx Hx';
    try done; rewrite count_cons.
  - injection Hi as ->. rewrite decide_True by done.
    pose proof (count_pos l i' x' Hi' Hx'). lia.
  - injection Hi' as ->. rewrite decide_True by done.
    pose proof (count_pos l i x Hi Hx). lia.
  - assert (Hne' : i ≠ i') by congruence. specialize (IH i i' Hi Hi' Hne' Hx Hx'). lia.
Qed.

Lemma count_witness l :
  (1 ≤ length (filter P l))%nat → ∃ i x, l !! i = Some x ∧ P x.
Proof.
  induction l as [|z l IH]; [cbn; lia|].
  rewrite count_cons. destruct (decide (P z)) as [Hz|Hz].
  - intros _. by exists 0%nat, z.
  - intros Hl. destruct IH as (i & x & Hi & Hx); [lia|]. by exists (S i), x.
Qed.

End Counting.

(** ** The invariant of the manager *)

Lemma invariant_NewManager runner : jobs.invariant (jobs.NewManager runner).
Proof.
  repeat split; cbn; intros *; try by rewrite ?lookup_empty, ?lookup_nil.
Qed.

Lemma counts_same E j j' todo :
  jobs.Progress j' = jobs.Progress j → jobs.Results j' = jobs.Results j →
  jobs.counts E j todo → jobs.counts E j' todo.
Proof. unfold jobs.counts. by intros -> ->. Qed.

(** A step of a goroutine: its job goes from [j0] to [f j0] and the
    goroutine to [pc']. *)
Lemma invariant_update σ i t j0 f pc' :
  let E := scanner.never_nil_nil (scanner.registry (jobs.runner (jobs.manager σ))) in
  jobs.invariant σ →
  jobs.tasks σ !! i = Some t →
  jobs.heap σ !! jobs.job t = Some j0 →
  jobs.TotalScanners (jobs.Progress (f j0)) = jobs.TotalScanners (jobs.Progress j0) →
  jobs.Scanners (f j0) = jobs.Scanners j0 →
  (jobs.task_ok E j0 (jobs.at_ t) → jobs.task_ok E (f j0) pc') →
  jobs.invariant
    (jobs.mkState (jobs.manager σ) (alter f (jobs.job t) (jobs.heap σ))
       (jobs.setTask σ i t pc')).
Proof.
  intros E (Hmap & Htasks & Hjobs) Hi Hj0 Htot Hsc Hok.
  assert (Hlaunch : ∀ p,
    jobs.launches (jobs.mkState (jobs.manager σ) (alter f (jobs.job t) (jobs.heap σ))
                     (jobs.setTask σ i t pc')) p = jobs.launches σ p).
  { intros p. unfold jobs.launches, jobs.setTask. cbn.
    pose proof (count_insert (λ t, jobs.job t = p) _ _ _ (jobs.mkTask (jobs.job t) pc') Hi)
      as Hc.
    cbn in Hc. destruct (decide (jobs.job t = p)); lia. }
  split; [|split].
  - cbn. intros id p Hp. rewrite length_alter. by apply (Hmap id).
  - cbn. intros i' t' Hi'. rewrite length_alter. unfold jobs.setTask in Hi'.
    destruct (decide (i = i')) as [<-|Hne].
    + rewrite list_lookup_insert_eq in Hi' by (by apply lookup_lt_Some in Hi).
      injection Hi' as <-. cbn. by apply (Htasks i).
    + rewrite list_lookup_insert_ne in Hi' by done. by apply (Htasks i').
  - intros p j Hp. rewrite Hlaunch. cbn in Hp.
    destruct (decide (jobs.job t = p)) as [<-|Hne].
    + rewrite list_lookup_alter_eq, Hj0 in Hp. injection Hp as <-.
      destruct (Hjobs _ _ Hj0) as (Ht & _ & Hone).
      split; [by rewrite Htot, Hsc|]. split.
      * intros Hzero.
        pose proof (count_pos (λ t', jobs.job t' = jobs.job t) _ _ _ Hi eq_refl) as Hpos.
        unfold jobs.launches in Hzero. lia.
      * intros Hl i' t' Hi' Hjt'. cbn in Hi'. unfold jobs.setTask in Hi'.
        destruct (decide (i = i')) as [<-|Hne].
        -- rewrite list_lookup_insert_eq in Hi' by (by apply lookup_lt_Some in Hi).
           injection Hi' as <-. cbn. apply Hok. by apply (Hone Hl i).
        -- rewrite list_lookup_insert_ne in Hi' by done.
           pose proof (count_two (λ t', jobs.job t' = jobs.job t) _ _ _ _ _
                         Hi Hi' Hne eq_refl Hjt') as H2.
           unfold jobs.launches in Hl. lia.
    + rewrite list_lookup_alter_ne in Hp by done.
      destruct (Hjobs _ _ Hp) as (Ht & Hzero & Hone).
      split; [done|]. split; [done|].
      intros Hl i' t' Hi' Hjt'. cbn in Hi'. unfold jobs.setTask in Hi'.
      destruct (decide (i = i')) as [<-|Hne'].
      * rewrite list_lookup_insert_eq in Hi' by (by apply lookup_lt_Some in Hi).
        injection Hi' as <-. by cbn in Hjt'.
      * rewrite list_lookup_insert_ne in Hi' by done. by apply (Hone Hl i').
Qed.

Lemma invariant_executeStep σ i now σ' :
  jobs.invariant σ → jobs.executeStep σ i now = Some σ' → jobs.invariant σ'.
Proof.
  intros Hinv. unfold jobs.executeStep.
  destruct (jobs.tasks σ !! i) as [t|] eqn:Hi; [|done].
  destruct (jobs.heap σ !! jobs.job t) as [j0|] eqn:Hj0; [|done].
  assert (Hid : ∀ pc',
    (jobs.task_ok (scanner.never_nil_nil (scanner.registry (jobs.runner (jobs.manager σ))))
       j0 (jobs.at_ t) →
     jobs.task_ok (scanner.never_nil_nil (scanner.registry (jobs.runner (jobs.manager σ))))
       j0 pc') →
    jobs.invariant (jobs.mkState (jobs.manager σ) (jobs.heap σ) (jobs.setTask σ i t pc'))).
  { intros pc' Hok.
    rewrite <- (list_alter_id id (jobs.heap σ) (jobs.job t)) by done.
    by apply (invariant_update σ i t j0 id pc'). }
  destruct (jobs.at_ t) as [|c [|name rest]|c name rest|c name result err rest|v|] eqn:Hpc.
  - (* Entered *)
    intros [= <-]. apply Hid. cbn. tauto.
  - (* Looping, nothing left *)
    intros [= <-]. apply (invariant_update σ i t j0); try done.
    rewrite Hpc. cbn. intros [_ Hc]. left. split; [done|]. exact Hc.
  - (* Looping, a name left *)
    intros [= <-]. apply (invariant_update σ i t j0); try done.
    rewrite Hpc. cbn -[Z.of_nat]. intros [Hs (H1 & H2 & H3)]. split; [done|].
    unfold jobs.counts. cbn -[Z.of_nat]. split; [lia|]. split; [lia|done].
  - (* Calling *)
    unfold scanner.RunOne, scanner.Get.
    destruct (scanner.scanners (scanner.registry (jobs.runner (jobs.manager σ))) !! name)
      as [s|] eqn:Hs.
    + destruct (scanner.Run s _ _ _) as [result err|v|] eqn:Hrun; [| |done];
        intros [= <-]; apply Hid.
      * cbn. intros [? Hc]. split; [done|]. split; [exact Hc|].
        intros HE. destruct result; [by left|]. destruct err; [by right|].
        by destruct (HE _ _ _ _ _ Hs Hrun).
      * cbn. intros [? ?]. split; [done|]. eexists. split; [|done]. lia.
    + intros [= <-]. apply Hid. cbn. intros [? Hc]. split; [done|]. split; [exact Hc|].
      intros _. by right.
  - (* Got *)
    intros [= <-]. apply (invariant_update σ i t j0); try done.
    rewrite Hpc. cbn -[Z.of_nat]. intros (Hs & (H1 & H2 & H3) & Hnn). split; [done|].
    unfold jobs.counts. cbn -[Z.of_nat].
    destruct err as [e|]; [|destruct result as [x|]];
      rewrite ?length_app; cbn -[Z.of_nat]; (split; [lia|split; [lia|]]); intros HE;
      specialize (H3 HE); try lia.
    destruct (Hnn HE); done.
  - (* Recovering *)
    intros [= <-]. apply (invariant_update σ i t j0); try done.
    rewrite Hpc. cbn. intros [_ Hc]. right. split; [done|]. split; [done|]. exact Hc.
  - done.
Qed.

Lemma invariant_Create σ target scanners opts tID tCreated :
  jobs.invariant σ → jobs.invariant (jobs.Create σ target scanners opts tID tCreated).1.
Proof.
  intros (Hmap & Htasks & Hjobs). split; [|split]; cbn.
  - intros id p. rewrite length_app. cbn.
    destruct (decide (jobs.newUUID tID = id)) as [<-|Hne].
    + rewrite lookup_insert_eq. intros [= <-]. lia.
    + rewrite lookup_insert_ne by done. intros Hp. specialize (Hmap _ _ Hp). lia.
  - intros i t Hi. rewrite length_app. specialize (Htasks _ _ Hi). lia.
  - intros p j Hp. unfold jobs.launches. cbn.
    destruct (decide (p < length (jobs.heap σ))%nat) as [Hlt|Hge].
    + rewrite lookup_app_l in Hp by done. by apply Hjobs.
    + rewrite lookup_app_r in Hp by lia.
      destruct (p - length (jobs.heap σ))%nat as [|n] eqn:Hn; [|done].
      injection Hp as <-. cbn. split; [done|]. split.
      * intros _. split; [done|]. unfold jobs.counts. cbn. split; [lia|]. split; [lia|done].
      * intros _ i t Hi Hjt. specialize (Htasks _ _ Hi). lia.
Qed.

Lemma invariant_Start σ jobID now :
  jobs.invariant σ → jobs.invariant (jobs.Start σ jobID now).1.
Proof.
  intros Hinv. unfold jobs.Start.
  destruct (jobs.jobs (jobs.manager σ) !! jobID) as [p0|] eqn:Hid; [|done].
  destruct Hinv as (Hmap & Htasks & Hjobs). split; [|split]; cbn.
  - intros id p. rewrite length_alter. apply Hmap.
  - intros i t. rewrite length_alter. intros Hi.
    apply lookup_app_Some in Hi as [Hi|[_ Hi]]; [by apply (Htasks i)|].
    destruct (i - length (jobs.tasks σ))%nat; [|done].
    injection Hi as <-. cbn. by apply (Hmap jobID).
  - intros p j Hp. unfold jobs.launches. cbn.
    rewrite (count_snoc (λ t, jobs.job t = p)). cbn.
    destruct (decide (p0 = p)) as [<-|Hne].
    + specialize (Hmap _ _ Hid).
      destruct (jobs.heap σ !! p0) as [j0|] eqn:Hj0;
        [|by apply lookup_ge_None in Hj0; lia].
      rewrite list_lookup_alter_eq, Hj0 in Hp. injection Hp as <-.
      destruct (Hjobs _ _ Hj0) as (Ht & Hzero & _). cbn.
      split; [done|]. split; [lia|].
      intros Hl i t Hi Hjt.
      assert (Hz : jobs.launches σ p0 = 0%nat) by (unfold jobs.launches; lia).
      apply lookup_app_Some in Hi as [Hi|[_ Hi]].
      * pose proof (count_pos (λ t, jobs.job t = p0) _ _ _ Hi Hjt).
        unfold jobs.launches in Hz. lia.
      * destruct (i - length (jobs.tasks σ))%nat; [|done].
        injection Hi as <-. cbn. destruct (Hzero Hz) as [_ Hc]. split; [done|].
        exact Hc.
    + rewrite list_lookup_alter_ne in Hp by done.
      destruct (Hjobs _ _ Hp) as (Ht & Hzero & Hone).
      rewrite Nat.add_0_r. split; [done|]. split; [done|].
      intros Hl i t Hi Hjt.
      apply lookup_app_Some in Hi as [Hi|[_ Hi]]; [by apply (Hone Hl i)|].
      destruct (i - length (jobs.tasks σ))%nat; [|done].
      injection Hi as <-. by cbn in Hjt.
Qed.

Lemma invariant_Delete σ jobID :
  jobs.invariant σ → jobs.invariant (jobs.Delete σ jobID).1.
Proof.
  intros Hinv. unfold jobs.Delete.
  destruct (jobs.jobs (jobs.manager σ) !! jobID) as [p0|] eqn:Hid; [|done].
  destruct Hinv as (Hmap & Htasks & Hjobs). split; [|split]; cbn; [|done|done].
  intros id p Hp. apply lookup_delete_Some in Hp as [_ Hp]. by apply (Hmap id).
Qed.

Lemma invariant_step σ ev σ' :
  jobs.invariant σ → jobs.step σ ev = Some σ' → jobs.invariant σ'.
Proof.
  intros Hinv. destruct ev; cbn.
  - intros [= <-]. by apply invariant_Create.
  - intros [= <-]. by apply invariant_Start.
  - intros [= <-]. by apply invariant_Delete.
  - by apply invariant_executeStep.
Qed.

Lemma invariant_exec evs σ σ' :
  jobs.invariant σ → jobs.exec evs σ = Some σ' → jobs.invariant σ'.
Proof.
  revert σ. induction evs as [|ev evs IH]; intros σ Hinv; cbn.
  - by intros [= <-].
  - destruct (jobs.step σ ev) as [σ1|] eqn:Hs; [|done].
    apply IH. by apply (invariant_step σ ev).
Qed.

Lemma runner_step σ ev σ' :
  jobs.step σ ev = Some σ' → jobs.runner (jobs.manager σ') = jobs.runner (jobs.manager σ).
Proof.
  destruct ev; cbn.
  - by intros [= <-].
  - intros [= <-]. unfold jobs.Start. by destruct (jobs.jobs (jobs.manager σ) !! jobID).
  - intros [= <-]. unfold jobs.Delete. by destruct (jobs.jobs (jobs.manager σ) !! jobID).
  - unfold jobs.executeStep.
    destruct (jobs.tasks σ !! i) as [t|]; [|done].
    destruct (jobs.heap σ !! jobs.job t) as [j|]; [|done].
    destruct (jobs.at_ t) as [|c [|name rest]|c name rest|c name result err rest|v|];
      try (by intros [= <-]).
    destruct (scanner.RunOne _ _ _ _ _); by intros [= <-].
Qed.

Lemma runner_exec evs σ σ' :
  jobs.exec evs σ = Some σ' → jobs.runner (jobs.manager σ') = jobs.runner (jobs.manager σ).
Proof.
  revert σ. induction evs as [|ev evs IH]; intros σ; cbn.
  - by intros [= <-].
  - destruct (jobs.step σ ev) as [σ1|] eqn:Hs; [|done].
    intros H. rewrite (IH _ H). by apply (runner_step σ ev).
Qed.

Lemma launched_task σ p :
  (1 ≤ jobs.launches σ p)%nat →
  ∃ i t, jobs.tasks σ !! i = Some t ∧ jobs.job t = p.
Proof. apply (count_witness (λ t, jobs.job t = p)). Qed.

Lemma sum_insert {A} (f : A → nat) (l : list A) (i : nat) (x y : A) :
  l !! i = Some x →
  (sum_list_with f (<[i:=y]> l) + f x = sum_list_with f l + f y)%nat.
Proof.
  revert i. induction l as [|z l IH]; intros [|i] Hi; try done.
  - injection Hi as ->. change (<[0%nat:=y]> (x :: l)) with (y :: l). cbn. lia.
  - change (<[S i:=y]> (z :: l)) with (z :: <[i:=y]> l). cbn.
    specialize (IH i Hi). lia.
Qed.

Lemma sum_zero {A} (f : A → nat) (l : list A) :
  (∀ x, x ∈ l → f x = 0%nat) → sum_list_with f l = 0%nat.
Proof.
  induction l as [|z l IH]; intros Hl; [done|]. cbn.
  rewrite (Hl z) by (by left). rewrite IH; [done|]. intros x Hx. apply Hl. by right.
Qed.

(** ** Calls that return nil, nil, counted *)

Lemma nilReturns_snoc p evs ev σ0 σ σ' :
  jobs.exec evs σ0 = Some σ → jobs.step σ ev = Some σ' →
  jobs.nilReturns p (evs ++ [ev]) σ0
  = (jobs.nilReturns p evs σ0 + jobs.nilReturn p σ ev)%nat.
Proof.
  revert σ0. induction evs as [|e evs IH]; intros σ0; cbn.
  - intros [= ->] ->. lia.
  - destruct (jobs.step σ0 e) as [σ1|]; [|done].
    intros Hexec Hs. rewrite (IH _ Hexec Hs). lia.
Qed.

Lemma pendingNil_other p t : jobs.job t ≠ p → jobs.pendingNil p t = 0%nat.
Proof. intros Hne. unfold jobs.pendingNil. by rewrite decide_False. Qed.

Lemma tally_update σ i t j0 (f : jobs.Job → jobs.Job) pc' p n m :
  jobs.tasks σ !! i = Some t → jobs.heap σ !! jobs.job t = Some j0 →
  jobs.tally p n σ →
  Z.of_nat (length (jobs.Results (f j0))) + Z.of_nat m
  + Z.of_nat (jobs.nilPending (jobs.at_ t))
  = Z.of_nat (length (jobs.Results j0))
    + (jobs.CompletedScanners (jobs.Progress (f j0))
       - jobs.CompletedScanners (jobs.Progress j0))
    + Z.of_nat (jobs.nilPending pc') →
  jobs.tally p (n + if decide (jobs.job t = p) then m else 0)
    (jobs.mkState (jobs.manager σ) (alter f (jobs.job t) (jobs.heap σ))
       (jobs.setTask σ i t pc')).
Proof.
  intros Hi Hj0 Hinv Hf. unfold jobs.tally in *. cbn. unfold jobs.setTask.
  destruct (decide (jobs.job t = p)) as [<-|Hne].
  - rewrite list_lookup_alter_eq, Hj0. rewrite Hj0 in Hinv. cbn.
    pose proof (sum_insert (jobs.pendingNil (jobs.job t)) _ _ _
                  (jobs.mkTask (jobs.job t) pc') Hi) as Hsum.
    unfold jobs.pendingNil at 2 4 in Hsum. cbn in Hsum.
    rewrite !decide_True in Hsum by done. lia.
  - rewrite list_lookup_alter_ne by done.
    pose proof (sum_insert (jobs.pendingNil p) _ _ _
                  (jobs.mkTask (jobs.job t) pc') Hi) as Hsum.
    rewrite !pendingNil_other in Hsum by done.
    rewrite !Nat.add_0_r in Hsum. rewrite Nat.add_0_r, Hsum. exact Hinv.
Qed.

Lemma tally_step σ ev σ' p n :
  (∀ i t, jobs.tasks σ !! i = Some t → (jobs.job t < length (jobs.heap σ))%nat) →
  jobs.tally p n σ → jobs.step σ ev = Some σ' →
  jobs.tally p (n + jobs.nilReturn p σ ev) σ'.
Proof.
  intros Htasks Hinv.
  destruct ev as [target scanners opts tID tCreated|jobID now|jobID|i now];
    cbn [jobs.step jobs.nilReturn].
  - intros [= <-]. rewrite Nat.add_0_r. unfold jobs.tally in *. cbn.
    destruct (jobs.heap σ !! p) as [j|] eqn:Hp.
    + by rewrite (lookup_app_l_Some _ _ _ _ Hp).
    + subst n. apply lookup_ge_None in Hp.
      destruct (decide (p = length (jobs.heap σ))) as [->|Hne].
      * rewrite lookup_app_r by lia. rewrite Nat.sub_diag. cbn.
        rewrite sum_zero; [done|]. intros t [k Hk]%list_elem_of_lookup.
        specialize (Htasks _ _ Hk). apply pendingNil_other. lia.
      * rewrite lookup_ge_None_2; [done|]. rewrite length_app. cbn. lia.
  - intros [= <-]. rewrite Nat.add_0_r. unfold jobs.tally in *. unfold jobs.Start.
    destruct (jobs.jobs (jobs.manager σ) !! jobID) as [p0|]; [|done]. cbn.
    rewrite sum_list_with_app. cbn. unfold jobs.pendingNil at 2. cbn.
    destruct (decide (p0 = p)) as [->|Hne].
    + rewrite list_lookup_alter_eq.
      destruct (jobs.heap σ !! p) as [j|]; cbn; [|done].
      destruct (decide (p = p)); cbn; lia.
    + rewrite list_lookup_alter_ne by done.
      destruct (jobs.heap σ !! p); [|done].
      destruct (decide (p0 = p)); cbn; lia.
  - intros [= <-]. rewrite Nat.add_0_r. unfold jobs.Delete.
    by destruct (jobs.jobs (jobs.manager σ) !! jobID).
  - unfold jobs.executeStep.
    destruct (jobs.tasks σ !! i) as [t|] eqn:Hi; [|done].
    destruct (jobs.heap σ !! jobs.job t) as [j|] eqn:Hj; [|done].
    assert (Hid : jobs.heap σ = alter id (jobs.job t) (jobs.heap σ))
      by (by rewrite list_alter_id).
    assert (Hzero : (n + 0 = n + if decide (jobs.job t = p) then 0 else 0)%nat)
      by (by destruct (decide (jobs.job t = p))).
    destruct (jobs.at_ t) as [|c [|name rest]|c name rest|c name result err rest|v|]
      eqn:Hpc; try done.
    + intros [= <-]. rewrite Hid, Hzero.
      apply (tally_update σ i t j id); try done. rewrite Hpc. cbn. lia.
    + intros [= <-]. rewrite Hzero.
      apply (tally_update σ i t j (jobs.setCompleted now)); try done.
      rewrite Hpc. cbn. lia.
    + intros [= <-]. rewrite Hzero.
      apply (tally_update σ i t j (jobs.setCurrent name)); try done.
      rewrite Hpc. cbn. lia.
    + destruct (scanner.RunOne _ _ _ _ _) as [[x|] [e|]|v|]; [| | | | |done];
        intros [= <-]; rewrite Hid; rewrite ?Hzero;
        apply (tally_update σ i t j id); try done; rewrite Hpc; cbn; lia.
    + intros [= <-]. rewrite Hzero.
      apply (tally_update σ i t j (jobs.record name result err)); try done.
      rewrite Hpc.
      destruct result, err; cbn -[Z.of_nat]; rewrite ?length_app; cbn -[Z.of_nat]; lia.
    + intros [= <-]. rewrite Hzero.
      apply (tally_update σ i t j (jobs.setFailed v now)); try done.
      rewrite Hpc. cbn. lia.
Qed.

Lemma tally_exec runner evs σ p :
  jobs.exec evs (jobs.NewManager runner) = Some σ →
  jobs.tally p (jobs.nilReturns p evs (jobs.NewManager runner)) σ.
Proof.
  revert σ. induction evs as [|ev evs IH] using rev_ind; intros σ.
  - intros [= <-]. unfold jobs.tally. cbn. by rewrite lookup_nil.
  - rewrite jobs_exec_snoc.
    destruct (jobs.exec evs (jobs.NewManager runner)) as [σ0|] eqn:H0; [|done].
    intros Hs. rewrite (nilReturns_snoc p evs ev _ σ0 σ H0 Hs).
    apply (tally_step σ0 ev); [|by apply IH|done].
    by destruct (invariant_exec _ _ _ (invariant_NewManager runner) H0) as (_ & Ht & _).
Qed.

(** C2, as the code has it, for a job that [Start] was called on at most
    once.  When its status is completed, [completedScanners] equals
    [totalScanners] and the results are no more than the completed
    scanners: they are exactly as many less the calls of [RunOne] made for
    this job that returned a nil result with a nil error, so as many when
    there was no such call, and as many in particular when no registered
    scanner ever returns nil, nil.  When its status is failed,
    [completedScanners] is below [totalScanners] and the error is not
    empty. *)
Theorem single_start_bookkeeping (runner : scanner.Runner) (evs : list jobs.Event)
    (σ : jobs.State) (p : nat) (j : jobs.Job) :
  jobs.exec evs (jobs.NewManager runner) = Some σ →
  jobs.heap σ !! p = Some j →
  (jobs.launches σ p ≤ 1)%nat →
  (jobs.Status j = jobs.StatusCompleted →
   jobs.CompletedScanners (jobs.Progress j) = jobs.TotalScanners (jobs.Progress j)
   ∧ Z.of_nat (length (jobs.Results j)) ≤ jobs.CompletedScanners (jobs.Progress j)
   ∧ Z.of_nat (length (jobs.Results j))
     + Z.of_nat (jobs.nilReturns p evs (jobs.NewManager runner))
     = jobs.CompletedScanners (jobs.Progress j)
   ∧ (jobs.nilReturns p evs (jobs.NewManager runner) = 0%nat →
      Z.of_nat (length (jobs.Results j)) = jobs.CompletedScanners (jobs.Progress j))
   ∧ (scanner.never_nil_nil (scanner.registry runner) →
      Z.of_nat (length (jobs.Results j)) = jobs.CompletedScanners (jobs.Progress j)))
  ∧ (jobs.Status j = jobs.StatusFailed →
     jobs.CompletedScanners (jobs.Progress j) < jobs.TotalScanners (jobs.Progress j)
     ∧ jobs.Error j ≠ "").
Proof.
  intros Hexec Hj Hl.
  pose proof (invariant_exec _ _ _ (invariant_NewManager runner) Hexec) as (_ & _ & Hjobs).
  rewrite (runner_exec _ _ _ Hexec) in Hjobs. cbn in Hjobs.
  destruct (Hjobs _ _ Hj) as (Htot & Hzero & Hone).
  destruct (decide (jobs.launches σ p = 0%nat)) as [Hz|Hnz].
  { destruct (Hzero Hz) as [Hs _]. rewrite Hs. by split. }
  assert (Hl1 : jobs.launches σ p = 1%nat) by lia.
  split.
  - intros Hdone.
    assert (Hsum : sum_list_with (jobs.pendingNil p) (jobs.tasks σ) = 0%nat).
    { apply sum_zero. intros t [k Hk]%list_elem_of_lookup.
      destruct (decide (jobs.job t = p)) as [Ht|Hne]; [|by apply pendingNil_other].
      specialize (Hone Hl1 k t Hk Ht). unfold jobs.pendingNil.
      rewrite decide_True by done.
      destruct (jobs.at_ t); cbn in *; try done.
      destruct Hone as [Hs _]. by rewrite Hs in Hdone. }
    pose proof (tally_exec runner evs σ p Hexec) as Htally.
    unfold jobs.tally in Htally. rewrite Hj, Hsum in Htally.
    destruct (launched_task σ p) as (i & t & Hi & Ht); [lia|].
    specialize (Hone Hl1 i t Hi Ht).
    destruct (jobs.at_ t); cbn in Hone;
      try (destruct Hone as [Hs _]; by rewrite Hs in Hdone).
    destruct Hone as [[Hs (H1 & H2 & H3)]|(Hs & _)]; [|by rewrite Hs in Hdone].
    split; [lia|]. split; [done|]. split; [lia|]. split; [lia|]. exact H3.
  - intros Hfailed.
    destruct (launched_task σ p) as (i & t & Hi & Ht); [lia|].
    specialize (Hone Hl1 i t Hi Ht).
    destruct (jobs.at_ t); cbn in Hone;
      try (destruct Hone as [Hs _]; by rewrite Hs in Hfailed).
    destruct Hone as [[Hs _]|(Hs & He & todo & Hpos & H1 & H2 & H3)];
      [by rewrite Hs in Hfailed|].
    split; [lia|done].
Qed.

Lemma single_start_bookkeeping_witness :
  let runner :=
    scanner.NewRunner
      (scanner.Register
         (scanner.Register scanner.NewRegistry (probes.mockScanner "headers"))
         (probes.nilScanner "quiet")) in
  let evs :=
    [jobs.CallCreate probes.example_com ["headers"; "quiet"] scanner.DefaultOptions 1 2;
     jobs.CallStart "1" 3; jobs.Exec 0 4; jobs.Exec 0 5; jobs.Exec 0 6;
     jobs.Exec 0 7; jobs.Exec 0 8; jobs.Exec 0 9; jobs.Exec 0 10; jobs.Exec 0 11] in
  ∃ σ j,
    jobs.exec evs (jobs.NewManager runner) = Some σ
    ∧ jobs.heap σ !! 0%nat = Some j
    ∧ (jobs.launches σ 0 ≤ 1)%nat
    ∧ jobs.Status j = jobs.StatusCompleted
    ∧ length (jobs.Results j) = 1%nat
    ∧ jobs.nilReturns 0 evs (jobs.NewManager runner) = 1%nat
    ∧ jobs.CompletedScanners (jobs.Progress j) = jobs.TotalScanners (jobs.Progress j)
    ∧ Z.of_nat (length (jobs.Results j))
      + Z.of_nat (jobs.nilReturns 0 evs (jobs.NewManager runner))
      = jobs.CompletedScanners (jobs.Progress j).
Proof.
  intros runner evs.
  eassert (Hexec : jobs.exec evs (jobs.NewManager runner) = Some _)
    by (vm_compute; reflexivity).
  eexists _, _. split; [exact Hexec|].
  split; [reflexivity|].
  split; [vm_compute; lia|].
  split; [reflexivity|].
  split; [reflexivity|].
  split; [by vm_compute|].
  eassert (Hl : (jobs.launches _ 0 ≤ 1)%nat); [|
    destruct (proj1 (single_start_bookkeeping runner evs _ 0%nat _ Hexec eq_refl Hl)
                eq_refl) as (Htot & _ & Hsum & _); split; [exact Htot|exact Hsum]].
  vm_compute; lia.
Defined.

(** C2 as stated fails: a job whose one scanner returns nil, nil is started
    once and runs to completion with no result and one completed scanner. *)
Lemma completed_job_with_fewer_results :
  let runner :=
    scanner.NewRunner (scanner.Register scanner.NewRegistry (probes.nilScanner "quiet")) in
  ∃ σ j,
    jobs.exec
      [jobs.CallCreate probes.example_com ["quiet"] scanner.DefaultOptions 1 2;
       jobs.CallStart "1" 3; jobs.Exec 0 4; jobs.Exec 0 5; jobs.Exec 0 6;
       jobs.Exec 0 7; jobs.Exec 0 8] (jobs.NewManager runner) = Some σ
    ∧ jobs.heap σ !! 0%nat = Some j
    ∧ jobs.launches σ 0 = 1%nat
    ∧ jobs.Status j = jobs.StatusCompleted
    ∧ length (jobs.Results j) = 0%nat
    ∧ jobs.CompletedScanners (jobs.Progress j) = 1
    ∧ jobs.TotalScanners (jobs.Progress j) = 1.
Proof.
  intros runner. eexists _, _.
  split; [vm_compute; reflexivity|].
  split; [reflexivity|]. by vm_compute.
Qed.

(** C3 as stated fails: a job that has run to completion is started again;
    [Start] returns nil and the job is running once more. *)
Lemma Start_restarts_a_completed_job :
  let runner :=
    scanner.NewRunner (scanner.Register scanner.NewRegistry (probes.mockScanner "headers")) in
  ∃ σ j,
    jobs.exec
      [jobs.CallCreate probes.example_com ["headers"] scanner.DefaultOptions 1 2;
       jobs.CallStart "1" 3; jobs.Exec 0 4; jobs.Exec 0 5; jobs.Exec 0 6;
       jobs.Exec 0 7; jobs.Exec 0 8] (jobs.NewManager runner) = Some σ
    ∧ jobs.heap σ !! 0%nat = Some j
    ∧ jobs.Status j = jobs.StatusCompleted
    ∧ (jobs.Start σ "1" 9).2 = None
    ∧ jobs.Status <$> jobs.heap (jobs.Start σ "1" 9).1 !! 0%nat = Some jobs.StatusRunning
    ∧ jobs.launches (jobs.Start σ "1" 9).1 0 = 2%nat.
Proof.
  intros runner. eexists _, _.
  split; [vm_compute; reflexivity|].
  split; [reflexivity|]. by vm_compute.
Qed.

(** ** The deadline of a job *)

Lemma executeContext_ext j j' now :
  jobs.Options j' = jobs.Options j → jobs.Scanners j' = jobs.Scanners j →
  jobs.executeContext j' now = jobs.executeContext j now.
Proof. unfold jobs.executeContext. by intros -> ->. Qed.

(** The options and the scanner list of a job never change. *)
Lemma heap_static_alter (f : jobs.Job → jobs.Job) (p : nat) (l : list jobs.Job)
    (q : nat) (j : jobs.Job) :
  (∀ x, jobs.Options (f x) = jobs.Options x ∧ jobs.Scanners (f x) = jobs.Scanners x) →
  l !! q = Some j →
  ∃ j', alter f p l !! q = Some j'
        ∧ jobs.Options j' = jobs.Options j ∧ jobs.Scanners j' = jobs.Scanners j.
Proof.
  intros Hf Hq. destruct (decide (p = q)) as [->|Hne].
  - rewrite list_lookup_alter_eq, Hq. eexists. split; [done|]. apply Hf.
  - rewrite list_lookup_alter_ne by done. by exists j.
Qed.

Lemma heap_static_step σ ev σ' q j :
  jobs.step σ ev = Some σ' → jobs.heap σ !! q = Some j →
  ∃ j', jobs.heap σ' !! q = Some j'
        ∧ jobs.Options j' = jobs.Options j ∧ jobs.Scanners j' = jobs.Scanners j.
Proof.
  intros Hstep Hq. destruct ev; cbn in Hstep.
  - injection Hstep as <-. cbn. exists j. split; [|done].
    by apply lookup_app_l_Some.
  - injection Hstep as <-. unfold jobs.Start.
    destruct (jobs.jobs (jobs.manager σ) !! jobID); [|by exists j].
    cbn. by apply heap_static_alter.
  - injection Hstep as <-. unfold jobs.Delete.
    destruct (jobs.jobs (jobs.manager σ) !! jobID); by exists j.
  - unfold jobs.executeStep in Hstep.
    destruct (jobs.tasks σ !! i) as [t|]; [|done].
    destruct (jobs.heap σ !! jobs.job t) as [j0|]; [|done].
    destruct (jobs.at_ t) as [|c [|name rest]|c name rest|c name result err rest|v|];
      try done;
      try (injection Hstep as <-; cbn; first [by exists j | by apply heap_static_alter]).
    destruct (scanner.RunOne _ _ _ _ _); [| |done]; injection Hstep as <-; by exists j.
Qed.

Lemma wrap64_small z : - 2 ^ 63 ≤ z < 2 ^ 63 → Go.wrap64 z = z.
Proof. intros Hz. unfold Go.wrap64. rewrite Z.mod_small; lia. Qed.

(** ** RunAll: the admission gate *)

Arguments scanner.count : simpl never.

Lemma count_set (f : scanner.Worker → bool) (ws : list scanner.Worker) (i : nat)
    (w w' : scanner.Worker) :
  ws !! i = Some w →
  (scanner.count f (<[i:=w']> ws) + (if f w then 1 else 0)
   = scanner.count f ws + (if f w' then 1 else 0))%nat.
Proof.
  intros Hi. unfold scanner.count.
  pose proof (count_insert (λ w, f w = true) ws i w w' Hi) as Hc.
  cbn beta in Hc.
  destruct (f w) eqn:E1, (f w') eqn:E2; repeat case_decide; try congruence; lia.
Qed.

Lemma count_add (f : scanner.Worker → bool) (ws : list scanner.Worker) (w : scanner.Worker) :
  scanner.count f (ws ++ [w]) = (scanner.count f ws + if f w then 1 else 0)%nat.
Proof.
  unfold scanner.count. rewrite (count_snoc (λ w, f w = true)).
  destruct (f w) eqn:E; case_decide; congruence.
Qed.

Lemma capacity_max opts : scanner.capacity opts = Z.max 1 (scanner.Concurrency opts).
Proof.
  unfold scanner.capacity.
  destruct (Z.ltb_spec (scanner.Concurrency opts) 1); lia.
Qed.

Section RunAllGate.
Variable r : scanner.Runner.
Variable target : types.Target.
Variable opts : scanner.Options.

Lemma RunAll_exec_snoc evs ev σ0 :
  scanner.exec r target opts (evs ++ [ev]) σ0 =
  match scanner.exec r target opts evs σ0 with
  | Some σ => scanner.step r target opts σ ev
  | None => None
  end.
Proof.
  revert σ0. induction evs as [|e evs IH]; intros σ0; cbn.
  - by destruct (scanner.step r target opts σ0 ev).
  - destruct (scanner.step r target opts σ0 e); [apply IH|done].
Qed.

Lemma gate_start c names : scanner.gate opts (scanner.start c names).
Proof.
  unfold scanner.gate, scanner.start. cbn.
  pose proof (capacity_max opts). repeat split; try done; lia.
Qed.

Lemma gate_step σ ev σ' :
  scanner.gate opts σ → scanner.step r target opts σ ev = Some σ' → scanner.gate opts σ'.
Proof.
  intros (Hsem & Hcap & Hmu). unfold scanner.step.
  destruct (scanner.panic σ); [done|].
  destruct ev as [|i|i|i|e].
  - (* Main *)
    unfold scanner.mainStep.
    destruct (scanner.main σ) as [[|name rest]|snap x rest| |out].
    + by intros [= <-].
    + destruct (scanner.Get (scanner.registry r) name) as [s|err];
        intros [= <-]; [|done].
      unfold scanner.gate. cbn. rewrite !count_add. cbn.
      rewrite !Nat.add_0_r. done.
    + by intros [= <-].
    + destruct (forallb scanner.exited (scanner.workers σ)); [|done]. by intros [= <-].
    + done.
  - (* Send *)
    unfold scanner.sendStep.
    destruct (scanner.workers σ !! i) as [[s p]|] eqn:Hi; [|done].
    destruct p; try done. cbn.
    destruct (Z.ltb_spec (scanner.sem σ) (scanner.capacity opts)); [|done].
    intros [= <-]. unfold scanner.gate, scanner.setWorker. cbn.
    pose proof (count_set scanner.holdsSlot _ _ _ (scanner.mkWorker s scanner.InRun) Hi).
    pose proof (count_set scanner.holdsLock _ _ _ (scanner.mkWorker s scanner.InRun) Hi).
    cbn in *. repeat split; lia.
  - (* Recv *)
    unfold scanner.recvStep.
    destruct (scanner.workers σ !! i) as [[s p]|] eqn:Hi; [|done].
    destruct p; try done. cbn.
    destruct (Go.Err (scanner.ctx σ)) as [e|]; [|done].
    intros [= <-]. unfold scanner.gate, scanner.setWorker. cbn.
    match goal with |- context [<[i:=?w']> _] =>
      pose proof (count_set scanner.holdsSlot _ _ _ w' Hi);
      pose proof (count_set scanner.holdsLock _ _ _ w' Hi) end.
    cbn in *. repeat split; lia.
  - (* Next *)
    unfold scanner.nextStep.
    destruct (scanner.workers σ !! i) as [[s p]|] eqn:Hi; [|done].
    destruct p as [| |slot [x|]|slot snap x|slot|]; cbn; try done.
    + destruct (scanner.Run s (scanner.ctx σ) target opts) as [result [err|]|v|];
        [| | |done]; intros [= <-]; [| |done];
        unfold scanner.gate, scanner.setWorker; cbn;
        match goal with |- context [<[i:=?w']> _] =>
          pose proof (count_set scanner.holdsSlot _ _ _ w' Hi);
          pose proof (count_set scanner.holdsLock _ _ _ w' Hi) end;
        cbn in *; repeat split; lia.
    + destruct (scanner.mu σ) eqn:Hm; [done|]. intros [= <-].
      unfold scanner.gate, scanner.setWorker; cbn;
        match goal with |- context [<[i:=?w']> _] =>
          pose proof (count_set scanner.holdsSlot _ _ _ w' Hi);
          pose proof (count_set scanner.holdsLock _ _ _ w' Hi) end;
        cbn in *; destruct slot; repeat split; lia.
    + destruct (scanner.mu σ) eqn:Hm; [done|]. intros [= <-].
      unfold scanner.gate, scanner.setWorker; cbn;
        match goal with |- context [<[i:=?w']> _] =>
          pose proof (count_set scanner.holdsSlot _ _ _ w' Hi);
          pose proof (count_set scanner.holdsLock _ _ _ w' Hi) end;
        cbn in *; destruct slot; repeat split; lia.
    + intros [= <-].
      pose proof (count_pos (λ w, scanner.holdsLock w = true) _ _ _ Hi eq_refl) as Hpos.
      fold (scanner.count scanner.holdsLock (scanner.workers σ)) in Hpos.
      unfold scanner.gate, scanner.setWorker; cbn;
        match goal with |- context [<[i:=?w']> _] =>
          pose proof (count_set scanner.holdsSlot _ _ _ w' Hi);
          pose proof (count_set scanner.holdsLock _ _ _ w' Hi) end;
        cbn in *; destruct slot, (scanner.mu σ); repeat split; lia.
    + intros [= <-].
      unfold scanner.gate, scanner.setWorker; cbn;
        match goal with |- context [<[i:=?w']> _] =>
          pose proof (count_set scanner.holdsSlot _ _ _ w' Hi);
          pose proof (count_set scanner.holdsLock _ _ _ w' Hi) end;
        cbn in *; destruct slot; repeat split; lia.
  - (* Cancel *)
    unfold scanner.cancelStep. destruct (Go.Err (scanner.ctx σ)); [done|].
    by intros [= <-].
Qed.

Lemma gate_exec evs σ σ' :
  scanner.gate opts σ → scanner.exec r target opts evs σ = Some σ' → scanner.gate opts σ'.
Proof.
  revert σ. induction evs as [|ev evs IH]; intros σ Hg; cbn.
  - by intros [= <-].
  - destruct (scanner.step r target opts σ ev) as [σ1|] eqn:Hs; [|done].
    apply IH. by apply (gate_step σ ev).
Qed.

End RunAllGate.

Lemma count_le (f g : scanner.Worker → bool) (ws : list scanner.Worker) :
  (∀ w, f w = true → g w = true) → (scanner.count f ws ≤ scanner.count g ws)%nat.
Proof.
  intros Hfg. unfold scanner.count. induction ws as [|w ws IH]; [done|].
  rewrite !count_cons. specialize (Hfg w).
  destruct (f w) eqn:Ef, (g w) eqn:Eg; repeat case_decide; try congruence; lia.
Qed.

(** C5: in every state [RunAll] can reach, under any schedule and whatever
    the scanners do, the calls of [scanner.Run] in progress are at most
    [max(1, opts.Concurrency)]: a worker whose [Run] is in progress has a
    token in [sem], the tokens in [sem] are exactly the workers holding a
    slot, and [sem] never holds more than its capacity. *)
Theorem RunAll_concurrency_bound (r : scanner.Runner) (target : types.Target)
    (opts : scanner.Options) (c : Go.Context) (names : list string)
    (evs : list scanner.Event) (σ : scanner.State) :
  scanner.exec r target opts evs (scanner.start c names) = Some σ →
  Z.of_nat (scanner.count scanner.inFlight (scanner.workers σ))
    ≤ Z.max 1 (scanner.Concurrency opts)
  ∧ (∀ w, w ∈ scanner.workers σ → scanner.inFlight w = true → scanner.holdsSlot w = true)
  ∧ Z.of_nat (scanner.count scanner.holdsSlot (scanner.workers σ)) = scanner.sem σ
  ∧ scanner.sem σ ≤ Z.max 1 (scanner.Concurrency opts).
Proof.
  intros Hexec.
  destruct (gate_exec r target opts evs _ _ (gate_start opts c names) Hexec)
    as (Hsem & Hcap & _).
  assert (Hsub : ∀ w, scanner.inFlight w = true → scanner.holdsSlot w = true).
  { intros [s p]. unfold scanner.inFlight, scanner.holdsSlot. cbn. by destruct p. }
  pose proof (count_le _ _ (scanner.workers σ) Hsub).
  rewrite capacity_max in Hcap. repeat split; try lia. intros w _. apply Hsub.
Qed.

Lemma RunAll_concurrency_bound_witness :
  let r := scanner.NewRunner
             (scanner.Register
                (scanner.Register
                   (scanner.Register scanner.NewRegistry (probes.mockScanner "a"))
                   (probes.mockScanner "b"))
                (probes.mockScanner "c")) in
  let opts := scanner.mkOptions 2 (5 * Go.Second) false [] in
  let evs := [scanner.Main; scanner.Main; scanner.Main; scanner.Send 0; scanner.Send 2] in
  ∃ σ,
    scanner.exec r probes.example_com opts evs
      (scanner.start Go.Background ["a"; "b"; "c"]) = Some σ
    ∧ scanner.count scanner.inFlight (scanner.workers σ) = 2%nat
    ∧ scanner.step r probes.example_com opts σ (scanner.Send 1) = None
    ∧ Z.of_nat (scanner.count scanner.inFlight (scanner.workers σ))
        ≤ Z.max 1 (scanner.Concurrency opts)
    ∧ (∀ w, w ∈ scanner.workers σ → scanner.inFlight w = true → scanner.holdsSlot w = true)
    ∧ Z.of_nat (scanner.count scanner.holdsSlot (scanner.workers σ)) = scanner.sem σ
    ∧ scanner.sem σ ≤ Z.max 1 (scanner.Concurrency opts).
Proof.
  intros r opts evs. eexists.
  split; [vm_compute; reflexivity|].
  split; [reflexivity|].
  split; [reflexivity|].
  eapply (RunAll_concurrency_bound r probes.example_com opts Go.Background
            ["a"; "b"; "c"] evs).
  vm_compute; reflexivity.
Defined.

(** ** RunAll: never more entries than names *)

Lemma exited_not_owing ws :
  forallb scanner.exited ws = true → scanner.count scanner.owes ws = 0%nat.
Proof.
  unfold scanner.count. induction ws as [|[s p] ws IH]; [done|].
  intros H. cbn [forallb] in H. apply andb_prop in H as [Hp Hws].
  rewrite count_cons, (IH Hws).
  unfold scanner.exited in Hp. cbn in Hp. by destruct p.
Qed.

Lemma exited_lookup ws i w :
  forallb scanner.exited ws = true → ws !! i = Some w → scanner.pc w = scanner.Exited.
Proof.
  revert i. induction ws as [|x ws IH]; intros [|i]; cbn; try done.
  - intros [Hp _]%andb_prop [= <-]. unfold scanner.exited in Hp. by destruct (scanner.pc x).
  - intros [_ Hws]%andb_prop. by apply IH.
Qed.

Section RunAllAtMost.
Variable r : scanner.Runner.
Variable target : types.Target.
Variable opts : scanner.Options.

Lemma atMost_start c names : scanner.atMost (length names) (scanner.start c names).
Proof.
  unfold scanner.atMost, scanner.start, scanner.count. cbn.
  split; [lia|]. split; [done|]. split; [by intros i w|done].
Qed.

(** A step of worker [i] that does not write [results]. *)
Lemma atMost_worker_step n σ i s p p' sem' mu' :
  scanner.atMost n σ →
  scanner.workers σ !! i = Some (scanner.mkWorker s p) →
  p ≠ scanner.Exited →
  (scanner.owes (scanner.mkWorker s p') = true → scanner.owes (scanner.mkWorker s p) = true) →
  (∀ slot snap x, p' = scanner.InLock slot snap x → snap = scanner.results σ) →
  scanner.atMost n
    (scanner.mkState (scanner.main σ)
       (<[i:=scanner.mkWorker s p']> (scanner.workers σ))
       (scanner.results σ) sem' mu' (scanner.ctx σ) (scanner.panic σ)).
Proof.
  intros (Hlen & Hmain & Hws & Hfin) Hi Hne Howes Hsnap. cbn zeta in *.
  pose proof (count_set scanner.owes _ _ _ (scanner.mkWorker s p') Hi) as Hc.
  assert (Hmono : (scanner.count scanner.owes
                     (<[i:=scanner.mkWorker s p']> (scanner.workers σ))
                   ≤ scanner.count scanner.owes (scanner.workers σ))%nat).
  { destruct (scanner.owes (scanner.mkWorker s p')); [rewrite Howes in Hc by done|];
      destruct (scanner.owes (scanner.mkWorker s p)); lia. }
  unfold scanner.atMost. cbn. split; [lia|]. split; [|split].
  - intros snap x rest Hm. specialize (Hmain _ _ _ Hm). lia.
  - intros i' w' slot snap x Hi' Hpc. destruct (decide (i = i')) as [<-|Hii].
    + rewrite list_lookup_insert_eq in Hi' by (by apply lookup_lt_Some in Hi).
      injection Hi' as <-. cbn in Hpc. rewrite (Hsnap _ _ _ Hpc). lia.
    + rewrite list_lookup_insert_ne in Hi' by done.
      specialize (Hws _ _ _ _ _ Hi' Hpc). lia.
  - intros out Hm. destruct (Hfin _ Hm) as [_ Hall].
    pose proof (exited_lookup _ _ _ Hall Hi). done.
Qed.

Lemma atMost_step n σ ev σ' :
  scanner.atMost n σ → scanner.step r target opts σ ev = Some σ' → scanner.atMost n σ'.
Proof.
  intros Hat. pose proof Hat as (Hlen & Hmain & Hws & Hfin). cbn zeta in *.
  unfold scanner.step. destruct (scanner.panic σ) eqn:Hp; [done|].
  destruct ev as [|i|i|i|e].
  - (* Main *)
    unfold scanner.mainStep.
    destruct (scanner.main σ) as [[|name rest]|snap x rest| |out] eqn:Hm.
    + intros [= <-]. unfold scanner.atMost. cbn in *.
      split; [lia|]. split; [done|]. split; [|done].
      intros i w slot snap x Hi Hpc. specialize (Hws _ _ _ _ _ Hi Hpc). lia.
    + destruct (scanner.Get (scanner.registry r) name) as [s|err]; intros [= <-];
        unfold scanner.atMost; cbn in *; rewrite ?count_add; cbn.
      * split; [lia|]. split; [done|]. split; [|done].
        intros i w slot snap x Hi Hpc.
        apply lookup_app_Some in Hi as [Hi|[_ Hi]].
        -- specialize (Hws _ _ _ _ _ Hi Hpc). lia.
        -- destruct (i - length (scanner.workers σ))%nat; [|done].
           injection Hi as <-. done.
      * split; [lia|]. split; [|split; [|done]].
        -- intros snap x rest' [= <- _ <-]. lia.
        -- intros i w slot snap x Hi Hpc. specialize (Hws _ _ _ _ _ Hi Hpc). lia.
    + intros [= <-]. specialize (Hmain _ _ _ eq_refl).
      unfold scanner.atMost. cbn in *. rewrite length_app. cbn.
      split; [lia|]. split; [done|]. split; [|done].
      intros i w slot snap' x' Hi Hpc. specialize (Hws _ _ _ _ _ Hi Hpc). lia.
    + destruct (forallb scanner.exited (scanner.workers σ)) eqn:Hall; [|done].
      intros [= <-]. unfold scanner.atMost. cbn in *.
      split; [lia|]. split; [done|]. split; [|by intros out [= <-]].
      intros i w slot snap x Hi Hpc. specialize (Hws _ _ _ _ _ Hi Hpc). lia.
    + done.
  - (* Send *)
    unfold scanner.sendStep.
    destruct (scanner.workers σ !! i) as [[s p]|] eqn:Hi; [|done].
    destruct p; try done. cbn.
    destruct (scanner.sem σ <? scanner.capacity opts); [|done].
    intros [= <-]. by apply (atMost_worker_step n σ i s scanner.AtSelect).
  - (* Recv *)
    unfold scanner.recvStep.
    destruct (scanner.workers σ !! i) as [[s p]|] eqn:Hi; [|done].
    destruct p; try done. cbn.
    destruct (Go.Err (scanner.ctx σ)) as [e|]; [|done].
    intros [= <-]. by apply (atMost_worker_step n σ i s scanner.AtSelect).
  - (* Next *)
    unfold scanner.nextStep.
    destruct (scanner.workers σ !! i) as [[s p]|] eqn:Hi; [|done].
    destruct p as [| |slot [x|]|slot snap x|slot|]; cbn; try done.
    + destruct (scanner.Run s (scanner.ctx σ) target opts) as [result [err|]|v|] eqn:Hrun;
        [| | |done]; intros [= <-].
      * by apply (atMost_worker_step n σ i s scanner.InRun).
      * by apply (atMost_worker_step n σ i s scanner.InRun).
      * done.
    + destruct (scanner.mu σ); [done|]. intros [= <-].
      apply (atMost_worker_step n σ i s (scanner.AtLock slot (Some x))); try done.
      by intros ? ? ? [= _ <- _].
    + destruct (scanner.mu σ); [done|]. intros [= <-].
      by apply (atMost_worker_step n σ i s (scanner.AtLock slot None)).
    + intros [= <-].
      pose proof (Hws _ _ _ _ _ Hi eq_refl) as Hsnap. cbn in Hsnap.
      pose proof (count_set scanner.owes _ _ _
                    (scanner.mkWorker s (scanner.AtDefer slot)) Hi) as Hc.
      cbn in Hc. unfold scanner.atMost, scanner.setWorker. cbn. rewrite length_app. cbn.
      split; [lia|]. split; [|split].
      * intros snap' x' rest Hm. specialize (Hmain _ _ _ Hm). lia.
      * intros i' w' slot' snap' x' Hi' Hpc. destruct (decide (i = i')) as [<-|Hii].
        -- rewrite list_lookup_insert_eq in Hi' by (by apply lookup_lt_Some in Hi).
           injection Hi' as <-. done.
        -- rewrite list_lookup_insert_ne in Hi' by done.
           specialize (Hws _ _ _ _ _ Hi' Hpc). lia.
      * intros out Hm. destruct (Hfin _ Hm) as [_ Hall].
        pose proof (exited_lookup _ _ _ Hall Hi). done.
    + intros [= <-].
      by apply (atMost_worker_step n σ i s (scanner.AtDefer slot)).
  - (* Cancel *)
    unfold scanner.cancelStep. destruct (Go.Err (scanner.ctx σ)); [done|].
    by intros [= <-].
Qed.

Lemma atMost_exec n evs σ σ' :
  scanner.atMost n σ → scanner.exec r target opts evs σ = Some σ' → scanner.atMost n σ'.
Proof.
  revert σ. induction evs as [|ev evs IH]; intros σ Hat; cbn.
  - by intros [= <-].
  - destruct (scanner.step r target opts σ ev) as [σ1|] eqn:Hs; [|done].
    apply IH. by apply (atMost_step n σ ev).
Qed.

End RunAllAtMost.

(** ** RunAll: one entry per name *)

Lemma forallb_known_unknown_first r names :
  forallb (scanner.known r) names = true → scanner.unknown_first r names = true.
Proof.
  destruct names as [|name rest]; [done|]. cbn.
  intros [-> ?]%andb_prop. done.
Qed.

Lemma known_Get r name :
  scanner.known r name = true ↔ ∃ s, scanner.scanners (scanner.registry r) !! name = Some s.
Proof. unfold scanner.known. by rewrite bool_decide_eq_true. Qed.

Section RunAllExact.
Variable r : scanner.Runner.
Variable target : types.Target.
Variable opts : scanner.Options.
Hypothesis Hnil : scanner.never_nil_nil (scanner.registry r).
Hypothesis Hpanic : scanner.never_panics (scanner.registry r).

Lemma exact_start c names :
  scanner.unknown_first r names = true →
  scanner.exact r (length names) (scanner.start c names).
Proof.
  intros Hu. unfold scanner.exact, scanner.start. cbn.
  split; [unfold scanner.count; cbn; lia|]. split; [by intros i w|]. split; [done|by left].
Qed.

(** A step of worker [i] that does not write [results] and does not take
    the lock. *)
Lemma exact_worker_step n σ i s p p' sem' mu' :
  scanner.exact r n σ →
  scanner.workers σ !! i = Some (scanner.mkWorker s p) →
  p ≠ scanner.Exited →
  scanner.owes (scanner.mkWorker s p) = scanner.owes (scanner.mkWorker s p') →
  (∀ slot, p' ≠ scanner.AtLock slot None) →
  (∀ slot snap x, p' = scanner.InLock slot snap x → snap = scanner.results σ) →
  scanner.exact r n
    (scanner.mkState (scanner.main σ)
       (<[i:=scanner.mkWorker s p']> (scanner.workers σ))
       (scanner.results σ) sem' mu' (scanner.ctx σ) (scanner.panic σ)).
Proof.
  intros (Hlen & Hws & Hp & Hmain) Hi Hne Howes Hnone Hsnap.
  split; [|split; [|split]]; cbn.
  - pose proof (count_set scanner.owes _ _ _ (scanner.mkWorker s p') Hi) as Hc.
    rewrite Howes in Hc. destruct (scanner.owes (scanner.mkWorker s p')); lia.
  - intros i' w' Hi'. destruct (decide (i = i')) as [<-|Hii].
    + rewrite list_lookup_insert_eq in Hi' by (by apply lookup_lt_Some in Hi).
      injection Hi' as <-. cbn. destruct (Hws _ _ Hi) as (Hreg & _ & _). done.
    + rewrite list_lookup_insert_ne in Hi' by done. by apply (Hws i').
  - done.
  - destruct (scanner.main σ) as [rest|snap x rest| |out].
    + destruct Hmain as [[Hw _]|Hk]; [by rewrite Hw in Hi|by right].
    + destruct Hmain as [Hw _]. by rewrite Hw in Hi.
    + done.
    + destruct Hmain as [_ Hex]. pose proof (exited_lookup _ _ _ Hex Hi). done.
Qed.

Lemma exact_step n σ ev σ' :
  scanner.gate opts σ → scanner.exact r n σ →
  scanner.step r target opts σ ev = Some σ' → scanner.exact r n σ'.
Proof.
  intros (_ & _ & Hmu) Hex. pose proof Hex as (Hlen & Hws & Hp & Hmain).
  unfold scanner.step. rewrite Hp.
  destruct ev as [|i|i|i|e].
  - (* Main *)
    unfold scanner.mainStep.
    destruct (scanner.main σ) as [[|name rest]|snap x rest| |out] eqn:Hm;
      rewrite ?Hm in *.
    + intros [= <-]. split; [cbn in *; lia|]. split; [exact Hws|]. by split.
    + unfold scanner.Get.
      destruct (scanner.scanners (scanner.registry r) !! name) as [s|] eqn:Hs;
        intros [= <-].
      * split; [|split; [|split]]; cbn.
        -- rewrite count_add. cbn in *. lia.
        -- intros i w Hi. apply lookup_app_Some in Hi as [Hi|[_ Hi]]; [by apply (Hws i)|].
           destruct (i - length (scanner.workers σ))%nat; [|done].
           injection Hi as <-. cbn. split; [by exists name|]. by split.
        -- done.
        -- right. destruct Hmain as [[_ Hu]|Hk]; cbn in *.
           ++ assert (Hkn : scanner.known r name = true) by (apply known_Get; eauto).
              by rewrite Hkn in Hu.
           ++ by apply andb_prop in Hk as [_ ?].
      * assert (Hkn : scanner.known r name = false).
        { apply not_true_is_false. rewrite known_Get. intros [s Hs']. congruence. }
        split; [|split; [|split]]; cbn; [cbn in Hlen; lia|done|done|].
        destruct Hmain as [[Hw Hu]|Hk]; cbn in *.
        -- rewrite Hkn in Hu. done.
        -- by rewrite Hkn in Hk.
    + intros [= <-]. destruct Hmain as (Hw & -> & Hu).
      split; [|split; [|split]]; cbn.
      * rewrite length_app. cbn in *. lia.
      * rewrite Hw. by intros i w.
      * done.
      * by left.
    + destruct (forallb scanner.exited (scanner.workers σ)) eqn:Hall; [|done].
      intros [= <-]. split; [cbn in *; lia|]. split; [exact Hws|]. by split.
    + done.
  - (* Send *)
    unfold scanner.sendStep.
    destruct (scanner.workers σ !! i) as [[s p]|] eqn:Hi; [|done].
    destruct p; try done. cbn.
    destruct (scanner.sem σ <? scanner.capacity opts); [|done].
    intros [= <-]. by apply (exact_worker_step n σ i s scanner.AtSelect).
  - (* Recv *)
    unfold scanner.recvStep.
    destruct (scanner.workers σ !! i) as [[s p]|] eqn:Hi; [|done].
    destruct p; try done. cbn.
    destruct (Go.Err (scanner.ctx σ)) as [e|]; [|done].
    intros [= <-]. by apply (exact_worker_step n σ i s scanner.AtSelect).
  - (* Next *)
    unfold scanner.nextStep.
    destruct (scanner.workers σ !! i) as [[s p]|] eqn:Hi; [|done].
    destruct (Hws _ _ Hi) as ((name & Hreg) & Hnone & Hsnap). cbn in Hnone, Hsnap.
    destruct p as [| |slot [x|]|slot snap x|slot|]; cbn; try done.
    + destruct (scanner.Run s (scanner.ctx σ) target opts) as [result [err|]|v|] eqn:Hrun;
        [| | |done].
      * intros [= <-]. by apply (exact_worker_step n σ i s scanner.InRun).
      * intros [= <-]. apply (exact_worker_step n σ i s scanner.InRun); try done.
        intros slot [= _ ->]. by apply (Hnil _ _ _ _ _ Hreg Hrun).
      * by destruct (Hpanic _ _ _ _ _ _ Hreg Hrun).
    + destruct (scanner.mu σ); [done|]. intros [= <-].
      apply (exact_worker_step n σ i s (scanner.AtLock slot (Some x))); try done.
      by intros ? ? ? [= _ <- _].
    + by destruct (Hnone slot).
    + intros [= <-]. specialize (Hsnap _ _ _ eq_refl) as ->.
      assert (Hone : scanner.count scanner.holdsLock (scanner.workers σ) = 1%nat).
      { pose proof (count_pos (λ w, scanner.holdsLock w = true) _ _ _ Hi eq_refl) as Hpos.
        fold (scanner.count scanner.holdsLock (scanner.workers σ)) in Hpos.
        destruct (scanner.mu σ); lia. }
      unfold scanner.setWorker. split; [|split; [|split]]; cbn.
      * pose proof (count_set scanner.owes _ _ _
                      (scanner.mkWorker s (scanner.AtDefer slot)) Hi) as Hc.
        cbn in Hc. rewrite length_app. cbn. lia.
      * intros i' w' Hi'. destruct (decide (i = i')) as [<-|Hii].
        -- rewrite list_lookup_insert_eq in Hi' by (by apply lookup_lt_Some in Hi).
           injection Hi' as <-. cbn. split; [by exists name|]. by split.
        -- rewrite list_lookup_insert_ne in Hi' by done.
           destruct (Hws _ _ Hi') as (Hr' & Hn' & Hs'). split; [done|]. split; [done|].
           intros slot' snap' x' Hpc'.
           pose proof (count_two (λ w, scanner.holdsLock w = true) _ _ _ _ _
                         Hi Hi' Hii eq_refl) as H2.
           unfold scanner.holdsLock at 1 in H2. rewrite Hpc' in H2.
           specialize (H2 eq_refl).
           fold (scanner.count scanner.holdsLock (scanner.workers σ)) in H2. lia.
      * done.
      * destruct (scanner.main σ) as [rest|snap x0 rest| |out].
        -- destruct Hmain as [[Hw _]|Hk]; [by rewrite Hw in Hi|by right].
        -- destruct Hmain as [Hw _]. by rewrite Hw in Hi.
        -- done.
        -- destruct Hmain as [_ Hall]. pose proof (exited_lookup _ _ _ Hall Hi). done.
    + intros [= <-]. by apply (exact_worker_step n σ i s (scanner.AtDefer slot)).
  - (* Cancel *)
    unfold scanner.cancelStep. destruct (Go.Err (scanner.ctx σ)); [done|].
    by intros [= <-].
Qed.

End RunAllExact.

(** ** RunAll: it returns *)

Lemma sum_set (f : scanner.Worker → nat) (ws : list scanner.Worker) (i : nat)
    (w w' : scanner.Worker) :
  ws !! i = Some w →
  (sum_list_with f (<[i:=w']> ws) + f w = sum_list_with f ws + f w')%nat.
Proof.
  revert i. induction ws as [|z ws IH]; intros [|i] Hi; try done.
  - injection Hi as ->. change (<[0%nat:=w']> (w :: ws)) with (w' :: ws). cbn. lia.
  - change (<[S i:=w']> (z :: ws)) with (z :: <[i:=w']> ws). cbn.
    specialize (IH i Hi). lia.
Qed.


Section RunAllProgress.
Variable r : scanner.Runner.
Variable target : types.Target.
Variable opts : scanner.Options.

Lemma RunAll_exec_app evs evs' σ :
  scanner.exec r target opts (evs ++ evs') σ =
  match scanner.exec r target opts evs σ with
  | Some σ' => scanner.exec r target opts evs' σ'
  | None => None
  end.
Proof.
  revert σ. induction evs as [|e evs IH]; intros σ; cbn; [done|].
  destruct (scanner.step r target opts σ e); [apply IH|done].
Qed.

(** Every step that does not end in a panic uses up some of the weight. *)
Lemma weight_step σ ev σ' :
  scanner.step r target opts σ ev = Some σ' → scanner.panic σ' = None →
  (scanner.weight σ' < scanner.weight σ)%nat.
Proof.
  unfold scanner.step. destruct (scanner.panic σ); [done|].
  destruct ev as [|i|i|i|e].
  - unfold scanner.mainStep.
    destruct (scanner.main σ) as [[|name rest]|snap x rest| |out] eqn:Hm;
      unfold scanner.weight; rewrite Hm.
    + intros [= <-] _. cbn. lia.
    + destruct (scanner.Get (scanner.registry r) name); intros [= <-] _; cbn.
      * rewrite sum_list_with_app. cbn. lia.
      * lia.
    + intros [= <-] _. cbn. lia.
    + destruct (forallb scanner.exited (scanner.workers σ)); [|done].
      intros [= <-] _. cbn. lia.
    + done.
  - unfold scanner.sendStep.
    destruct (scanner.workers σ !! i) as [[s p]|] eqn:Hi; [|done].
    destruct p; try done. cbn.
    destruct (scanner.sem σ <? scanner.capacity opts); [|done].
    intros [= <-] _. unfold scanner.weight, scanner.setWorker. cbn.
    pose proof (sum_set scanner.weightW _ _ _ (scanner.mkWorker s scanner.InRun) Hi) as Hs.
    cbn in Hs. lia.
  - unfold scanner.recvStep.
    destruct (scanner.workers σ !! i) as [[s p]|] eqn:Hi; [|done].
    destruct p; try done. cbn.
    destruct (Go.Err (scanner.ctx σ)) as [e|]; [|done].
    intros [= <-] _. unfold scanner.weight, scanner.setWorker. cbn.
    match goal with |- context [<[i:=?w']> _] =>
      pose proof (sum_set scanner.weightW _ _ _ w' Hi) as Hs end.
    cbn in Hs. lia.
  - unfold scanner.nextStep.
    destruct (scanner.workers σ !! i) as [[s p]|] eqn:Hi; [|done].
    destruct p as [| |slot [x|]|slot snap x|slot|]; cbn; try done.
    + destruct (scanner.Run s (scanner.ctx σ) target opts) as [result [err|]|v|];
        [| | |done]; intros [= <-]; [| |done]; intros _;
        unfold scanner.weight, scanner.setWorker; cbn;
        match goal with |- context [<[i:=?w']> _] =>
          pose proof (sum_set scanner.weightW _ _ _ w' Hi) as Hs end;
        cbn in Hs; lia.
    + destruct (scanner.mu σ); [done|]. intros [= <-] _.
      unfold scanner.weight, scanner.setWorker; cbn;
        match goal with |- context [<[i:=?w']> _] =>
          pose proof (sum_set scanner.weightW _ _ _ w' Hi) as Hs end;
        cbn in Hs; lia.
    + destruct (scanner.mu σ); [done|]. intros [= <-] _.
      unfold scanner.weight, scanner.setWorker; cbn;
        match goal with |- context [<[i:=?w']> _] =>
          pose proof (sum_set scanner.weightW _ _ _ w' Hi) as Hs end;
        cbn in Hs; lia.
    + intros [= <-] _.
      unfold scanner.weight, scanner.setWorker; cbn;
        match goal with |- context [<[i:=?w']> _] =>
          pose proof (sum_set scanner.weightW _ _ _ w' Hi) as Hs end;
        cbn in Hs; lia.
    + intros [= <-] _.
      unfold scanner.weight, scanner.setWorker; cbn;
        match goal with |- context [<[i:=?w']> _] =>
          pose proof (sum_set scanner.weightW _ _ _ w' Hi) as Hs end;
        cbn in Hs; lia.
  - unfold scanner.cancelStep. destruct (Go.Err (scanner.ctx σ)) eqn:He; [done|].
    intros [= <-] _. unfold scanner.weight. cbn. rewrite He. lia.
Qed.




End RunAllProgress.

Section RunAllReturns.
Variable r : scanner.Runner.
Variable target : types.Target.
Variable opts : scanner.Options.
Hypothesis Hnil : scanner.never_nil_nil (scanner.registry r).
Hypothesis Hpanic : scanner.never_panics (scanner.registry r).

Lemma exact_exec n evs σ σ' :
  scanner.gate opts σ → scanner.exact r n σ →
  scanner.exec r target opts evs σ = Some σ' →
  scanner.gate opts σ' ∧ scanner.exact r n σ'
  ∧ (length evs + scanner.weight σ' ≤ scanner.weight σ)%nat.
Proof.
  revert σ. induction evs as [|ev evs IH]; intros σ Hg Hex; cbn.
  - intros [= <-]. split; [done|]. split; [done|]. cbn. lia.
  - destruct (scanner.step r target opts σ ev) as [σ1|] eqn:Hs; [|done]. intros Hexec.
    pose proof (gate_step r target opts _ _ _ Hg Hs) as Hg1.
    pose proof (exact_step r target opts Hnil Hpanic n _ _ _ Hg Hex Hs) as Hex1.
    destruct (IH σ1 Hg1 Hex1 Hexec) as (? & ? & ?).
    pose proof Hex1 as (_ & _ & Hp1 & _).
    pose proof (weight_step r target opts _ _ _ Hs Hp1).
    split; [done|]. split; [done|]. cbn. lia.
Qed.



End RunAllReturns.

(** ** RunAll: where the entries come from *)

Lemma omap_insert_same {A B} (f : A → option B) (l : list A) (i : nat) (x y : A) :
  l !! i = Some x → f y = f x → omap f (<[i:=y]> l) = omap f l.
Proof.
  revert i. induction l as [|z l IH]; intros [|i] Hi Hf; try done.
  - injection Hi as ->. change (<[0%nat:=y]> (x :: l)) with (y :: l). cbn. by rewrite Hf.
  - change (<[S i:=y]> (z :: l)) with (z :: <[i:=y]> l). cbn. by rewrite (IH i).
Qed.

Lemma omap_insert_new {A B} (f : A → option B) (l : list A) (i : nat) (x y : A) (b : B) :
  l !! i = Some x → f x = None → f y = Some b →
  ∃ l1 l2, omap f l = l1 ++ l2 ∧ omap f (<[i:=y]> l) = l1 ++ b :: l2.
Proof.
  revert i. induction l as [|z l IH]; intros [|i] Hi Hx Hy; try done.
  - injection Hi as ->. change (<[0%nat:=y]> (x :: l)) with (y :: l). cbn.
    rewrite Hx, Hy. by exists [], (omap f l).
  - change (<[S i:=y]> (z :: l)) with (z :: <[i:=y]> l). cbn.
    destruct (IH i Hi Hx Hy) as (l1 & l2 & H1 & H2). rewrite H1, H2.
    destruct (f z) as [bz|]; [by exists (bz :: l1), l2|by exists l1, l2].
Qed.

Lemma Forall2_insert_middle {A B} (R : A → B → Prop) (l1 l2 : list A) (a : A) (b : B)
    (k : list B) :
  Forall2 R (l1 ++ l2) k → R a b →
  ∃ k', Forall2 R (l1 ++ a :: l2) k' ∧ k' ≡ₚ k ++ [b].
Proof.
  intros (k1 & k2 & H1 & H2 & ->)%Forall2_app_inv_l Hab.
  exists (k1 ++ b :: k2). split.
  - apply Forall2_app; [done|]. by constructor.
  - rewrite <- app_assoc. apply Permutation_app_head.
    apply Permutation_cons_append.
Qed.

Lemma filter_snoc_True {A} (P : A → Prop) `{∀ x, Decision (P x)} (l : list A) (x : A) :
  P x → filter P (l ++ [x]) = filter P l ++ [x].
Proof. intros Hx. by rewrite filter_app, (filter_cons_True _ _ _ Hx). Qed.

Lemma filter_snoc_False {A} (P : A → Prop) `{∀ x, Decision (P x)} (l : list A) (x : A) :
  ¬ P x → filter P (l ++ [x]) = filter P l.
Proof.
  intros Hx. by rewrite filter_app, (filter_cons_False _ _ _ Hx), filter_nil, app_nil_r.
Qed.

Lemma filter_all {A} (P : A → Prop) `{∀ x, Decision (P x)} (l : list A) :
  Forall P l → filter P l = l.
Proof.
  induction 1 as [|x l Hx _ IH]; [done|]. by rewrite filter_cons_True, IH.
Qed.

Lemma fmap_wscanner_insert (ws : list scanner.Worker) (i : nat) (w : scanner.Worker)
    (p : scanner.workerPC) :
  ws !! i = Some w →
  scanner.wscanner <$> <[i := scanner.mkWorker (scanner.wscanner w) p]> ws
  = scanner.wscanner <$> ws.
Proof.
  intros Hi. rewrite list_fmap_insert. cbn. apply list_insert_id.
  by rewrite list_lookup_fmap, Hi.
Qed.

Lemma Get_known r name s :
  scanner.Get (scanner.registry r) name = inl s → scanner.known r name = true.
Proof.
  unfold scanner.Get. intros Hget. apply known_Get.
  destruct (scanner.scanners (scanner.registry r) !! name) as [s'|]; [by exists s'|done].
Qed.

Lemma Get_unknown r target name err :
  scanner.Get (scanner.registry r) name = inr err →
  scanner.known r name = false
  ∧ types.failure name target (Go.Error err) = scanner.missing target name.
Proof.
  unfold scanner.Get, scanner.known. intros Hget.
  destruct (scanner.scanners (scanner.registry r) !! name) as [s'|] eqn:Hs; [done|].
  injection Hget as <-. split; [|done].
  apply bool_decide_eq_false. by intros [? ?].
Qed.

Lemma unknown_Get_missing r name :
  scanner.known r name = false →
  scanner.Get (scanner.registry r) name
  = inr (Go.errorString ("scanner " +:+ Go.Quote name +:+ " not found")).
Proof.
  unfold scanner.known, scanner.Get. intros Hk. apply bool_decide_eq_false in Hk.
  destruct (scanner.scanners (scanner.registry r) !! name); [|done].
  destruct Hk. by eexists.
Qed.

Section RunAllStaff.
Variable r : scanner.Runner.
Variable target : types.Target.
Variable opts : scanner.Options.





End RunAllStaff.

Section RunAllHistory.
Variable r : scanner.Runner.
Variable target : types.Target.
Variable opts : scanner.Options.
Variable c : Go.Context.
Variable names : list string.

Lemma ctxAfter_snoc evs ev :
  scanner.ctxAfter c (evs ++ [ev]) = scanner.ctxStep (scanner.ctxAfter c evs) ev.
Proof. unfold scanner.ctxAfter. by rewrite foldl_app. Qed.

Lemma fromScanner_mono evs evs' s x :
  evs `prefix_of` evs' →
  scanner.fromScanner target opts c evs s x → scanner.fromScanner target opts c evs' s x.
Proof.
  intros Hp (evs0 & i & [[H0 H]|[H0 H]]); exists evs0, i; [left|right];
    (split; [by etrans|done]).
Qed.

Lemma sourced_mono evs evs' x :
  evs `prefix_of` evs' →
  scanner.sourced r target opts c evs names x →
  scanner.sourced r target opts c evs' names x.
Proof.
  intros Hp (name & Hin & Hx). exists name. split; [done|].
  unfold scanner.entryOf in *.
  destruct (scanner.Get (scanner.registry r) name); [|done].
  by apply (fromScanner_mono evs).
Qed.

Lemma sourcing_mono evs evs' σ :
  evs `prefix_of` evs' →
  scanner.sourcing r target opts c names evs σ →
  scanner.sourcing r target opts c names evs' σ.
Proof.
  intros Hp (Hres & Hmain & Hws).
  assert (Hall : ∀ l, Forall (scanner.sourced r target opts c evs names) l →
                      Forall (scanner.sourced r target opts c evs' names) l).
  { intros l Hl. eapply Forall_impl; [exact Hl|]. intros x. by apply sourced_mono. }
  split; [by apply Hall|]. split.
  - destruct (scanner.main σ) as [rest|snap x rest| |out]; try done.
    + destruct Hmain as (? & ? & ?). split; [by apply Hall|].
      split; [by apply (sourced_mono evs)|done].
    + by apply Hall.
  - intros i w Hi. destruct (Hws _ _ Hi) as [Hname Hpend]. split; [done|].
    destruct (scanner.pc w) as [| |slot [x|]|slot snap x|slot|]; try done.
    + by apply (fromScanner_mono evs).
    + destruct Hpend as [? ?]. split; [by apply Hall|by apply (fromScanner_mono evs)].
Qed.

Lemma provenance_start : scanner.provenance r target opts c names [] (scanner.start c names).
Proof.
  split; [done|]. split; [by apply Forall_nil|]. split; [cbn; by intros x Hx|].
  intros i w Hi. cbn in Hi. by rewrite lookup_nil in Hi.
Qed.

Lemma sourcing_worker_step evs σ i w p' results' sem' mu' ctx' :
  scanner.sourcing r target opts c names evs σ →
  scanner.workers σ !! i = Some w →
  Forall (scanner.sourced r target opts c evs names) results' →
  scanner.pending (scanner.fromScanner target opts c evs (scanner.wscanner w))
    (scanner.sourced r target opts c evs names) p' →
  scanner.sourcing r target opts c names evs
    (scanner.mkState (scanner.main σ) (scanner.setWorker σ i w p') results' sem' mu'
       ctx' (scanner.panic σ)).
Proof.
  intros (Hres & Hmain & Hws) Hi Hres' Hp'.
  split; [done|]. split.
  - cbn. destruct (scanner.main σ) as [rest|snap x rest| |out]; try done.
  - cbn. unfold scanner.setWorker. intros k wk Hk.
    destruct (decide (k = i)) as [->|Hne].
    + rewrite list_lookup_insert_eq in Hk by (by eapply lookup_lt_Some).
      injection Hk as <-. cbn. split; [|done]. exact (proj1 (Hws _ _ Hi)).
    + rewrite list_lookup_insert_ne in Hk by done. by apply (Hws k).
Qed.

(** An entry a worker makes is an entry for the name it was started for. *)
Lemma worker_entry_sourced evs σ i w x :
  scanner.sourcing r target opts c names evs σ →
  scanner.workers σ !! i = Some w →
  scanner.fromScanner target opts c evs (scanner.wscanner w) x →
  scanner.sourced r target opts c evs names x.
Proof.
  intros (_ & _ & Hws) Hi Hx. destruct (Hws _ _ Hi) as [(name & Hin & Hget) _].
  exists name. split; [done|]. unfold scanner.entryOf. by rewrite Hget.
Qed.

Lemma ctx_step σ ev σ' :
  scanner.step r target opts σ ev = Some σ' →
  scanner.ctx σ' = scanner.ctxStep (scanner.ctx σ) ev.
Proof.
  unfold scanner.step. destruct (scanner.panic σ); [done|].
  destruct ev as [|i|i|i|e]; cbn [scanner.ctxStep].
  - unfold scanner.mainStep.
    destruct (scanner.main σ) as [[|name rest]|snap x rest| |out]; try by intros [= <-].
    + destruct (scanner.Get (scanner.registry r) name); by intros [= <-].
    + destruct (forallb scanner.exited (scanner.workers σ)); by intros [= <-].
  - unfold scanner.sendStep.
    destruct (scanner.workers σ !! i) as [w|]; [|done].
    destruct (scanner.pc w); try done.
    destruct (scanner.sem σ <? scanner.capacity opts); by intros [= <-].
  - unfold scanner.recvStep.
    destruct (scanner.workers σ !! i) as [w|]; [|done].
    destruct (scanner.pc w); try done.
    destruct (Go.Err (scanner.ctx σ)); by intros [= <-].
  - unfold scanner.nextStep.
    destruct (scanner.workers σ !! i) as [w|]; [|done].
    destruct (scanner.pc w) as [| |slot [x|]|slot snap x|slot|]; try done;
      try (by intros [= <-]).
    + destruct (scanner.Run _ _ _ _) as [result [err|]|v|]; by intros [= <-].
    + destruct (scanner.mu σ); by intros [= <-].
    + destruct (scanner.mu σ); by intros [= <-].
  - unfold scanner.cancelStep. destruct (Go.Err (scanner.ctx σ)); by intros [= <-].
Qed.

Lemma sourcing_step evs σ ev σ' :
  scanner.provenance r target opts c names evs σ →
  scanner.step r target opts σ ev = Some σ' →
  scanner.sourcing r target opts c names (evs ++ [ev]) σ'.
Proof.
  intros [Hctx Hold].
  assert (Hpre : evs `prefix_of` evs ++ [ev]) by (by exists [ev]).
  pose proof (sourcing_mono _ _ _ Hpre Hold) as Hinv.
  pose proof Hinv as (Hres & Hmain & Hws).
  assert (Hrecv : ∀ i s x,
    ev = scanner.Recv i →
    (∃ e, Go.Err (scanner.ctx σ) = Some e
          ∧ x = types.failure (scanner.Name s) target (Go.Error e)) →
    scanner.fromScanner target opts c (evs ++ [ev]) s x).
  { intros i s x -> H. exists evs, i. left. split; [done|]. by rewrite <- Hctx. }
  assert (Hnext : ∀ i s x,
    ev = scanner.Next i →
    (∃ result e, scanner.Run s (scanner.ctx σ) target opts
                 = scanner.Returned result (Some e)
                 ∧ x = types.failure (scanner.Name s) target (Go.Error e))
    ∨ scanner.Run s (scanner.ctx σ) target opts = scanner.Returned (Some x) None →
    scanner.fromScanner target opts c (evs ++ [ev]) s x).
  { intros i s x -> H. exists evs, i. right. split; [done|]. by rewrite <- Hctx. }
  unfold scanner.step. destruct (scanner.panic σ); [done|].
  destruct ev as [|i|i|i|e].
  - unfold scanner.mainStep.
    destruct (scanner.main σ) as [[|name rest]|snap x rest| |out] eqn:Hm.
    + intros [= <-]. split; [done|]. by split.
    + assert (Hin : name ∈ names) by (apply Hmain; by left).
      assert (Hrest : rest ⊆ names) by (intros n Hn; apply Hmain; by right).
      destruct (scanner.Get (scanner.registry r) name) as [s|err] eqn:Hget;
        intros [= <-].
      * split; [done|]. split; [done|]. cbn.
        intros i w Hi. apply lookup_app_Some in Hi as [Hi|[_ Hi]]; [by apply (Hws i)|].
        apply list_lookup_singleton_Some in Hi as [_ <-]. cbn.
        split; [|done]. by exists name.
      * split; [done|]. split; [|done]. cbn.
        split; [done|]. split; [|done].
        exists name. split; [done|]. unfold scanner.entryOf. by rewrite Hget.
    + intros [= <-]. destruct Hmain as (Hsnap & Hx & Hrest).
      split; [|by split].
      cbn. apply Forall_app. split; [done|]. by apply Forall_singleton.
    + destruct (forallb scanner.exited (scanner.workers σ)); [|done].
      intros [= <-]. split; [done|]. by split.
    + done.
  - unfold scanner.sendStep.
    destruct (scanner.workers σ !! i) as [w|] eqn:Hi; [|done].
    destruct (scanner.pc w); try done.
    destruct (scanner.sem σ <? scanner.capacity opts); [|done].
    intros [= <-]. by apply sourcing_worker_step.
  - unfold scanner.recvStep.
    destruct (scanner.workers σ !! i) as [w|] eqn:Hi; [|done].
    destruct (scanner.pc w); try done.
    destruct (Go.Err (scanner.ctx σ)) as [e|] eqn:He; [|done].
    intros [= <-]. apply sourcing_worker_step; try done. cbn.
    apply (Hrecv i); [done|]. by exists e.
  - unfold scanner.nextStep.
    destruct (scanner.workers σ !! i) as [w|] eqn:Hi; [|done].
    destruct (Hws _ _ Hi) as [_ Hpend].
    destruct (scanner.pc w) as [| |slot [x|]|slot snap x|slot|] eqn:Hpc; try done.
    + destruct (scanner.Run (scanner.wscanner w) (scanner.ctx σ) target opts)
        as [result [err|]|v|] eqn:Hrun; [| | |done]; intros [= <-].
      * apply sourcing_worker_step; try done. cbn.
        apply (Hnext i); [done|]. left. by exists result, err.
      * apply sourcing_worker_step; try done.
        destruct result as [x|]; [|done]. cbn. apply (Hnext i); [done|]. by right.
      * split; [done|]. by split.
    + destruct (scanner.mu σ); [done|]. intros [= <-].
      by apply sourcing_worker_step.
    + destruct (scanner.mu σ); [done|]. intros [= <-].
      by apply sourcing_worker_step.
    + intros [= <-]. destruct Hpend as [Hsnap Hx].
      apply sourcing_worker_step; try done.
      apply Forall_app. split; [done|]. apply Forall_singleton.
      by apply (worker_entry_sourced _ σ i w).
    + intros [= <-]. by apply sourcing_worker_step.
  - unfold scanner.cancelStep. destruct (Go.Err (scanner.ctx σ)) eqn:He; [done|].
    intros [= <-]. split; [done|]. by split.
Qed.

Lemma provenance_step evs σ ev σ' :
  scanner.provenance r target opts c names evs σ →
  scanner.step r target opts σ ev = Some σ' →
  scanner.provenance r target opts c names (evs ++ [ev]) σ'.
Proof.
  intros Hinv Hs. split; [|by apply (sourcing_step evs σ)].
  rewrite ctxAfter_snoc, <- (proj1 Hinv). by apply ctx_step.
Qed.

Lemma provenance_exec evs σ :
  scanner.exec r target opts evs (scanner.start c names) = Some σ →
  scanner.provenance r target opts c names evs σ.
Proof.
  revert σ. induction evs as [|ev evs IH] using rev_ind; intros σ.
  - intros [= <-]. apply provenance_start.
  - rewrite RunAll_exec_snoc.
    destruct (scanner.exec r target opts evs (scanner.start c names)) as [σ0|]; [|done].
    intros Hs. apply (provenance_step evs σ0); [by apply IH|done].
Qed.

(** *** One entry per name *)

Lemma perName_start : scanner.perName r target opts c names [] (scanner.start c names).
Proof.
  exists [], []. cbn. split; [done|]. split; [done|].
  split; [by constructor|]. split; [by constructor|done].
Qed.

Lemma perName_mono evs evs' σ :
  evs `prefix_of` evs' →
  scanner.perName r target opts c names evs σ →
  scanner.perName r target opts c names evs' σ.
Proof.
  intros Hp (done & es & Hn & Happ & Hws & Hes & Hres). exists done, es.
  split; [done|]. split; [done|]. split; [done|]. split; [|done].
  eapply Forall2_impl; [exact Hes|]. intros s x. by apply fromScanner_mono.
Qed.

(** A step of a worker that does not take it through its critical
    section. *)
Lemma perName_set evs σ i w p' sem' mu' ctx' panic' :
  scanner.perName r target opts c names evs σ →
  scanner.workers σ !! i = Some w →
  scanner.delivered (scanner.mkWorker (scanner.wscanner w) p') = scanner.delivered w →
  scanner.perName r target opts c names evs
    (scanner.mkState (scanner.main σ) (scanner.setWorker σ i w p') (scanner.results σ)
       sem' mu' ctx' panic').
Proof.
  intros (done & es & Hn & Happ & Hws & Hes & Hres) Hi Hd. exists done, es. cbn.
  unfold scanner.setWorker.
  rewrite (fmap_wscanner_insert _ _ _ _ Hi), (omap_insert_same _ _ _ _ _ Hi Hd).
  done.
Qed.

(** The step that takes a worker out of its critical section. *)
Lemma perName_deliver evs σ i w slot x sem' mu' ctx' panic' :
  scanner.perName r target opts c names evs σ →
  scanner.workers σ !! i = Some w →
  scanner.owes w = true →
  scanner.fromScanner target opts c evs (scanner.wscanner w) x →
  scanner.perName r target opts c names evs
    (scanner.mkState (scanner.main σ) (scanner.setWorker σ i w (scanner.AtDefer slot))
       (scanner.results σ ++ [x]) sem' mu' ctx' panic').
Proof.
  intros (done & es & Hn & Happ & Hws & Hes & Hres) Hi Howes Hx. cbn.
  unfold scanner.setWorker.
  destruct (omap_insert_new scanner.delivered _ _ _
              (scanner.mkWorker (scanner.wscanner w) (scanner.AtDefer slot))
              (scanner.wscanner w) Hi) as (l1 & l2 & H1 & H2).
  { unfold scanner.delivered. by rewrite Howes. }
  { done. }
  rewrite H1 in Hes.
  destruct (Forall2_insert_middle _ _ _ _ _ _ Hes Hx) as (es' & Hes' & Hperm).
  exists done, es'. cbn. rewrite (fmap_wscanner_insert _ _ _ _ Hi), H2.
  split; [done|]. split; [done|]. split; [done|]. split; [done|].
  rewrite Hres, Hperm. by rewrite app_assoc.
Qed.

Lemma perName_step n evs σ ev σ' :
  scanner.exact r n σ →
  scanner.provenance r target opts c names evs σ →
  scanner.perName r target opts c names evs σ →
  scanner.step r target opts σ ev = Some σ' →
  scanner.perName r target opts c names (evs ++ [ev]) σ'.
Proof.
  intros (_ & Hexw & _ & Hexm) [_ Hprov] Hold.
  assert (Hpre : evs `prefix_of` evs ++ [ev]) by (by exists [ev]).
  pose proof (perName_mono _ _ _ Hpre Hold) as Hinv.
  pose proof (sourcing_mono _ _ _ Hpre Hprov) as (_ & _ & Hsrc).
  unfold scanner.step. destruct (scanner.panic σ); [done|].
  destruct ev as [|i|i|i|e].
  - destruct Hinv as (done & es & Hn & Happ & Hws & Hes & Hres).
    unfold scanner.mainStep.
    destruct (scanner.main σ) as [[|name rest]|snap x rest| |out] eqn:Hm.
    + intros [= <-]. exists done, es. cbn in *. by rewrite app_nil_r in *.
    + destruct (scanner.Get (scanner.registry r) name) as [s|err] eqn:Hget;
        intros [= <-].
      * pose proof (Get_known _ _ _ Hget) as Hk.
        exists (done ++ [name]), es. cbn [scanner.main scanner.workers scanner.results
                                            scanner.ahead] in *.
        split; [by rewrite Hn, <- app_assoc|]. split; [done|].
        rewrite (filter_snoc_True (λ name, scanner.known r name = true)) by done.
        rewrite (filter_snoc_False (λ name, scanner.known r name = false))
          by (by rewrite Hk).
        rewrite fmap_app, omap_app. cbn [fmap list_fmap omap list_omap scanner.wscanner].
        unfold scanner.delivered at 2. cbn. rewrite app_nil_r.
        split; [|by split].
        apply Forall2_app; [done|]. by constructor.
      * destruct (Get_unknown _ target _ _ Hget) as [Hk Hmiss].
        exists done, es. cbn in *. split; [done|]. split; [|by split].
        intros snap x rest' [= <- <- <-]. cbn. by split.
    + intros [= <-]. destruct Hexm as (_ & -> & _).
      destruct (Happ _ _ _ eq_refl) as [Hx Hk].
      exists (done ++ [types.ScannerName x]), es.
      cbn [scanner.main scanner.workers scanner.results scanner.ahead] in *.
      split; [by rewrite Hn, <- app_assoc|]. split; [done|].
      rewrite (filter_snoc_False (λ name, scanner.known r name = true))
        by (by rewrite Hk).
      rewrite (filter_snoc_True (λ name, scanner.known r name = false)) by done.
      split; [done|]. split; [done|].
      rewrite fmap_app. cbn [fmap list_fmap].
      rewrite <- Hx, Hres, <- !app_assoc. apply Permutation_app_head.
      apply Permutation_app_comm.
    + destruct (forallb scanner.exited (scanner.workers σ)); [|done].
      intros [= <-]. by exists done, es.
    + done.
  - unfold scanner.sendStep.
    destruct (scanner.workers σ !! i) as [w|] eqn:Hi; [|done].
    destruct (scanner.pc w) eqn:Hpc; try done.
    destruct (scanner.sem σ <? scanner.capacity opts); [|done].
    intros [= <-]. apply perName_set; [done..|].
    unfold scanner.delivered, scanner.owes. cbn. by rewrite Hpc.
  - unfold scanner.recvStep.
    destruct (scanner.workers σ !! i) as [w|] eqn:Hi; [|done].
    destruct (scanner.pc w) eqn:Hpc; try done.
    destruct (Go.Err (scanner.ctx σ)) as [e|]; [|done].
    intros [= <-]. apply perName_set; [done..|].
    unfold scanner.delivered, scanner.owes. cbn. by rewrite Hpc.
  - unfold scanner.nextStep.
    destruct (scanner.workers σ !! i) as [w|] eqn:Hi; [|done].
    destruct (Hsrc _ _ Hi) as [_ Hpend].
    destruct (Hexw _ _ Hi) as (_ & Hnonil & Hsnap).
    destruct (scanner.pc w) as [| |slot [x|]|slot snap x|slot|] eqn:Hpc; try done.
    + destruct (scanner.Run (scanner.wscanner w) (scanner.ctx σ) target opts)
        as [result [err|]|v|]; [| | |done]; intros [= <-].
      * apply perName_set; [done..|].
        unfold scanner.delivered, scanner.owes. cbn. by rewrite Hpc.
      * apply perName_set; [done..|].
        unfold scanner.delivered, scanner.owes. cbn. by rewrite Hpc.
      * destruct Hinv as (done & es & ?). by exists done, es.
    + destruct (scanner.mu σ); [done|]. intros [= <-].
      apply perName_set; [done..|].
      unfold scanner.delivered, scanner.owes. cbn. by rewrite Hpc.
    + by destruct (Hnonil slot).
    + intros [= <-]. rewrite (Hsnap _ _ _ eq_refl).
      apply perName_deliver; try done.
      * unfold scanner.owes. by rewrite Hpc.
      * by destruct Hpend.
    + intros [= <-]. apply perName_set; [done..|].
      unfold scanner.delivered, scanner.owes. cbn. by rewrite Hpc.
  - unfold scanner.cancelStep. destruct (Go.Err (scanner.ctx σ)); [done|].
    intros [= <-]. destruct Hinv as (done & es & ?). by exists done, es.
Qed.

(** The entries of the names that are not registered and those of the
    workers, put in the order of the names. *)
Lemma entries_in_order evs (l : list string) (ss : list scanner.Scanner)
    (es : list types.ScanResult) :
  Forall2 (λ name s, scanner.Get (scanner.registry r) name = inl s)
    (filter (λ name, scanner.known r name = true) l) ss →
  Forall2 (scanner.fromScanner target opts c evs) ss es →
  ∃ es', Forall2 (scanner.entryOf r target opts c evs) l es'
         ∧ es' ≡ₚ (scanner.missing target <$>
                     filter (λ name, scanner.known r name = false) l) ++ es.
Proof.
  revert ss es. induction l as [|name l IH]; intros ss es Hss Hes.
  - rewrite filter_nil in Hss. apply Forall2_nil_inv_l in Hss as ->.
    apply Forall2_nil_inv_l in Hes as ->. exists []. by split; [constructor|].
  - destruct (scanner.known r name) eqn:Hk.
    + rewrite filter_cons_True in Hss by done.
      rewrite (filter_cons_False (λ name, scanner.known r name = false))
        by (by rewrite Hk).
      apply Forall2_cons_inv_l in Hss as (s & ss' & Hget & Hss & ->).
      apply Forall2_cons_inv_l in Hes as (x & es0 & Hx & Hes & ->).
      destruct (IH _ _ Hss Hes) as (es' & Hall & Hperm).
      exists (x :: es'). split.
      * constructor; [|done]. unfold scanner.entryOf. by rewrite Hget.
      * rewrite Hperm. apply Permutation_middle.
    + rewrite (filter_cons_False (λ name, scanner.known r name = true)) in Hss
        by (by rewrite Hk).
      rewrite (filter_cons_True (λ name, scanner.known r name = false)) by done.
      destruct (IH _ _ Hss Hes) as (es' & Hall & Hperm).
      exists (scanner.missing target name :: es'). split.
      * constructor; [|done]. unfold scanner.entryOf.
        by rewrite (unknown_Get_missing _ _ Hk).
      * cbn. by rewrite Hperm.
Qed.

Lemma delivered_exited ws :
  forallb scanner.exited ws = true →
  omap scanner.delivered ws = scanner.wscanner <$> ws.
Proof.
  induction ws as [|w ws IH]; [done|]. cbn.
  intros [Hw Hws]%andb_prop. rewrite (IH Hws).
  unfold scanner.delivered, scanner.owes. unfold scanner.exited in Hw.
  by destruct (scanner.pc w).
Qed.

Lemma perName_finished evs σ out :
  scanner.perName r target opts c names evs σ →
  scanner.main σ = scanner.Finished out →
  out = scanner.results σ → forallb scanner.exited (scanner.workers σ) = true →
  ∃ es, out ≡ₚ es ∧ Forall2 (scanner.entryOf r target opts c evs) names es.
Proof.
  intros (done & es & Hn & _ & Hws & Hes & Hres) Hm -> Hall.
  rewrite Hm in Hn. cbn in Hn. rewrite app_nil_r in Hn. subst done.
  rewrite (delivered_exited _ Hall) in Hes.
  destruct (entries_in_order evs names _ es Hws Hes) as (es' & Hall' & Hperm).
  exists es'. split; [|done]. by rewrite Hres, Hperm.
Qed.

End RunAllHistory.

Lemma perName_exec (r : scanner.Runner) (target : types.Target) (opts : scanner.Options)
    (c : Go.Context) (names : list string) (evs : list scanner.Event) (σ : scanner.State) :
  scanner.never_nil_nil (scanner.registry r) →
  scanner.never_panics (scanner.registry r) →
  scanner.unknown_first r names = true →
  scanner.exec r target opts evs (scanner.start c names) = Some σ →
  scanner.perName r target opts c names evs σ.
Proof.
  intros Hnil Hpanic Hu. revert σ. induction evs as [|ev evs IH] using rev_ind; intros σ.
  - intros [= <-]. apply perName_start.
  - rewrite RunAll_exec_snoc.
    destruct (scanner.exec r target opts evs (scanner.start c names)) as [σ0|] eqn:H0;
      [|done].
    intros Hs.
    destruct (exact_exec r target opts Hnil Hpanic _ _ _ _
                (gate_start opts c names) (exact_start r c names Hu) H0) as (_ & Hex & _).
    apply (perName_step r target opts c names (length names) evs σ0); try done.
    + by apply provenance_exec.
    + by apply IH.
Qed.


Lemma mock_never_nil_nil name :
  scanner.never_nil_nil (scanner.Register scanner.NewRegistry (probes.mockScanner name)).
Proof.
  intros n s c t o H. cbn in H.
  apply lookup_insert_Some in H as [[_ <-]|[_ H]]; [done|by rewrite lookup_empty in H].
Qed.


Lemma mock_never_blocks name :
  scanner.never_blocks (scanner.Register scanner.NewRegistry (probes.mockScanner name)).
Proof.
  intros n s c t o H. cbn in H.
  apply lookup_insert_Some in H as [[_ <-]|[_ H]]; [done|by rewrite lookup_empty in H].
Qed.



(** Why the order of the names matters: "a" is registered and comes first,
    "zzz" is not.  The calling goroutine reads [results] for "zzz", the
    worker of "a" appends its result under the mutex, and the calling
    goroutine then writes what it read plus its own entry: the worker's
    entry is gone. *)
Example RunAll_unsynchronised_append_loses_an_entry :
  let r := scanner.NewRunner (scanner.Register scanner.NewRegistry (probes.mockScanner "a")) in
  types.ScannerName <$>
    default []
      (scanner.RunAll r probes.example_com scanner.DefaultOptions Go.Background
         ["a"; "zzz"]
         [scanner.Main; scanner.Main; scanner.Send 0; scanner.Next 0; scanner.Next 0;
          scanner.Next 0; scanner.Main; scanner.Next 0; scanner.Main; scanner.Main])
  = ["zzz"].
Proof. by vm_compute. Qed.

(** A context that is already cancelled: the worker may take the
    [ctx.Done()] branch, and the entry carries the context's error. *)
Example RunAll_cancelled_context :
  let r := scanner.NewRunner (scanner.Register scanner.NewRegistry (probes.mockScanner "a")) in
  types.Error <$>
    default []
      (scanner.RunAll r probes.example_com scanner.DefaultOptions
         (Go.mkContext None (Some Go.Canceled)) ["a"]
         [scanner.Main; scanner.Main; scanner.Recv 0; scanner.Next 0; scanner.Next 0;
          scanner.Next 0; scanner.Main])
  = ["context canceled"].
Proof. by vm_compute. Qed.

(* ===================================================================== *)
(** * Further properties of the job manager                               *)
(* ===================================================================== *)

(** ** Create, Get, Delete *)

(** X1: [Create] followed by [Get] of the new id gives the new job, which is
    pending with nothing done; the jobs allocated before, the ids stored
    under other keys and the goroutines are left alone. *)
Theorem Create_then_Get (σ : jobs.State) (target : types.Target) (scanners : list string)
    (opts : scanner.Options) (tID tCreated : Z) :
  let c := jobs.Create σ target scanners opts tID tCreated in
  jobs.Get c.1 (jobs.newUUID tID) = inl c.2
  ∧ jobs.heap c.1 !! c.2 =
    Some (jobs.mkJob (jobs.newUUID tID) target scanners opts jobs.StatusPending [] ""
            (Some tCreated) None None
            (jobs.mkJobProgress (Z.of_nat (length scanners)) 0 ""))
  ∧ (∀ p j, jobs.heap σ !! p = Some j → jobs.heap c.1 !! p = Some j)
  ∧ (∀ id, id ≠ jobs.newUUID tID → jobs.Get c.1 id = jobs.Get σ id)
  ∧ jobs.tasks c.1 = jobs.tasks σ.
Proof.
  cbn. unfold jobs.Get. cbn. rewrite lookup_insert_eq.
  split; [done|]. split; [by rewrite list_lookup_middle|].
  split; [intros p j Hp; by apply lookup_app_l_Some|].
  split; [|done]. intros id Hid. by rewrite lookup_insert_ne.
Qed.

Lemma Create_then_Get_witness :
  let σ := jobs.NewManager (scanner.NewRunner scanner.NewRegistry) in
  let c := jobs.Create σ probes.example_com ["headers"] scanner.DefaultOptions 7 8 in
  jobs.Get c.1 "7" = inl 0%nat ∧ jobs.Get c.1 "8" = jobs.Get σ "8".
Proof.
  intros σ c.
  destruct (Create_then_Get σ probes.example_com ["headers"] scanner.DefaultOptions 7 8)
    as (H1 & _ & _ & H4 & _).
  split; [exact H1|]. apply H4. discriminate.
Defined.

(** X2: [Delete] of an id that is stored returns nil; afterwards [Get] of
    that id fails and every other id answers as before.  The jobs and the
    goroutines are not touched, so a goroutine of the deleted job goes on
    exactly as it would have: a step taken after the deletion is the step
    taken before it. *)
Theorem Delete_then_Get (σ : jobs.State) (jobID : string) (p : nat) :
  jobs.jobs (jobs.manager σ) !! jobID = Some p →
  (jobs.Delete σ jobID).2 = None
  ∧ jobs.Get (jobs.Delete σ jobID).1 jobID = inr (jobs.notFound jobID)
  ∧ (∀ id, id ≠ jobID → jobs.Get (jobs.Delete σ jobID).1 id = jobs.Get σ id)
  ∧ jobs.heap (jobs.Delete σ jobID).1 = jobs.heap σ
  ∧ jobs.tasks (jobs.Delete σ jobID).1 = jobs.tasks σ
  ∧ ∀ i now,
      jobs.executeStep (jobs.Delete σ jobID).1 i now
      = (λ σ', (jobs.Delete σ' jobID).1) <$> jobs.executeStep σ i now.
Proof.
  intros Hp. unfold jobs.Delete at 1 2 3 4 5 6. rewrite Hp. cbn.
  split; [done|]. unfold jobs.Get. cbn. rewrite lookup_delete_eq.
  split; [done|]. split; [by intros id Hid; rewrite lookup_delete_ne|].
  split; [done|]. split; [done|].
  intros i now. unfold jobs.executeStep. cbn.
  destruct (jobs.tasks σ !! i) as [t|]; [|done].
  destruct (jobs.heap σ !! jobs.job t) as [j|]; [|done].
  destruct (jobs.at_ t) as [|c [|name rest]|c name rest|c name result err rest|v|];
    cbn; unfold jobs.Delete; cbn; rewrite ?Hp; try done.
  destruct (scanner.RunOne _ _ _ _ _); cbn; by rewrite ?Hp.
Qed.

Lemma Delete_then_Get_witness :
  let σ := (jobs.Create (jobs.NewManager (scanner.NewRunner scanner.NewRegistry))
              probes.example_com ["headers"] scanner.DefaultOptions 7 8).1 in
  (jobs.Delete σ "7").2 = None
  ∧ jobs.Get (jobs.Delete σ "7").1 "7" = inr (jobs.notFound "7").
Proof.
  intros σ.
  destruct (Delete_then_Get σ "7" 0%nat eq_refl) as (H1 & H2 & _).
  by split.
Defined.

(** ** What a step changes *)

Lemma launches_setTask σ h i t pc' p :
  jobs.tasks σ !! i = Some t →
  jobs.launches (jobs.mkState (jobs.manager σ) h (jobs.setTask σ i t pc')) p
  = jobs.launches σ p.
Proof.
  intros Hi. unfold jobs.launches, jobs.setTask. cbn.
  pose proof (count_insert (λ t, jobs.job t = p) _ _ _ (jobs.mkTask (jobs.job t) pc') Hi)
    as Hc.
  cbn in Hc. destruct (decide (jobs.job t = p)); lia.
Qed.

(** A step of goroutine [i] is [alter f] on its job and a new program point
    for itself, where [f] is one of the updates of [execute]. *)
Lemma executeStep_shape σ i now σ' :
  jobs.executeStep σ i now = Some σ' →
  ∃ t j f pc',
    jobs.tasks σ !! i = Some t ∧ jobs.heap σ !! jobs.job t = Some j
    ∧ σ' = jobs.mkState (jobs.manager σ) (alter f (jobs.job t) (jobs.heap σ))
             (jobs.setTask σ i t pc')
    ∧ jobs.at_ t ≠ jobs.Exited
    ∧ (f = id
       ∨ (∃ name, f = jobs.setCurrent name)
       ∨ (∃ name result err, f = jobs.record name result err)
       ∨ (f = jobs.setCompleted now)
       ∨ (∃ v, f = jobs.setFailed v now ∧ jobs.at_ t = jobs.Recovering v)).
Proof.
  unfold jobs.executeStep.
  destruct (jobs.tasks σ !! i) as [t|] eqn:Hi; [|done].
  destruct (jobs.heap σ !! jobs.job t) as [j|] eqn:Hj; [|done].
  intros Hstep. exists t, j.
  assert (Hid : jobs.heap σ = alter id (jobs.job t) (jobs.heap σ))
    by (by rewrite list_alter_id).
  destruct (jobs.at_ t) as [|c [|name rest]|c name rest|c name result err rest|v|]
    eqn:Hpc; try done.
  - injection Hstep as <-. eexists id, _. rewrite <- Hid. repeat split; try done. by left.
  - injection Hstep as <-. eexists _, _. repeat split; try done. right. right. right. by left.
  - injection Hstep as <-. eexists _, _. repeat split; try done. right. left. by eexists.
  - destruct (scanner.RunOne _ _ _ _ _); [| |done]; injection Hstep as <-;
      eexists id, _; rewrite <- Hid; repeat split; try done; by left.
  - injection Hstep as <-. eexists _, _. repeat split; try done.
    right. right. left. by eexists _, _, _.
  - injection Hstep as <-. eexists _, _. repeat split; try done.
    right. right. right. right. by eexists.
Qed.

Lemma evolves_refl j : jobs.evolves j j.
Proof. unfold jobs.evolves. repeat split; try done; lia. Qed.

Lemma evolves_trans j1 j2 j3 :
  jobs.evolves j1 j2 → jobs.evolves j2 j3 → jobs.evolves j1 j3.
Proof.
  unfold jobs.evolves.
  intros (? & ? & ? & ? & ? & ? & ? & ?) (? & ? & ? & ? & ? & ? & ? & ?).
  repeat split; try congruence; try lia. by etrans.
Qed.

Lemma evolves_update now f j :
  (f = id
   ∨ (∃ name, f = jobs.setCurrent name)
   ∨ (∃ name result err, f = jobs.record name result err)
   ∨ (f = jobs.setCompleted now)
   ∨ (∃ v, f = jobs.setFailed v now ∧ True)
   ∨ f = jobs.setRunning now) →
  jobs.evolves j (f j).
Proof.
  intros [-> | [[name ->] | [(name & result & err & ->) | [-> | [(v & -> & _) | ->]]]]];
    unfold jobs.evolves; cbn; repeat split; try done; try lia.
  destruct err; [|destruct result]; try done; by apply prefix_app_r.
Qed.

Lemma evolves_alter (f : jobs.Job → jobs.Job) (q p : nat) (l : list jobs.Job)
    (j : jobs.Job) :
  (∀ x, jobs.evolves x (f x)) → l !! p = Some j →
  ∃ j', alter f q l !! p = Some j' ∧ jobs.evolves j j'.
Proof.
  intros Hf Hp. destruct (decide (q = p)) as [->|Hne].
  - rewrite list_lookup_alter_eq, Hp. eexists. split; [done|]. apply Hf.
  - rewrite list_lookup_alter_ne by done. exists j. split; [done|]. apply evolves_refl.
Qed.

Lemma evolves_step σ ev σ' p j :
  jobs.step σ ev = Some σ' → jobs.heap σ !! p = Some j →
  ∃ j', jobs.heap σ' !! p = Some j' ∧ jobs.evolves j j'.
Proof.
  intros Hstep Hp. destruct ev as [? ? ? ? ?|jobID now|jobID|i now]; cbn in Hstep.
  - injection Hstep as <-. exists j. split; [|apply evolves_refl].
    cbn. by apply lookup_app_l_Some.
  - injection Hstep as <-. unfold jobs.Start.
    destruct (jobs.jobs (jobs.manager σ) !! jobID);
      [|exists j; split; [done|apply evolves_refl]].
    cbn. apply evolves_alter; [|done]. intros x. apply (evolves_update now). tauto.
  - injection Hstep as <-. unfold jobs.Delete.
    destruct (jobs.jobs (jobs.manager σ) !! jobID);
      exists j; (split; [done|apply evolves_refl]).
  - destruct (executeStep_shape _ _ _ _ Hstep) as (t & j0 & f & pc' & _ & _ & -> & _ & Hf).
    cbn. apply evolves_alter; [|done]. intros x. apply (evolves_update now).
    destruct Hf as [?|[?|[?|[?|(v & ? & _)]]]]; eauto 10.
Qed.

Lemma evolves_exec evs σ σ' p j :
  jobs.exec evs σ = Some σ' → jobs.heap σ !! p = Some j →
  ∃ j', jobs.heap σ' !! p = Some j' ∧ jobs.evolves j j'.
Proof.
  revert σ j. induction evs as [|ev evs IH]; intros σ j; cbn.
  - intros [= <-] Hp. exists j. split; [done|apply evolves_refl].
  - destruct (jobs.step σ ev) as [σ1|] eqn:Hs; [|done]. intros Hexec Hp.
    destruct (evolves_step _ _ _ _ _ Hs Hp) as (j1 & Hp1 & He1).
    destruct (IH _ _ Hexec Hp1) as (j' & Hp' & He').
    exists j'. split; [done|]. by apply (evolves_trans j j1).
Qed.

Lemma FindingCount_app n l k :
  foldl (λ n r, n + Z.of_nat (length (types.Findings r))) n (l ++ k)
  = foldl (λ n r, n + Z.of_nat (length (types.Findings r))) n l
    + foldl (λ n r, n + Z.of_nat (length (types.Findings r))) 0 k.
Proof.
  rewrite foldl_app.
  generalize (foldl (λ n r, n + Z.of_nat (length (types.Findings r))) n l).
  induction k as [|x k IH] using rev_ind; intros a; [cbn; lia|].
  rewrite !foldl_app. cbn. rewrite IH. lia.
Qed.

Lemma FindingCount_nonneg l :
  0 ≤ foldl (λ n r, n + Z.of_nat (length (types.Findings r))) 0 l.
Proof.
  induction l as [|x l IH] using rev_ind; [done|]. rewrite foldl_app. cbn. lia.
Qed.

(** X3: whatever happens to the manager, the id, the target, the scanner
    list, the options, the creation time and the total of a job stay as
    [Create] set them, and the job stays allocated. *)
Theorem job_fields_never_change (evs : list jobs.Event) (σ σ' : jobs.State)
    (p : nat) (j : jobs.Job) :
  jobs.exec evs σ = Some σ' → jobs.heap σ !! p = Some j →
  ∃ j', jobs.heap σ' !! p = Some j'
    ∧ jobs.ID j' = jobs.ID j ∧ jobs.Target j' = jobs.Target j
    ∧ jobs.Scanners j' = jobs.Scanners j ∧ jobs.Options j' = jobs.Options j
    ∧ jobs.CreatedAt j' = jobs.CreatedAt j
    ∧ jobs.TotalScanners (jobs.Progress j') = jobs.TotalScanners (jobs.Progress j).
Proof.
  intros Hexec Hp.
  destruct (evolves_exec _ _ _ _ _ Hexec Hp) as (j' & Hp' & (? & ? & ? & ? & ? & ? & _)).
  by exists j'.
Qed.

(** X4: progress is monotone.  Whatever happens to the manager,
    [CompletedScanners] of a job does not decrease, its results are only
    appended to (what was there stays, in place), and [FindingCount] does
    not decrease. *)
Theorem job_progress_is_monotone (evs : list jobs.Event) (σ σ' : jobs.State)
    (p : nat) (j : jobs.Job) :
  jobs.exec evs σ = Some σ' → jobs.heap σ !! p = Some j →
  ∃ j', jobs.heap σ' !! p = Some j'
    ∧ jobs.CompletedScanners (jobs.Progress j) ≤ jobs.CompletedScanners (jobs.Progress j')
    ∧ jobs.Results j `prefix_of` jobs.Results j'
    ∧ jobs.FindingCount j ≤ jobs.FindingCount j'.
Proof.
  intros Hexec Hp.
  destruct (evolves_exec _ _ _ _ _ Hexec Hp)
    as (j' & Hp' & (_ & _ & _ & _ & _ & _ & Hc & Hr)).
  exists j'. repeat split; try done.
  destruct Hr as [k Hk]. unfold jobs.FindingCount. rewrite Hk, FindingCount_app.
  pose proof (FindingCount_nonneg k). lia.
Qed.

Lemma job_fields_never_change_witness :
  let j := jobs.mkJob "1" probes.example_com ["headers"] scanner.DefaultOptions
             jobs.StatusPending [] "" (Some 2) None None (jobs.mkJobProgress 1 0 "") in
  let σ := (jobs.Create
              (jobs.NewManager
                 (scanner.NewRunner
                    (scanner.Register scanner.NewRegistry (probes.mockScanner "headers"))))
              probes.example_com ["headers"] scanner.DefaultOptions 1 2).1 in
  let evs := [jobs.CallStart "1" 3; jobs.Exec 0 4; jobs.Exec 0 5; jobs.Exec 0 6;
              jobs.Exec 0 7; jobs.Exec 0 8; jobs.CallDelete "1"] in
  ∃ σ', jobs.exec evs σ = Some σ'
    ∧ ∃ j', jobs.heap σ' !! 0%nat = Some j'
        ∧ jobs.ID j' = jobs.ID j ∧ jobs.Target j' = jobs.Target j
        ∧ jobs.Scanners j' = jobs.Scanners j ∧ jobs.Options j' = jobs.Options j
        ∧ jobs.CreatedAt j' = jobs.CreatedAt j
        ∧ jobs.TotalScanners (jobs.Progress j') = jobs.TotalScanners (jobs.Progress j).
Proof.
  intros j σ evs. eexists. split; [vm_compute; reflexivity|].
  apply (job_fields_never_change evs σ _ 0%nat j); [vm_compute; reflexivity|reflexivity].
Defined.

Lemma job_progress_is_monotone_witness :
  let j := jobs.mkJob "1" probes.example_com ["headers"] scanner.DefaultOptions
             jobs.StatusPending [] "" (Some 2) None None (jobs.mkJobProgress 1 0 "") in
  let σ := (jobs.Create
              (jobs.NewManager
                 (scanner.NewRunner
                    (scanner.Register scanner.NewRegistry (probes.mockScanner "headers"))))
              probes.example_com ["headers"] scanner.DefaultOptions 1 2).1 in
  let evs := [jobs.CallStart "1" 3; jobs.Exec 0 4; jobs.Exec 0 5; jobs.Exec 0 6;
              jobs.Exec 0 7; jobs.Exec 0 8] in
  ∃ σ', jobs.exec evs σ = Some σ'
    ∧ ∃ j', jobs.heap σ' !! 0%nat = Some j'
        ∧ jobs.CompletedScanners (jobs.Progress j)
          ≤ jobs.CompletedScanners (jobs.Progress j')
        ∧ jobs.Results j `prefix_of` jobs.Results j'
        ∧ jobs.FindingCount j ≤ jobs.FindingCount j'.
Proof.
  intros j σ evs. eexists. split; [vm_compute; reflexivity|].
  apply (job_progress_is_monotone evs σ _ 0%nat j); [vm_compute; reflexivity|reflexivity].
Defined.

(** X5: a step of a goroutine of [execute] changes the job it was launched
    for and its own program point, nothing else: the map, every other job
    and every other goroutine are as before.  When the step is the recovery
    from a panic of [RunOne], the job becomes failed with the error
    ["panic: "] followed by the value, and keeps its results and its
    count. *)
Theorem execute_step_is_local (σ σ' : jobs.State) (i : nat) (now : Z) (t : jobs.Task) :
  jobs.executeStep σ i now = Some σ' → jobs.tasks σ !! i = Some t →
  jobs.manager σ' = jobs.manager σ
  ∧ length (jobs.heap σ') = length (jobs.heap σ)
  ∧ (∀ p, p ≠ jobs.job t → jobs.heap σ' !! p = jobs.heap σ !! p)
  ∧ (∀ i', i' ≠ i → jobs.tasks σ' !! i' = jobs.tasks σ !! i')
  ∧ jobs.job <$> jobs.tasks σ' !! i = Some (jobs.job t)
  ∧ ∀ v, jobs.at_ t = jobs.Recovering v →
      ∃ j j', jobs.heap σ !! jobs.job t = Some j ∧ jobs.heap σ' !! jobs.job t = Some j'
        ∧ jobs.Status j' = jobs.StatusFailed
        ∧ jobs.Error j' = "panic: " +:+ v
        ∧ jobs.Results j' = jobs.Results j
        ∧ jobs.Progress j' = jobs.Progress j.
Proof.
  intros Hstep Hi.
  destruct (executeStep_shape _ _ _ _ Hstep) as (t' & j & f & pc' & Hi' & Hj & -> & _ & Hf).
  rewrite Hi in Hi'. injection Hi' as <-. cbn. unfold jobs.setTask.
  split; [done|]. split; [by rewrite length_alter|].
  split; [by intros p Hp; rewrite list_lookup_alter_ne|].
  split; [by intros i' Hi'; rewrite list_lookup_insert_ne|].
  split; [by rewrite list_lookup_insert_eq by (by apply lookup_lt_Some in Hi)|].
  intros v Hv. clear Hf. unfold jobs.executeStep in Hstep.
  rewrite Hi, Hj, Hv in Hstep. injection Hstep as Hheap _.
  exists j, (jobs.setFailed v now j).
  rewrite <- Hheap, list_lookup_alter_eq, Hj. by cbn.
Qed.

Lemma execute_step_is_local_witness :
  let r := scanner.NewRunner
             (scanner.Register scanner.NewRegistry (probes.panicScanner "boom")) in
  let evs := [jobs.CallCreate probes.example_com ["boom"] scanner.DefaultOptions 1 2;
              jobs.CallCreate probes.example_com ["boom"] scanner.DefaultOptions 5 6;
              jobs.CallStart "1" 3; jobs.Exec 0 4; jobs.Exec 0 5; jobs.Exec 0 6] in
  ∃ σ σ', jobs.exec evs (jobs.NewManager r) = Some σ
    ∧ jobs.executeStep σ 0 7 = Some σ'
    ∧ jobs.Status <$> jobs.heap σ' !! 0%nat = Some jobs.StatusFailed
    ∧ jobs.heap σ' !! 1%nat = jobs.heap σ !! 1%nat.
Proof.
  intros r evs. eexists _, _.
  split; [vm_compute; reflexivity|].
  match goal with |- ?A ∧ _ => eassert (Hstep : A) by (vm_compute; reflexivity) end.
  split; [exact Hstep|]. split; [reflexivity|].
  refine (proj1 (proj2 (proj2 (execute_step_is_local _ _ 0%nat 7 _ Hstep _))) 1%nat _);
    [reflexivity|discriminate].
Defined.

(** ** Started once: counters, final states *)

Lemma launches_step σ ev σ' p :
  jobs.step σ ev = Some σ' → (jobs.launches σ p ≤ jobs.launches σ' p)%nat.
Proof.
  destruct ev as [? ? ? ? ?|jobID now|jobID|i now]; cbn.
  - by intros [= <-].
  - intros [= <-]. unfold jobs.Start.
    destruct (jobs.jobs (jobs.manager σ) !! jobID); [|done].
    unfold jobs.launches. cbn. rewrite (count_snoc (λ t, jobs.job t = p)). lia.
  - intros [= <-]. unfold jobs.Delete.
    by destruct (jobs.jobs (jobs.manager σ) !! jobID).
  - intros Hstep.
    destruct (executeStep_shape _ _ _ _ Hstep) as (t & j & f & pc' & Hi & _ & -> & _).
    by rewrite launches_setTask.
Qed.

Lemma launches_exec evs σ σ' p :
  jobs.exec evs σ = Some σ' → (jobs.launches σ p ≤ jobs.launches σ' p)%nat.
Proof.
  revert σ. induction evs as [|ev evs IH]; intros σ; cbn.
  - by intros [= <-].
  - destruct (jobs.step σ ev) as [σ1|] eqn:Hs; [|done]. intros Hexec.
    pose proof (launches_step _ _ _ p Hs). specialize (IH _ Hexec). lia.
Qed.

(** The goroutine of a job that is completed or failed and was started once
    has exited. *)
Lemma final_job_task σ p j :
  jobs.invariant σ → jobs.heap σ !! p = Some j →
  jobs.Status j = jobs.StatusCompleted ∨ jobs.Status j = jobs.StatusFailed →
  (jobs.launches σ p ≤ 1)%nat →
  jobs.launches σ p = 1%nat
  ∧ ∀ i t, jobs.tasks σ !! i = Some t → jobs.job t = p → jobs.at_ t = jobs.Exited.
Proof.
  intros (_ & _ & Hjobs) Hj Hfin Hl. destruct (Hjobs _ _ Hj) as (_ & Hzero & Hone).
  destruct (decide (jobs.launches σ p = 0%nat)) as [Hz|Hnz].
  { destruct (Hzero Hz) as [Hs _]. rewrite Hs in Hfin. by destruct Hfin. }
  assert (Hl1 : jobs.launches σ p = 1%nat) by lia. split; [done|].
  intros i t Hi Ht. specialize (Hone Hl1 i t Hi Ht).
  destruct (jobs.at_ t); cbn in Hone; try done;
    destruct Hone as [Hs _]; rewrite Hs in Hfin; by destruct Hfin.
Qed.

Lemma final_step σ ev σ' p j :
  jobs.invariant σ → jobs.step σ ev = Some σ' → jobs.heap σ !! p = Some j →
  jobs.Status j = jobs.StatusCompleted ∨ jobs.Status j = jobs.StatusFailed →
  (jobs.launches σ' p ≤ 1)%nat →
  jobs.heap σ' !! p = Some j.
Proof.
  intros Hinv Hstep Hj Hfin Hl.
  pose proof (launches_step _ _ _ p Hstep) as Hmono.
  destruct (final_job_task σ p j Hinv Hj Hfin) as (Hl1 & Hex); [lia|].
  destruct ev as [? ? ? ? ?|jobID now|jobID|i now]; cbn in Hstep.
  - injection Hstep as <-. cbn. by apply lookup_app_l_Some.
  - injection Hstep as <-. unfold jobs.Start in *.
    destruct (jobs.jobs (jobs.manager σ) !! jobID) as [p0|]; [|done]. cbn in *.
    destruct (decide (p0 = p)) as [->|Hne]; [|by rewrite list_lookup_alter_ne].
    unfold jobs.launches in Hl, Hl1. cbn in Hl.
    rewrite (count_snoc (λ t, jobs.job t = p)) in Hl. cbn in Hl.
    rewrite decide_True in Hl by done. lia.
  - injection Hstep as <-. unfold jobs.Delete.
    by destruct (jobs.jobs (jobs.manager σ) !! jobID).
  - destruct (executeStep_shape _ _ _ _ Hstep)
      as (t & j0 & f & pc' & Hi & _ & -> & Hne & _).
    cbn. destruct (decide (jobs.job t = p)) as [Ht|Ht];
      [|by rewrite list_lookup_alter_ne].
    by destruct (Hne (Hex _ _ Hi Ht)).
Qed.

(** X6: completed and failed are final for a job that is started once.  Once
    such a job is completed or failed, nothing that happens to the manager
    changes it, as long as [Start] is not called on it again. *)
Theorem finished_job_is_final (runner : scanner.Runner) (evs0 evs : list jobs.Event)
    (σ σ' : jobs.State) (p : nat) (j : jobs.Job) :
  jobs.exec evs0 (jobs.NewManager runner) = Some σ →
  jobs.exec evs σ = Some σ' →
  jobs.heap σ !! p = Some j →
  jobs.Status j = jobs.StatusCompleted ∨ jobs.Status j = jobs.StatusFailed →
  (jobs.launches σ' p ≤ 1)%nat →
  jobs.heap σ' !! p = Some j.
Proof.
  intros Hexec0.
  pose proof (invariant_exec _ _ _ (invariant_NewManager runner) Hexec0) as Hinv.
  clear Hexec0. revert σ Hinv.
  induction evs as [|ev evs IH]; intros σ Hinv; cbn.
  - by intros [= <-].
  - destruct (jobs.step σ ev) as [σ1|] eqn:Hs; [|done]. intros Hexec Hj Hfin Hl.
    pose proof (launches_exec _ _ _ p Hexec).
    apply (IH σ1); try done.
    + by apply (invariant_step σ ev).
    + apply (final_step σ ev); try done. lia.
Qed.

Lemma finished_job_is_final_witness :
  let runner :=
    scanner.NewRunner (scanner.Register scanner.NewRegistry (probes.mockScanner "headers")) in
  let evs0 :=
    [jobs.CallCreate probes.example_com ["headers"] scanner.DefaultOptions 1 2;
     jobs.CallStart "1" 3; jobs.Exec 0 4; jobs.Exec 0 5; jobs.Exec 0 6;
     jobs.Exec 0 7; jobs.Exec 0 8] in
  let evs :=
    [jobs.CallCreate probes.example_com ["headers"] scanner.DefaultOptions 9 9;
     jobs.CallStart "9" 10; jobs.Exec 1 11; jobs.CallDelete "1"] in
  ∃ σ σ' j,
    jobs.exec evs0 (jobs.NewManager runner) = Some σ
    ∧ jobs.exec evs σ = Some σ'
    ∧ jobs.heap σ !! 0%nat = Some j
    ∧ jobs.Status j = jobs.StatusCompleted
    ∧ jobs.heap σ' !! 0%nat = Some j.
Proof.
  intros runner evs0 evs. eexists _, _, _.
  split; [vm_compute; reflexivity|].
  split; [vm_compute; reflexivity|].
  split; [reflexivity|]. split; [reflexivity|].
  eapply (finished_job_is_final runner evs0 evs _ _ 0%nat);
    [vm_compute; reflexivity | vm_compute; reflexivity | reflexivity
    | left; reflexivity | vm_compute; lia].
Defined.

(** X7: at every moment of a job that is started at most once,
    [0 <= len(results) <= completedScanners <= totalScanners], and its
    status is pending exactly as long as it has not been started. *)
Theorem single_start_counters_in_range (runner : scanner.Runner) (evs : list jobs.Event)
    (σ : jobs.State) (p : nat) (j : jobs.Job) :
  jobs.exec evs (jobs.NewManager runner) = Some σ →
  jobs.heap σ !! p = Some j →
  (jobs.launches σ p ≤ 1)%nat →
  Z.of_nat (length (jobs.Results j)) ≤ jobs.CompletedScanners (jobs.Progress j)
  ∧ jobs.CompletedScanners (jobs.Progress j) ≤ jobs.TotalScanners (jobs.Progress j)
  ∧ jobs.TotalScanners (jobs.Progress j) = Z.of_nat (length (jobs.Scanners j))
  ∧ (jobs.Status j = jobs.StatusPending ↔ jobs.launches σ p = 0%nat).
Proof.
  intros Hexec Hj Hl.
  pose proof (invariant_exec _ _ _ (invariant_NewManager runner) Hexec) as (_ & _ & Hjobs).
  destruct (Hjobs _ _ Hj) as (Htot & Hzero & Hone).
  destruct (decide (jobs.launches σ p = 0%nat)) as [Hz|Hnz].
  { destruct (Hzero Hz) as [Hs (H1 & H2 & _)]. repeat split; try done; lia. }
  assert (Hl1 : jobs.launches σ p = 1%nat) by lia.
  destruct (launched_task σ p) as (i & t & Hi & Ht); [lia|].
  specialize (Hone Hl1 i t Hi Ht).
  assert (Hc : ∃ todo, 0 ≤ todo ∧ jobs.Status j ≠ jobs.StatusPending
                       ∧ jobs.counts
                           (scanner.never_nil_nil
                              (scanner.registry (jobs.runner (jobs.manager σ)))) j todo).
  { destruct (jobs.at_ t); cbn -[Z.of_nat] in Hone.
    - destruct Hone as [Hs Hc]. eexists. split; [|split; [by rewrite Hs|exact Hc]]. lia.
    - destruct Hone as [Hs Hc]. eexists. split; [|split; [by rewrite Hs|exact Hc]]. lia.
    - destruct Hone as [Hs Hc]. eexists. split; [|split; [by rewrite Hs|exact Hc]]. lia.
    - destruct Hone as (Hs & Hc & _).
      eexists. split; [|split; [by rewrite Hs|exact Hc]]. lia.
    - destruct Hone as (Hs & todo & Hpos & Hc).
      exists todo. split; [lia|]. split; [by rewrite Hs|done].
    - destruct Hone as [[Hs Hc]|(Hs & _ & todo & Hpos & Hc)].
      + exists 0. split; [lia|]. split; [by rewrite Hs|done].
      + exists todo. split; [lia|]. split; [by rewrite Hs|done]. }
  destruct Hc as (todo & Hpos & Hs & (H1 & H2 & _)).
  repeat split; try done; try lia.
Qed.

Lemma single_start_counters_in_range_witness :
  let runner :=
    scanner.NewRunner (scanner.Register scanner.NewRegistry (probes.mockScanner "headers")) in
  let evs :=
    [jobs.CallCreate probes.example_com ["headers"; "ssl"] scanner.DefaultOptions 1 2;
     jobs.CallStart "1" 3; jobs.Exec 0 4; jobs.Exec 0 5; jobs.Exec 0 6; jobs.Exec 0 7] in
  ∃ σ j,
    jobs.exec evs (jobs.NewManager runner) = Some σ
    ∧ jobs.heap σ !! 0%nat = Some j
    ∧ jobs.CompletedScanners (jobs.Progress j) = 1
    ∧ Z.of_nat (length (jobs.Results j)) ≤ jobs.CompletedScanners (jobs.Progress j)
    ∧ jobs.CompletedScanners (jobs.Progress j) ≤ jobs.TotalScanners (jobs.Progress j)
    ∧ jobs.TotalScanners (jobs.Progress j) = Z.of_nat (length (jobs.Scanners j))
    ∧ (jobs.Status j = jobs.StatusPending ↔ jobs.launches σ 0 = 0%nat).
Proof.
  intros runner evs. eexists _, _.
  split; [vm_compute; reflexivity|].
  split; [reflexivity|]. split; [reflexivity|].
  eapply (single_start_counters_in_range runner evs _ 0%nat);
    [vm_compute; reflexivity | reflexivity | vm_compute; lia].
Defined.

(** X8: [Create] followed by [Start] of the new id, as the API handler does
    it, cannot fail: [Start] returns nil, the new job is running with its
    start time set, and exactly one goroutine has been launched for it. *)
Theorem Create_then_Start (runner : scanner.Runner) (evs : list jobs.Event)
    (σ : jobs.State) (target : types.Target) (scanners : list string)
    (opts : scanner.Options) (tID tCreated now : Z) :
  jobs.exec evs (jobs.NewManager runner) = Some σ →
  let c := jobs.Create σ target scanners opts tID tCreated in
  let s := jobs.Start c.1 (jobs.newUUID tID) now in
  s.2 = None
  ∧ jobs.heap s.1 !! c.2 =
    Some (jobs.mkJob (jobs.newUUID tID) target scanners opts jobs.StatusRunning [] ""
            (Some tCreated) (Some now) None
            (jobs.mkJobProgress (Z.of_nat (length scanners)) 0 ""))
  ∧ jobs.tasks s.1 = jobs.tasks σ ++ [jobs.mkTask c.2 jobs.Entered]
  ∧ jobs.launches s.1 c.2 = 1%nat.
Proof.
  intros Hexec.
  pose proof (invariant_exec _ _ _ (invariant_NewManager runner) Hexec) as (_ & Htasks & _).
  cbn. unfold jobs.Start. cbn. rewrite lookup_insert_eq. cbn.
  split; [done|]. split; [|split; [done|]].
  - rewrite list_lookup_alter_eq, list_lookup_middle by done. done.
  - unfold jobs.launches. cbn.
    rewrite (count_snoc (λ t, jobs.job t = length (jobs.heap σ))). cbn.
    rewrite decide_True by done.
    destruct (decide (length (filter (λ t, jobs.job t = length (jobs.heap σ))
                        (jobs.tasks σ)) = 0%nat)) as [->|Hne]; [done|].
    destruct (count_witness (λ t, jobs.job t = length (jobs.heap σ)) (jobs.tasks σ))
      as (i & t & Hi & Ht); [lia|].
    specialize (Htasks _ _ Hi). lia.
Qed.

Lemma Create_then_Start_witness :
  let runner := scanner.NewRunner scanner.NewRegistry in
  let σ := jobs.NewManager runner in
  let c := jobs.Create σ probes.example_com ["headers"] scanner.DefaultOptions 7 8 in
  let s := jobs.Start c.1 (jobs.newUUID 7) 9 in
  s.2 = None
  ∧ jobs.heap s.1 !! c.2 =
    Some (jobs.mkJob (jobs.newUUID 7) probes.example_com ["headers"]
            scanner.DefaultOptions jobs.StatusRunning [] ""
            (Some 8) (Some 9) None
            (jobs.mkJobProgress (Z.of_nat (length ["headers"])) 0 ""))
  ∧ jobs.tasks s.1 = jobs.tasks σ ++ [jobs.mkTask c.2 jobs.Entered]
  ∧ jobs.launches s.1 c.2 = 1%nat.
Proof.
  intros runner σ.
  apply (Create_then_Start runner [] σ probes.example_com ["headers"]
           scanner.DefaultOptions 7 8 9).
  reflexivity.
Defined.

(** ** execute never blocks and exits *)

Lemma isExec_other i i0 now : i ≠ i0 → jobs.isExec i (jobs.Exec i0 now) = false.
Proof. intros Hne. cbn. apply bool_decide_eq_false. congruence. Qed.

Lemma countExec_snoc i evs ev :
  jobs.countExec i (evs ++ [ev])
  = (jobs.countExec i evs + if jobs.isExec i ev then 1 else 0)%nat.
Proof.
  unfold jobs.countExec. rewrite (count_snoc (λ ev, jobs.isExec i ev = true)).
  destruct (jobs.isExec i ev) eqn:E; case_decide; congruence.
Qed.

(** How the goroutine at index [i] comes out of a step: as it was, the step
    being someone else's; one step further, the step being its own; or just
    launched. *)
Lemma task_step σ ev σ' i t' :
  jobs.step σ ev = Some σ' → jobs.tasks σ' !! i = Some t' →
  (jobs.tasks σ !! i = Some t' ∧ jobs.isExec i ev = false)
  ∨ (∃ t j, jobs.isExec i ev = true ∧ jobs.tasks σ !! i = Some t
            ∧ jobs.job t' = jobs.job t ∧ jobs.heap σ !! jobs.job t = Some j
            ∧ (jobs.stepsLeft (length (jobs.Scanners j)) (jobs.at_ t')
               < jobs.stepsLeft (length (jobs.Scanners j)) (jobs.at_ t))%nat)
  ∨ (jobs.tasks σ !! i = None ∧ jobs.isExec i ev = false ∧ jobs.at_ t' = jobs.Entered).
Proof.
  intros Hstep Hi. destruct ev as [? ? ? ? ?|jobID now|jobID|i0 now]; cbn in Hstep.
  - injection Hstep as <-. by left.
  - injection Hstep as <-. unfold jobs.Start in Hi.
    destruct (jobs.jobs (jobs.manager σ) !! jobID); [|by left].
    cbn in Hi. apply lookup_app_Some in Hi as [Hi|[Hge Hi]]; [by left|].
    right. right. destruct (i - length (jobs.tasks σ))%nat; [|done].
    injection Hi as <-. split; [by apply lookup_ge_None|done].
  - injection Hstep as <-. unfold jobs.Delete in Hi.
    destruct (jobs.jobs (jobs.manager σ) !! jobID); by left.
  - destruct (decide (i = i0)) as [->|Hne].
    + right. left. unfold jobs.executeStep in Hstep.
      destruct (jobs.tasks σ !! i0) as [t|] eqn:Hi0; [|done].
      destruct (jobs.heap σ !! jobs.job t) as [j|] eqn:Hj; [|done].
      exists t, j. split; [cbn; by apply bool_decide_eq_true|]. split; [done|].
      assert (Hlook : ∀ h pc',
        jobs.tasks (jobs.mkState (jobs.manager σ) h (jobs.setTask σ i0 t pc')) !! i0
        = Some (jobs.mkTask (jobs.job t) pc')).
      { intros h pc'. cbn. unfold jobs.setTask.
        by rewrite list_lookup_insert_eq by (by apply lookup_lt_Some in Hi0). }
      destruct (jobs.at_ t) as [|c [|name rest]|c name rest|c name result err rest|v|];
        try done;
        try (injection Hstep as <-; rewrite Hlook in Hi; injection Hi as <-;
             cbn; repeat split; try done; lia).
      destruct (scanner.RunOne _ _ _ _ _); [| |done]; injection Hstep as <-;
        rewrite Hlook in Hi; injection Hi as <-; cbn; repeat split; try done; lia.
    + left. split; [|by apply isExec_other].
      destruct (executeStep_shape _ _ _ _ Hstep) as (t & j & f & pc' & Hi0 & _ & -> & _).
      cbn in Hi. unfold jobs.setTask in Hi. by rewrite list_lookup_insert_ne in Hi.
Qed.

Lemma steps_accounted runner evs σ :
  jobs.exec evs (jobs.NewManager runner) = Some σ →
  (∀ i, jobs.tasks σ !! i = None → jobs.countExec i evs = 0%nat)
  ∧ ∀ i t j, jobs.tasks σ !! i = Some t → jobs.heap σ !! jobs.job t = Some j →
      (jobs.countExec i evs + jobs.stepsLeft (length (jobs.Scanners j)) (jobs.at_ t)
       ≤ 3 * length (jobs.Scanners j) + 2)%nat.
Proof.
  revert σ. induction evs as [|ev evs IH] using rev_ind; intros σ Hexec.
  - injection Hexec as <-. split; [done|]. by intros i t j.
  - rewrite jobs_exec_snoc in Hexec.
    destruct (jobs.exec evs (jobs.NewManager runner)) as [σ0|] eqn:Hexec0; [|done].
    destruct (IH _ eq_refl) as [IHnone IHsome].
    pose proof (invariant_exec _ _ _ (invariant_NewManager runner) Hexec0)
      as (_ & Htasks & _).
    split.
    + intros i Hi. rewrite countExec_snoc.
      assert (Hi0 : jobs.tasks σ0 !! i = None).
      { destruct (jobs.tasks σ0 !! i) as [t0|] eqn:Hi0; [|done].
        exfalso. destruct ev as [? ? ? ? ?|jobID now|jobID|i0 now]; cbn in Hexec.
        - injection Hexec as <-. cbn in Hi. congruence.
        - injection Hexec as <-. unfold jobs.Start in Hi.
          destruct (jobs.jobs (jobs.manager σ0) !! jobID); cbn in Hi; [|congruence].
          apply lookup_ge_None in Hi. apply lookup_lt_Some in Hi0.
          rewrite length_app in Hi. lia.
        - injection Hexec as <-. unfold jobs.Delete in Hi.
          destruct (jobs.jobs (jobs.manager σ0) !! jobID); cbn in Hi; congruence.
        - destruct (executeStep_shape _ _ _ _ Hexec) as (t & j & f & pc' & _ & _ & -> & _).
          cbn in Hi. unfold jobs.setTask in Hi. apply lookup_ge_None in Hi.
          rewrite length_insert in Hi. apply lookup_lt_Some in Hi0. lia. }
      rewrite (IHnone _ Hi0).
      destruct ev as [? ? ? ? ?|jobID now|jobID|i0 now]; try done.
      cbn. destruct (decide (i0 = i)) as [->|Hne];
        [|by rewrite bool_decide_eq_false_2].
      cbn in Hexec. unfold jobs.executeStep in Hexec. by rewrite Hi0 in Hexec.
    + intros i t j Hi Hj. rewrite countExec_snoc.
      destruct (task_step _ _ _ _ _ Hexec Hi)
        as [[Hi0 Hev]|[(t0 & j0 & Hev & Hi0 & Hjob & Hj0 & Hlt)|(Hi0 & Hev & Hpc)]];
        rewrite Hev.
      * specialize (Htasks _ _ Hi0).
        destruct (jobs.heap σ0 !! jobs.job t) as [j0|] eqn:Hj0;
          [|by apply lookup_ge_None in Hj0; lia].
        destruct (heap_static_step _ _ _ _ _ Hexec Hj0) as (j' & Hj' & _ & Hsc).
        rewrite Hj in Hj'. injection Hj' as <-. rewrite Hsc.
        specialize (IHsome _ _ _ Hi0 Hj0). lia.
      * destruct (heap_static_step _ _ _ _ _ Hexec Hj0) as (j' & Hj' & _ & Hsc).
        rewrite <- Hjob, Hj in Hj'. injection Hj' as <-. rewrite Hsc.
        specialize (IHsome _ _ _ Hi0 Hj0). lia.
      * rewrite (IHnone _ Hi0), Hpc. cbn. lia.
Qed.

Lemma RunOne_Blocked r c name target opts :
  scanner.RunOne r c name target opts = scanner.Blocked →
  ∃ s, scanner.scanners (scanner.registry r) !! name = Some s
       ∧ scanner.Run s c target opts = scanner.Blocked.
Proof.
  unfold scanner.RunOne, scanner.Get.
  destruct (scanner.scanners (scanner.registry r) !! name) as [s|]; [|done].
  intros Hrun. by exists s.
Qed.

Lemma executeStep_None σ i t j now :
  jobs.tasks σ !! i = Some t → jobs.heap σ !! jobs.job t = Some j →
  jobs.executeStep σ i now = None
  ↔ jobs.at_ t = jobs.Exited
    ∨ ∃ c name rest,
        jobs.at_ t = jobs.Calling c name rest
        ∧ scanner.RunOne (jobs.runner (jobs.manager σ)) (Go.observe c now) name
            (jobs.Target j) (jobs.Options j) = scanner.Blocked.
Proof.
  intros Hi Hj. unfold jobs.executeStep. rewrite Hi, Hj.
  destruct (jobs.at_ t) as [|c [|name rest]|c name rest|c name result err rest|v|];
    try (split; [done|by intros [?|(? & ? & ? & ? & _)]]).
  - destruct (scanner.RunOne _ _ _ _ _) eqn:Hrun.
    + split; [done|]. intros [?|(c' & name' & rest' & [= <- <- <-] & Hb)]; [done|].
      by rewrite Hrun in Hb.
    + split; [done|]. intros [?|(c' & name' & rest' & [= <- <- <-] & Hb)]; [done|].
      by rewrite Hrun in Hb.
    + split; [|done]. intros _. right. by exists c, name, rest.
  - split; [by left|done].
Qed.

(** A goroutine whose scanners all return can be run to its end. *)
Lemma execute_can_exit n σ i t j :
  scanner.never_blocks (scanner.registry (jobs.runner (jobs.manager σ))) →
  jobs.tasks σ !! i = Some t → jobs.heap σ !! jobs.job t = Some j →
  (jobs.stepsLeft (length (jobs.Scanners j)) (jobs.at_ t) ≤ n)%nat →
  ∃ nows σ' t',
    (length nows ≤ n)%nat
    ∧ jobs.exec (jobs.Exec i <$> nows) σ = Some σ'
    ∧ jobs.tasks σ' !! i = Some t' ∧ jobs.at_ t' = jobs.Exited.
Proof.
  revert σ t j. induction n as [|n IH]; intros σ t j Hblock Hi Hj Hn.
  - exists [], σ, t. split; [done|]. split; [done|]. split; [done|].
    destruct (jobs.at_ t) as [|c [|name rest]|c name rest|c name result err rest|v|];
      cbn in Hn; (done || lia).
  - assert (jobs.at_ t = jobs.Exited ∨ jobs.at_ t ≠ jobs.Exited) as [Hex|Hne]
      by (destruct (jobs.at_ t); (by left) || (by right)).
    { exists [], σ, t. split; [cbn; lia|]. by split. }
    destruct (jobs.executeStep σ i 0) as [σ1|] eqn:Hstep.
    + destruct (executeStep_shape _ _ _ _ Hstep)
        as (t0 & _ & f & pc' & Hi0 & _ & Hσ1 & _).
      rewrite Hi in Hi0. injection Hi0 as <-.
      assert (Hi1 : jobs.tasks σ1 !! i = Some (jobs.mkTask (jobs.job t) pc')).
      { rewrite Hσ1. cbn. unfold jobs.setTask.
        by rewrite list_lookup_insert_eq by (by apply lookup_lt_Some in Hi). }
      destruct (task_step σ (jobs.Exec i 0) σ1 i _ Hstep Hi1)
        as [[_ Hev]|[(t0 & j0 & _ & Hi0 & _ & Hj0 & Hlt)|(Hnone & _)]].
      * cbn in Hev. by rewrite bool_decide_eq_true_2 in Hev.
      * rewrite Hi in Hi0. injection Hi0 as <-. rewrite Hj in Hj0. injection Hj0 as <-.
        cbn in Hlt.
        destruct (heap_static_step σ (jobs.Exec i 0) σ1 _ _ Hstep Hj)
          as (j1 & Hj1 & _ & Hsc).
        destruct (IH σ1 (jobs.mkTask (jobs.job t) pc') j1)
          as (nows & σ' & t' & Hlen & Hexec & Hi' & Hex'); try done.
        -- by rewrite (runner_step σ (jobs.Exec i 0) σ1 Hstep).
        -- rewrite Hsc. cbn. lia.
        -- exists (0 :: nows), σ', t'. split; [cbn; lia|]. cbn.
           change (jobs.step σ (jobs.Exec i 0)) with (jobs.executeStep σ i 0).
           by rewrite Hstep.
      * by rewrite Hi in Hnone.
    + exfalso. apply (executeStep_None σ i t j 0 Hi Hj) in Hstep
        as [?|(c & name & rest & _ & Hb)]; [done|].
      apply RunOne_Blocked in Hb as (s & Hs & Hrun). by apply (Hblock _ _ _ _ _ Hs Hrun).
Qed.

(** X9: a goroutine of [execute] waits for nothing but its scanners, and it
    takes at most [3 * len(scanners) + 2] steps in any execution, whatever
    the other goroutines and the callers of the manager do.  At any moment
    its next step can be taken unless it has exited or it is inside
    [RunOne] and the scanner does not return under the context as it stands.
    So if no registered scanner blocks, the goroutine can always go on, and
    running it alone takes it to its end in the steps that are left; a
    scanner that does not return keeps it where it is. *)
Theorem execute_exits (runner : scanner.Runner) (evs : list jobs.Event)
    (σ : jobs.State) (i : nat) (t : jobs.Task) (j : jobs.Job) :
  jobs.exec evs (jobs.NewManager runner) = Some σ →
  jobs.tasks σ !! i = Some t →
  jobs.heap σ !! jobs.job t = Some j →
  (jobs.countExec i evs + jobs.stepsLeft (length (jobs.Scanners j)) (jobs.at_ t)
   ≤ 3 * length (jobs.Scanners j) + 2)%nat
  ∧ (∀ now,
       jobs.executeStep σ i now = None
       ↔ jobs.at_ t = jobs.Exited
         ∨ ∃ c name rest,
             jobs.at_ t = jobs.Calling c name rest
             ∧ scanner.RunOne runner (Go.observe c now) name (jobs.Target j)
                 (jobs.Options j) = scanner.Blocked)
  ∧ (scanner.never_blocks (scanner.registry runner) →
     (jobs.at_ t ≠ jobs.Exited → ∀ now, is_Some (jobs.executeStep σ i now))
     ∧ ∃ nows σ' t',
         (length nows ≤ jobs.stepsLeft (length (jobs.Scanners j)) (jobs.at_ t))%nat
         ∧ jobs.exec (jobs.Exec i <$> nows) σ = Some σ'
         ∧ jobs.tasks σ' !! i = Some t' ∧ jobs.at_ t' = jobs.Exited).
Proof.
  intros Hexec Hi Hj.
  pose proof (runner_exec _ _ _ Hexec) as Hrunner. cbn in Hrunner.
  split; [by apply (proj2 (steps_accounted runner evs σ Hexec))|].
  split.
  - intros now. rewrite (executeStep_None σ i t j now Hi Hj). by rewrite Hrunner.
  - intros Hblock. split.
    + intros Hne now. destruct (jobs.executeStep σ i now) eqn:Hstep; [by eexists|].
      apply (executeStep_None σ i t j now Hi Hj) in Hstep
        as [?|(c & name & rest & _ & Hb)]; [done|].
      rewrite Hrunner in Hb.
      apply RunOne_Blocked in Hb as (s & Hs & Hrun). by destruct (Hblock _ _ _ _ _ Hs Hrun).
    + apply (execute_can_exit _ σ i t j); try done. by rewrite Hrunner.
Qed.

Lemma execute_exits_witness :
  let runner :=
    scanner.NewRunner (scanner.Register scanner.NewRegistry (probes.mockScanner "headers")) in
  let evs :=
    [jobs.CallCreate probes.example_com ["headers"] scanner.DefaultOptions 1 2;
     jobs.CallStart "1" 3; jobs.Exec 0 4; jobs.Exec 0 5] in
  ∃ σ t j,
    jobs.exec evs (jobs.NewManager runner) = Some σ
    ∧ jobs.tasks σ !! 0%nat = Some t
    ∧ jobs.heap σ !! jobs.job t = Some j
    ∧ jobs.countExec 0 evs = 2%nat
    ∧ jobs.stepsLeft (length (jobs.Scanners j)) (jobs.at_ t) = 3%nat
    ∧ (jobs.countExec 0 evs + jobs.stepsLeft (length (jobs.Scanners j)) (jobs.at_ t)
       ≤ 3 * length (jobs.Scanners j) + 2)%nat
    ∧ ∀ now, is_Some (jobs.executeStep σ 0 now).
Proof.
  intros runner evs.
  eassert (Hexec : jobs.exec evs (jobs.NewManager runner) = Some _)
    by (vm_compute; reflexivity).
  eexists _, _, _. split; [exact Hexec|].
  split; [reflexivity|]. split; [reflexivity|]. split; [reflexivity|].
  split; [reflexivity|].
  destruct (execute_exits runner evs _ 0%nat _ _ Hexec eq_refl eq_refl)
    as (Hbound & _ & Hgo).
  split; [exact Hbound|].
  refine (proj1 (Hgo _) _); [|discriminate].
  intros n s c t o H. cbn in H.
  apply lookup_insert_Some in H as [[_ <-]|[_ H]]; [done|by rewrite lookup_empty in H].
Defined.

(** A scanner that never returns, in a job without timeout: the goroutine
    stays inside [RunOne] and the job stays running, at every later
    instant. *)
Example execute_waits_for_a_blocked_scanner :
  let runner :=
    scanner.NewRunner
      (scanner.Register scanner.NewRegistry (probes.blockedScanner "slow")) in
  ∃ σ j,
    jobs.exec
      [jobs.CallCreate probes.example_com ["slow"] (scanner.mkOptions 0 0 false []) 1 2;
       jobs.CallStart "1" 3; jobs.Exec 0 4; jobs.Exec 0 5] (jobs.NewManager runner) = Some σ
    ∧ jobs.heap σ !! 0%nat = Some j
    ∧ jobs.Status j = jobs.StatusRunning
    ∧ ∀ now, jobs.executeStep σ 0 now = None.
Proof.
  intros runner. eexists _, _.
  split; [vm_compute; reflexivity|]. split; [reflexivity|]. split; [reflexivity|].
  intros now. reflexivity.
Qed.

(** ** A proof rule for jobs that are started once *)

Section JobRule.
Variable runner : scanner.Runner.
Variable fresh : jobs.Job → Prop.
Variable ok : jobs.Job → jobs.execPC → Prop.

Hypothesis fresh_Create : ∀ target scanners opts tID tCreated,
  fresh (jobs.mkJob (jobs.newUUID tID) target scanners opts jobs.StatusPending [] ""
           (Some tCreated) None None
           (jobs.mkJobProgress (Z.of_nat (length scanners)) 0 "")).
Hypothesis ok_Start : ∀ j now, fresh j → ok (jobs.setRunning now j) jobs.Entered.
Hypothesis ok_Entered : ∀ j now,
  ok j jobs.Entered → ok j (jobs.Looping (jobs.executeContext j now) (jobs.Scanners j)).
Hypothesis ok_Looping : ∀ j c name rest,
  ok j (jobs.Looping c (name :: rest)) →
  ok (jobs.setCurrent name j) (jobs.Calling c name rest).
Hypothesis ok_Calling : ∀ j c name rest now,
  ok j (jobs.Calling c name rest) →
  match scanner.RunOne runner (Go.observe c now) name (jobs.Target j) (jobs.Options j) with
  | scanner.Returned result err => ok j (jobs.Got c name result err rest)
  | scanner.Panicked v => ok j (jobs.Recovering v)
  | scanner.Blocked => True
  end.
Hypothesis ok_Got : ∀ j c name result err rest,
  ok j (jobs.Got c name result err rest) →
  ok (jobs.record name result err j) (jobs.Looping c rest).
Hypothesis ok_Completed : ∀ j c now,
  ok j (jobs.Looping c []) → ok (jobs.setCompleted now j) jobs.Exited.
Hypothesis ok_Failed : ∀ j v now,
  ok j (jobs.Recovering v) → ok (jobs.setFailed v now j) jobs.Exited.

Lemma holdsFor_NewManager : jobs.holdsFor fresh ok (jobs.NewManager runner).
Proof.
  repeat split; cbn; intros *; try by rewrite ?lookup_empty, ?lookup_nil.
Qed.

Lemma holdsFor_update σ i t j0 f pc' :
  jobs.holdsFor fresh ok σ →
  jobs.tasks σ !! i = Some t →
  jobs.heap σ !! jobs.job t = Some j0 →
  (ok j0 (jobs.at_ t) → ok (f j0) pc') →
  jobs.holdsFor fresh ok
    (jobs.mkState (jobs.manager σ) (alter f (jobs.job t) (jobs.heap σ))
       (jobs.setTask σ i t pc')).
Proof.
  intros (Hmap & Htasks & Hjobs) Hi Hj0 Hok.
  split; [|split].
  - cbn. intros id p Hp. rewrite length_alter. by apply (Hmap id).
  - cbn. intros i' t' Hi'. rewrite length_alter. unfold jobs.setTask in Hi'.
    destruct (decide (i = i')) as [<-|Hne].
    + rewrite list_lookup_insert_eq in Hi' by (by apply lookup_lt_Some in Hi).
      injection Hi' as <-. cbn. by apply (Htasks i).
    + rewrite list_lookup_insert_ne in Hi' by done. by apply (Htasks i').
  - intros p j Hp. rewrite launches_setTask by done. cbn in Hp.
    destruct (decide (jobs.job t = p)) as [<-|Hne].
    + rewrite list_lookup_alter_eq, Hj0 in Hp. injection Hp as <-.
      destruct (Hjobs _ _ Hj0) as (_ & Hone). split.
      * intros Hzero.
        pose proof (count_pos (λ t', jobs.job t' = jobs.job t) _ _ _ Hi eq_refl) as Hpos.
        unfold jobs.launches in Hzero. lia.
      * intros Hl i' t' Hi' Hjt'. cbn in Hi'. unfold jobs.setTask in Hi'.
        destruct (decide (i = i')) as [<-|Hne].
        -- rewrite list_lookup_insert_eq in Hi' by (by apply lookup_lt_Some in Hi).
           injection Hi' as <-. cbn. apply Hok. by apply (Hone Hl i).
        -- rewrite list_lookup_insert_ne in Hi' by done.
           pose proof (count_two (λ t', jobs.job t' = jobs.job t) _ _ _ _ _
                         Hi Hi' Hne eq_refl Hjt') as H2.
           unfold jobs.launches in Hl. lia.
    + rewrite list_lookup_alter_ne in Hp by done.
      destruct (Hjobs _ _ Hp) as (Hzero & Hone). split; [done|].
      intros Hl i' t' Hi' Hjt'. cbn in Hi'. unfold jobs.setTask in Hi'.
      destruct (decide (i = i')) as [<-|Hne'].
      * rewrite list_lookup_insert_eq in Hi' by (by apply lookup_lt_Some in Hi).
        injection Hi' as <-. by cbn in Hjt'.
      * rewrite list_lookup_insert_ne in Hi' by done. by apply (Hone Hl i').
Qed.

Lemma holdsFor_step σ ev σ' :
  jobs.runner (jobs.manager σ) = runner →
  jobs.holdsFor fresh ok σ → jobs.step σ ev = Some σ' → jobs.holdsFor fresh ok σ'.
Proof.
  intros Hrun Hinv. destruct ev as [target scanners opts tID tCreated|jobID now|jobID|i now];
    cbn.
  - (* Create *)
    intros [= <-]. destruct Hinv as (Hmap & Htasks & Hjobs). split; [|split]; cbn.
    + intros id p. rewrite length_app. cbn.
      destruct (decide (jobs.newUUID tID = id)) as [<-|Hne].
      * rewrite lookup_insert_eq. intros [= <-]. lia.
      * rewrite lookup_insert_ne by done. intros Hp. specialize (Hmap _ _ Hp). lia.
    + intros i t Hi. rewrite length_app. specialize (Htasks _ _ Hi). lia.
    + intros p j Hp. unfold jobs.launches. cbn.
      destruct (decide (p < length (jobs.heap σ))%nat) as [Hlt|Hge].
      * rewrite lookup_app_l in Hp by done. by apply Hjobs.
      * rewrite lookup_app_r in Hp by lia.
        destruct (p - length (jobs.heap σ))%nat as [|n] eqn:Hn; [|done].
        injection Hp as <-. split; [by intros _|].
        intros _ i t Hi Hjt. specialize (Htasks _ _ Hi). lia.
  - (* Start *)
    intros [= <-]. unfold jobs.Start.
    destruct (jobs.jobs (jobs.manager σ) !! jobID) as [p0|] eqn:Hid; [|done].
    destruct Hinv as (Hmap & Htasks & Hjobs). split; [|split]; cbn.
    + intros id p. rewrite length_alter. apply Hmap.
    + intros i t. rewrite length_alter. intros Hi.
      apply lookup_app_Some in Hi as [Hi|[_ Hi]]; [by apply (Htasks i)|].
      destruct (i - length (jobs.tasks σ))%nat; [|done].
      injection Hi as <-. cbn. by apply (Hmap jobID).
    + intros p j Hp. unfold jobs.launches. cbn.
      rewrite (count_snoc (λ t, jobs.job t = p)). cbn.
      destruct (decide (p0 = p)) as [<-|Hne].
      * specialize (Hmap _ _ Hid).
        destruct (jobs.heap σ !! p0) as [j0|] eqn:Hj0;
          [|by apply lookup_ge_None in Hj0; lia].
        rewrite list_lookup_alter_eq, Hj0 in Hp. injection Hp as <-.
        destruct (Hjobs _ _ Hj0) as (Hzero & _).
        split; [lia|].
        intros Hl i t Hi Hjt.
        assert (Hz : jobs.launches σ p0 = 0%nat) by (unfold jobs.launches; lia).
        apply lookup_app_Some in Hi as [Hi|[_ Hi]].
        -- pose proof (count_pos (λ t, jobs.job t = p0) _ _ _ Hi Hjt).
           unfold jobs.launches in Hz. lia.
        -- destruct (i - length (jobs.tasks σ))%nat; [|done].
           injection Hi as <-. cbn. by apply ok_Start, Hzero.
      * rewrite list_lookup_alter_ne in Hp by done.
        destruct (Hjobs _ _ Hp) as (Hzero & Hone).
        rewrite Nat.add_0_r. split; [done|].
        intros Hl i t Hi Hjt.
        apply lookup_app_Some in Hi as [Hi|[_ Hi]]; [by apply (Hone Hl i)|].
        destruct (i - length (jobs.tasks σ))%nat; [|done].
        injection Hi as <-. by cbn in Hjt.
  - (* Delete *)
    intros [= <-]. unfold jobs.Delete.
    destruct (jobs.jobs (jobs.manager σ) !! jobID) as [p0|] eqn:Hid; [|done].
    destruct Hinv as (Hmap & Htasks & Hjobs). split; [|split]; cbn; [|done|done].
    intros id p Hp. apply lookup_delete_Some in Hp as [_ Hp]. by apply (Hmap id).
  - (* a step of execute *)
    unfold jobs.executeStep.
    destruct (jobs.tasks σ !! i) as [t|] eqn:Hi; [|done].
    destruct (jobs.heap σ !! jobs.job t) as [j0|] eqn:Hj0; [|done].
    assert (Hid : ∀ pc', (ok j0 (jobs.at_ t) → ok j0 pc') →
      jobs.holdsFor fresh ok
        (jobs.mkState (jobs.manager σ) (jobs.heap σ) (jobs.setTask σ i t pc'))).
    { intros pc' Hok.
      rewrite <- (list_alter_id id (jobs.heap σ) (jobs.job t)) by done.
      by apply (holdsFor_update σ i t j0 id pc'). }
    destruct (jobs.at_ t) as [|c [|name rest]|c name rest|c name result err rest|v|]
      eqn:Hpc; try done.
    + intros [= <-]. apply Hid. apply ok_Entered.
    + intros [= <-]. apply (holdsFor_update σ i t j0); try done.
      rewrite Hpc. apply ok_Completed.
    + intros [= <-]. apply (holdsFor_update σ i t j0); try done.
      rewrite Hpc. apply ok_Looping.
    + rewrite Hrun. pose proof (ok_Calling j0 c name rest now) as Hcall.
      destruct (scanner.RunOne _ _ _ _ _); intros [= <-]; by apply Hid.
    + intros [= <-]. apply (holdsFor_update σ i t j0); try done.
      rewrite Hpc. apply ok_Got.
    + intros [= <-]. apply (holdsFor_update σ i t j0); try done.
      rewrite Hpc. apply ok_Failed.
Qed.

Lemma holdsFor_exec evs σ :
  jobs.exec evs (jobs.NewManager runner) = Some σ → jobs.holdsFor fresh ok σ.
Proof.
  revert σ. induction evs as [|ev evs IH] using rev_ind; intros σ Hexec.
  - injection Hexec as <-. apply holdsFor_NewManager.
  - rewrite jobs_exec_snoc in Hexec.
    destruct (jobs.exec evs (jobs.NewManager runner)) as [σ0|] eqn:Hexec0; [|done].
    apply (holdsFor_step σ0 ev); [|by apply IH|done].
    by rewrite (runner_exec _ _ _ Hexec0).
Qed.

End JobRule.

(** ** The results of a job follow its list of scanners *)

Lemma record_Results name result err j :
  jobs.Results (jobs.record name result err j)
  = jobs.Results j ++ omap id [jobs.entry name (jobs.Target j) result err].
Proof.
  cbn. destruct err; [|destruct result]; cbn; by rewrite ?app_nil_r.
Qed.

Lemma holdsFor_order runner evs σ :
  jobs.exec evs (jobs.NewManager runner) = Some σ →
  jobs.holdsFor (λ j, jobs.Results j = []) (jobs.order_ok runner) σ.
Proof.
  apply holdsFor_exec; cbn; try done.
  - intros j now Hr. exists []. split; [done|]. exists []. by split.
  - intros j c name rest now Hok.
    destruct (scanner.RunOne _ _ _ _ _) as [result err|v|] eqn:Hrun; [|done..].
    split; [done|]. by eexists.
  - intros j c name result err rest [(done & Hsc & outs & Hall & Hres) (c' & Hrun)].
    exists (done ++ [name]). split; [by rewrite Hsc, <- app_assoc|].
    exists (outs ++ [jobs.entry name (jobs.Target j) result err]). split.
    + apply Forall2_app; [done|]. constructor; [|constructor]. by exists c', result, err.
    + change (jobs.Results (jobs.record name result err j)
              = omap id (outs ++ [jobs.entry name (jobs.Target j) result err])).
      by rewrite record_Results, omap_app, Hres.
  - intros j c now (done & Hsc & Hord). right. by rewrite Hsc, app_nil_r.
  - intros j v now _. by left.
Qed.

Lemma Forall2_omap_Some {A B} (P : A → option B → Prop) (l : list A)
    (outs : list (option B)) :
  Forall2 P l outs → (∀ a o, P a o → is_Some o) →
  Forall2 (λ a x, P a (Some x)) l (omap id outs).
Proof.
  intros Hall Hsome. induction Hall as [|a o l outs Hao _ IH]; [done|].
  destruct (Hsome _ _ Hao) as [x ->]. cbn. by constructor.
Qed.

Lemma Forall2_fmap_eq {A B} (f : B → A) (l : list A) (k : list B) :
  Forall2 (λ a x, f x = a) l k → f <$> k = l.
Proof. induction 1 as [|a x l k Hax _ IH]; [done|]. cbn. by rewrite Hax, IH. Qed.

Lemma outcomeOf_Some runner target opts name o :
  scanner.never_nil_nil (scanner.registry runner) →
  jobs.outcomeOf runner target opts name o → is_Some o.
Proof.
  intros Hnil (c & result & err & Hrun & <-).
  unfold scanner.RunOne, scanner.Get in Hrun.
  destruct (scanner.scanners (scanner.registry runner) !! name) as [s|] eqn:Hs.
  - destruct err; [by eexists|]. destruct result; [by eexists|].
    by destruct (Hnil _ _ _ _ _ Hs Hrun).
  - injection Hrun as <- <-. by eexists.
Qed.

Lemma outcomeOf_name runner target opts name x :
  scanner.reports_own_name (scanner.registry runner) →
  jobs.outcomeOf runner target opts name (Some x) → types.ScannerName x = name.
Proof.
  intros Hown (c & result & err & Hrun & Hent).
  destruct err as [e|]; [by injection Hent as <-|].
  destruct result as [y|]; [|done]. injection Hent as ->.
  unfold scanner.RunOne, scanner.Get in Hrun.
  destruct (scanner.scanners (scanner.registry runner) !! name) as [s|] eqn:Hs; [|done].
  by apply (Hown _ _ _ _ _ _ Hs Hrun).
Qed.

(** X10: when a job that was started once is completed, its results are in
    the order of its scanner list: they are what [RunOne] gave for the first
    name, the second, and so on, a failure entry standing for an error and
    nothing for a nil, nil outcome.  If no scanner returns nil, nil there is
    exactly one result per name; if moreover every scanner puts its own name
    in its results, the scanner names of the results are the list of the
    job. *)
Theorem results_follow_the_names (runner : scanner.Runner) (evs : list jobs.Event)
    (σ : jobs.State) (p : nat) (j : jobs.Job) :
  jobs.exec evs (jobs.NewManager runner) = Some σ →
  jobs.heap σ !! p = Some j →
  (jobs.launches σ p ≤ 1)%nat →
  jobs.Status j = jobs.StatusCompleted →
  (∃ outs, Forall2 (jobs.outcomeOf runner (jobs.Target j) (jobs.Options j))
             (jobs.Scanners j) outs
           ∧ jobs.Results j = omap id outs)
  ∧ (scanner.never_nil_nil (scanner.registry runner) →
     Forall2 (λ name x, jobs.outcomeOf runner (jobs.Target j) (jobs.Options j) name (Some x))
       (jobs.Scanners j) (jobs.Results j)
     ∧ (scanner.reports_own_name (scanner.registry runner) →
        types.ScannerName <$> jobs.Results j = jobs.Scanners j)).
Proof.
  intros Hexec Hj Hl Hs.
  pose proof (invariant_exec _ _ _ (invariant_NewManager runner) Hexec) as Hinv.
  destruct (final_job_task σ p j Hinv Hj (or_introl Hs) Hl) as (Hl1 & Hex).
  destruct (holdsFor_order runner evs σ Hexec) as (_ & _ & Hjobs).
  destruct (Hjobs _ _ Hj) as (_ & Hone).
  destruct (launched_task σ p) as (i & t & Hi & Ht); [lia|].
  specialize (Hone Hl1 i t Hi Ht). rewrite (Hex _ _ Hi Ht) in Hone. cbn in Hone.
  destruct Hone as [Hf|(outs & Hall & Hres)]; [by rewrite Hs in Hf|].
  split; [by exists outs|]. intros Hnil.
  assert (Hall' : Forall2
    (λ name x, jobs.outcomeOf runner (jobs.Target j) (jobs.Options j) name (Some x))
    (jobs.Scanners j) (jobs.Results j)).
  { rewrite Hres. apply Forall2_omap_Some; [done|].
    intros name o. by apply outcomeOf_Some. }
  split; [done|]. intros Hown. apply Forall2_fmap_eq.
  eapply Forall2_impl; [exact Hall'|]. intros name x. by apply outcomeOf_name.
Qed.

Lemma mock_reports_own_name name :
  scanner.reports_own_name (scanner.Register scanner.NewRegistry (probes.mockScanner name)).
Proof.
  intros n s c t o x H. cbn in H.
  apply lookup_insert_Some in H as [[<- <-]|[_ H]]; [|by rewrite lookup_empty in H].
  cbn. by intros [= <-].
Qed.

Lemma results_follow_the_names_witness :
  let runner :=
    scanner.NewRunner (scanner.Register scanner.NewRegistry (probes.mockScanner "headers")) in
  let evs :=
    [jobs.CallCreate probes.example_com ["headers"; "ssl"] scanner.DefaultOptions 1 2;
     jobs.CallStart "1" 3; jobs.Exec 0 4; jobs.Exec 0 5; jobs.Exec 0 6; jobs.Exec 0 7;
     jobs.Exec 0 8; jobs.Exec 0 9; jobs.Exec 0 10; jobs.Exec 0 11] in
  ∃ σ j,
    jobs.exec evs (jobs.NewManager runner) = Some σ
    ∧ jobs.heap σ !! 0%nat = Some j
    ∧ types.ScannerName <$> jobs.Results j = ["headers"; "ssl"]
    ∧ types.ScannerName <$> jobs.Results j = jobs.Scanners j.
Proof.
  intros runner evs. eexists _, _.
  split; [vm_compute; reflexivity|].
  split; [reflexivity|]. split; [reflexivity|].
  eapply (proj2 (results_follow_the_names runner evs _ 0%nat _ _ _ _ _)
            (mock_never_nil_nil "headers")).
  apply (mock_reports_own_name "headers").
  Unshelve. all: try reflexivity. all: vm_compute; lia.
Defined.

(* ===================================================================== *)
(** * Further properties of the registry and the runner                   *)
(* ===================================================================== *)

Lemma registered_snoc l s :
  scanner.registered (l ++ [s]) = scanner.Register (scanner.registered l) s.
Proof. unfold scanner.registered. by rewrite foldl_app. Qed.

Lemma registered_lookup l name :
  scanner.scanners (scanner.registered l) !! name
  = last (filter (λ s, scanner.Name s = name) l).
Proof.
  induction l as [|s l IH] using rev_ind; [done|].
  rewrite registered_snoc, filter_app, last_app.
  unfold scanner.Register. cbn [scanner.scanners].
  destruct (decide (scanner.Name s = name)) as [<-|Hne].
  - rewrite filter_cons_True by done. by rewrite lookup_insert_eq.
  - rewrite filter_cons_False by done. by rewrite lookup_insert_ne.
Qed.

Lemma last_filter_is_Some {A} (P : A → Prop) `{∀ x, Decision (P x)} (l : list A) :
  is_Some (last (filter P l)) ↔ ∃ x, x ∈ l ∧ P x.
Proof.
  split.
  - intros [x Hx]. exists x. apply last_Some in Hx as [l' Hl'].
    assert (Hin : x ∈ filter P l) by (rewrite Hl'; apply elem_of_app; right; by left).
    by apply list_elem_of_filter in Hin as [? ?].
  - intros (x & Hin & HP).
    assert (Hin' : x ∈ filter P l) by by apply list_elem_of_filter.
    destruct (last (filter P l)) eqn:Hl; [by eexists|].
    apply last_None in Hl. rewrite Hl in Hin'. by apply elem_of_nil in Hin'.
Qed.

(** X11: the registry after any sequence of registrations.  [Get] of a name
    gives the scanner that was registered last under that name, and fails
    exactly for a name that was never registered.  In whatever order [All]
    lists the map, it has one scanner for each name that was registered,
    and a scanner is in it exactly when it is the last one registered under
    its name. *)
Theorem registry_keeps_latest (l : list scanner.Scanner) :
  let r := scanner.registered l in
  (∀ name,
     scanner.Get r name =
     match last (filter (λ s, scanner.Name s = name) l) with
     | Some s => inl s
     | None => inr (Go.errorString ("scanner " +:+ Go.Quote name +:+ " not found"))
     end)
  ∧ (∀ name, is_Some (scanner.scanners r !! name) ↔ name ∈ scanner.Name <$> l)
  ∧ ∀ all : list scanner.Scanner, all ≡ₚ scanner.All r →
      scanner.Name <$> all ≡ₚ remove_dups (scanner.Name <$> l)
      ∧ ∀ s, s ∈ all ↔ last (filter (λ s', scanner.Name s' = scanner.Name s) l) = Some s.
Proof.
  intros r.
  assert (Hdom : ∀ name,
    is_Some (scanner.scanners r !! name) ↔ name ∈ scanner.Name <$> l).
  { intros name. unfold r. rewrite registered_lookup, last_filter_is_Some.
    rewrite list_elem_of_fmap. split.
    - intros (s & Hin & <-). by exists s.
    - intros (s & -> & Hin). by exists s. }
  split; [|split; [done|]].
  - intros name. unfold scanner.Get, r. by rewrite registered_lookup.
  - intros all Hall. pose proof (keyed_registered l) as Hk. fold r in Hk. split.
    + rewrite Hall, (All_names r Hk). apply NoDup_Permutation.
      * apply NoDup_fst_map_to_list.
      * apply NoDup_remove_dups.
      * intros name. rewrite elem_of_remove_dups, <- Hdom.
        rewrite list_elem_of_fmap. split.
        -- intros ([k s] & -> & Hin). apply elem_of_map_to_list in Hin. by exists s.
        -- intros [s Hs]. exists (name, s). split; [done|]. by apply elem_of_map_to_list.
    + intros s. rewrite Hall. unfold scanner.All. rewrite list_elem_of_fmap.
      rewrite <- (registered_lookup l (scanner.Name s)). fold r. split.
      * intros ([k s'] & -> & Hin). apply elem_of_map_to_list in Hin. cbn.
        by rewrite (Hk _ _ Hin).
      * intros Hs. exists (scanner.Name s, s). split; [done|].
        by apply elem_of_map_to_list.
Qed.

(** ** RunAll ends under every schedule *)

Section RunAllEnds.
Variable r : scanner.Runner.
Variable target : types.Target.
Variable opts : scanner.Options.





End RunAllEnds.



(** A scanner whose [Run] does not return keeps [RunAll] in [wg.Wait()]:
    once its worker is inside the call, no schedule makes [RunAll] return,
    with or without a cancellation of the context. *)
Example RunAll_waits_for_a_blocked_scanner (evs : list scanner.Event) (σ : scanner.State) :
  let r := scanner.NewRunner
             (scanner.Register scanner.NewRegistry (probes.blockedScanner "hang")) in
  scanner.exec r probes.example_com scanner.DefaultOptions
    ([scanner.Main; scanner.Main; scanner.Send 0] ++ evs)
    (scanner.start Go.Background ["hang"]) = Some σ →
  scanner.main σ = scanner.Waiting ∧ scanner.panic σ = None
  ∧ Forall (λ ev, ∃ e, ev = scanner.Cancel e) evs ∧ (length evs ≤ 1)%nat.
Proof.
  intros r. rewrite RunAll_exec_app.
  set (σ0 := scanner.exec r _ _ [scanner.Main; scanner.Main; scanner.Send 0] _).
  vm_compute in σ0. subst σ0. cbn [mbind option_bind].
  destruct evs as [|ev evs];
    [intros [= <-]; repeat split; [by constructor|cbn; lia]|].
  destruct ev as [|i|i|i|e]; cbn [scanner.exec].
  1-4: try destruct i as [|i]; by vm_compute.
  destruct evs as [|ev evs];
    [intros [= <-]; repeat split; [|cbn; lia];
     constructor; [by eexists|by constructor]|].
  destruct ev as [|i|i|i|e']; try destruct i as [|i]; by vm_compute.
Qed.

(** A scanner that waits for its context to be done: its worker cannot go
    on before the context is cancelled; once it is, [Run] returns the error
    of the context and [RunAll] returns with the failure entry for it. *)
Example RunAll_waits_for_the_cancellation :
  let r := scanner.NewRunner
             (scanner.Register scanner.NewRegistry (probes.waitingScanner "wait")) in
  scanner.exec r probes.example_com scanner.DefaultOptions
    [scanner.Main; scanner.Main; scanner.Send 0; scanner.Next 0]
    (scanner.start Go.Background ["wait"]) = None
  ∧ scanner.RunAll r probes.example_com scanner.DefaultOptions Go.Background ["wait"]
      [scanner.Main; scanner.Main; scanner.Send 0; scanner.Cancel Go.Canceled;
       scanner.Next 0; scanner.Next 0; scanner.Next 0; scanner.Next 0; scanner.Main]
    = Some [types.failure "wait" probes.example_com "context canceled"].
Proof. by vm_compute. Qed.

(** ** Every entry comes from a requested name *)

(** X13: [RunAll] invents nothing.  Under every schedule, each entry of the
    slice it returns belongs to one of the requested names: it is the
    not-found entry of a name that is not registered, or, for a registered
    name, an entry its worker made at some moment of the run, under the
    context of the call as it stood at that moment (with the cancellation,
    if one had happened by then): the result the scanner returned under
    that context, or the failure entry for the error the scanner returned
    under it, or the failure entry for the error that context carried.  If
    the registry holds every scanner under its own name and the scanners
    put their own name into their results, the scanner name of every entry
    is one of the requested names. *)
Theorem RunAll_entries_are_sourced (r : scanner.Runner) (target : types.Target)
    (opts : scanner.Options) (c : Go.Context) (names : list string)
    (evs : list scanner.Event) (out : list types.ScanResult) :
  scanner.RunAll r target opts c names evs = Some out →
  Forall (scanner.sourced r target opts c evs names) out
  ∧ (scanner.keyed (scanner.registry r) →
     scanner.reports_own_name (scanner.registry r) →
     ∀ x, x ∈ out → types.ScannerName x ∈ names).
Proof.
  unfold scanner.RunAll.
  destruct (scanner.exec r target opts evs (scanner.start c names)) as [σ|] eqn:Hexec;
    [|done].
  pose proof (provenance_exec r target opts c names _ _ Hexec) as (_ & _ & Hmain & _).
  destruct (scanner.main σ) as [rest|snap x rest| |out'] eqn:Hm; try done.
  intros [= <-]. split; [done|].
  intros Hk Hown x Hx.
  destruct (proj1 (Forall_forall _ _) Hmain x Hx) as (name & Hin & Hsrc).
  unfold scanner.entryOf, scanner.Get in Hsrc.
  destruct (scanner.scanners (scanner.registry r) !! name) as [s|] eqn:Hs.
  - destruct Hsrc as (evs0 & i & [[_ (e & _ & ->)]|[_ [(result & e & _ & ->)|Hrun]]]);
      cbn.
    + by rewrite (Hk _ _ Hs).
    + by rewrite (Hk _ _ Hs).
    + by rewrite (Hown _ _ _ _ _ _ Hs Hrun).
  - by rewrite Hsrc.
Qed.

Lemma mock_keyed name :
  scanner.keyed (scanner.Register scanner.NewRegistry (probes.mockScanner name)).
Proof. apply keyed_Register. intros k s. cbn. by rewrite lookup_empty. Qed.

Lemma RunAll_entries_are_sourced_witness :
  let r := scanner.NewRunner (scanner.Register scanner.NewRegistry (probes.mockScanner "a")) in
  let evs :=
    [scanner.Main; scanner.Main; scanner.Main; scanner.Send 0; scanner.Next 0;
     scanner.Next 0; scanner.Next 0; scanner.Next 0; scanner.Main; scanner.Main] in
  ∃ out,
    scanner.RunAll r probes.example_com scanner.DefaultOptions Go.Background
      ["zzz"; "a"] evs = Some out
    ∧ length out = 2%nat
    ∧ Forall (scanner.sourced r probes.example_com scanner.DefaultOptions
                Go.Background evs ["zzz"; "a"]) out
    ∧ ∀ x, x ∈ out → types.ScannerName x ∈ ["zzz"; "a"].
Proof.
  intros r evs.
  eassert (Hrun : scanner.RunAll r probes.example_com scanner.DefaultOptions
                    Go.Background ["zzz"; "a"] evs = Some _)
    by (vm_compute; reflexivity).
  eexists. split; [exact Hrun|]. split; [reflexivity|].
  destruct (RunAll_entries_are_sourced r probes.example_com scanner.DefaultOptions
              Go.Background ["zzz"; "a"] evs _ Hrun) as [Hsrc Hnames].
  split; [exact Hsrc|].
  exact (Hnames (mock_keyed "a") (mock_reports_own_name "a")).
Defined.

(** ** Names that are not registered *)

Section RunAllMissing.
Variable r : scanner.Runner.
Variable target : types.Target.
Variable opts : scanner.Options.
Variable names : list string.
Hypothesis Hnone : Forall (λ name, scanner.known r name = false) names.

Lemma unknown_Get name :
  name ∈ names →
  scanner.Get (scanner.registry r) name
  = inr (Go.errorString ("scanner " +:+ Go.Quote name +:+ " not found")).
Proof.
  intros Hin. pose proof (proj1 (Forall_forall _ _) Hnone name Hin) as Hk.
  unfold scanner.known in Hk. apply bool_decide_eq_false in Hk.
  unfold scanner.Get. destruct (scanner.scanners (scanner.registry r) !! name); [|done].
  destruct Hk. by eexists.
Qed.

Lemma onlyMissing_step σ ev σ' :
  scanner.onlyMissing target names σ →
  scanner.step r target opts σ ev = Some σ' →
  scanner.onlyMissing target names σ'
  ∧ (ev = scanner.Main ∨ ∃ e, ev = scanner.Cancel e).
Proof.
  intros (Hws & Hp & Hmain). unfold scanner.step. rewrite Hp.
  destruct ev as [|i|i|i|e].
  - intros Hs. split; [|by left]. unfold scanner.mainStep in Hs.
    destruct (scanner.main σ) as [[|name rest]|snap x rest| |out] eqn:Hm.
    + injection Hs as <-. destruct Hmain as (done & Hn & Hres).
      split; [done|]. split; [done|]. cbn. by rewrite Hn, app_nil_r.
    + destruct Hmain as (done & Hn & Hres).
      rewrite unknown_Get in Hs
        by (rewrite Hn; apply elem_of_app; right; by left).
      injection Hs as <-. split; [done|]. split; [done|]. cbn.
      by exists done, name.
    + injection Hs as <-. destruct Hmain as (done & name & Hn & -> & ->).
      split; [done|]. split; [done|]. cbn.
      exists (done ++ [name]). split; [by rewrite Hn, <- app_assoc|].
      by rewrite fmap_app.
    + rewrite Hws in Hs. cbn in Hs. injection Hs as <-. by split.
    + done.
  - unfold scanner.sendStep. by rewrite Hws.
  - unfold scanner.recvStep. by rewrite Hws.
  - unfold scanner.nextStep. by rewrite Hws.
  - intros Hs. split; [|by right; eexists]. unfold scanner.cancelStep in Hs.
    destruct (Go.Err (scanner.ctx σ)); [done|]. by injection Hs as <-.
Qed.

Lemma onlyMissing_exec evs σ σ' :
  scanner.onlyMissing target names σ →
  scanner.exec r target opts evs σ = Some σ' →
  scanner.onlyMissing target names σ'
  ∧ Forall (λ ev, ev = scanner.Main ∨ ∃ e, ev = scanner.Cancel e) evs.
Proof.
  revert σ. induction evs as [|ev evs IH]; intros σ Hinv; cbn.
  - by intros [= <-].
  - destruct (scanner.step r target opts σ ev) as [σ1|] eqn:Hs; [|done]. intros Hexec.
    destruct (onlyMissing_step _ _ _ Hinv Hs) as [Hinv1 Hev].
    destruct (IH _ Hinv1 Hexec) as [Hinv' Hevs]. split; [done|]. by constructor.
Qed.

End RunAllMissing.

(** X14: when none of the requested names is registered, [RunAll] starts no
    goroutine, only the calling goroutine takes steps (and the context may
    be cancelled), and under every schedule the slice returned has exactly
    the not-found entry of each name, in the order of the names; the
    context, cancelled or not, plays no part in it. *)
Theorem RunAll_unregistered_names (r : scanner.Runner) (target : types.Target)
    (opts : scanner.Options) (c : Go.Context) (names : list string)
    (evs : list scanner.Event) (out : list types.ScanResult) :
  Forall (λ name, scanner.known r name = false) names →
  scanner.RunAll r target opts c names evs = Some out →
  out = scanner.missing target <$> names
  ∧ Forall (λ ev, ev = scanner.Main ∨ ∃ e, ev = scanner.Cancel e) evs.
Proof.
  intros Hnone. unfold scanner.RunAll.
  destruct (scanner.exec r target opts evs (scanner.start c names)) as [σ|] eqn:Hexec;
    [|done].
  assert (H0 : scanner.onlyMissing target names (scanner.start c names)).
  { split; [done|]. split; [done|]. cbn. by exists []. }
  destruct (onlyMissing_exec r target opts names Hnone _ _ _ H0 Hexec)
    as [(_ & _ & Hmain) Hevs].
  destruct (scanner.main σ) as [rest|snap x rest| |out']; try done.
  by intros [= <-].
Qed.

Lemma RunAll_unregistered_names_witness :
  let r := scanner.NewRunner (scanner.Register scanner.NewRegistry (probes.mockScanner "a")) in
  let evs := [scanner.Main; scanner.Main; scanner.Cancel Go.Canceled; scanner.Main;
              scanner.Main; scanner.Main; scanner.Main] in
  Forall (λ name, scanner.known r name = false) ["ssl"; "dns"]
  ∧ scanner.RunAll r probes.example_com scanner.DefaultOptions Go.Background
      ["ssl"; "dns"] evs
    = Some (scanner.missing probes.example_com <$> ["ssl"; "dns"])
  ∧ Forall (λ ev, ev = scanner.Main ∨ ∃ e, ev = scanner.Cancel e) evs.
Proof.
  intros r evs.
  assert (Hnone : Forall (λ name, scanner.known r name = false) ["ssl"; "dns"])
    by (repeat constructor).
  assert (Hrun : scanner.RunAll r probes.example_com scanner.DefaultOptions
                   Go.Background ["ssl"; "dns"] evs
                 = Some (scanner.missing probes.example_com <$> ["ssl"; "dns"]))
    by (vm_compute; reflexivity).
  split; [exact Hnone|]. split; [exact Hrun|].
  exact (proj2 (RunAll_unregistered_names r probes.example_com scanner.DefaultOptions
                  Go.Background ["ssl"; "dns"] evs _ Hnone Hrun)).
Defined.

(* ===================================================================== *)
(** * Properties of the HTTP handlers                                     *)
(* ===================================================================== *)

(** ** The status of a job *)

Lemma statuses_alter (f : jobs.Job → jobs.Job) (q : nat) (l : list jobs.Job) :
  (∀ x, jobs.Status x ∈ jobs.statuses → jobs.Status (f x) ∈ jobs.statuses) →
  Forall (λ j, jobs.Status j ∈ jobs.statuses) l →
  Forall (λ j, jobs.Status j ∈ jobs.statuses) (alter f q l).
Proof.
  intros Hf Hl. apply Forall_lookup. intros p j'.
  destruct (decide (q = p)) as [->|Hne].
  - rewrite list_lookup_alter_eq. destruct (l !! p) as [j|] eqn:Hp; [|done].
    intros [= <-]. apply Hf. by apply (proj1 (Forall_lookup _ _) Hl p).
  - rewrite list_lookup_alter_ne by done. by apply (proj1 (Forall_lookup _ _) Hl p).
Qed.

Lemma statuses_step σ ev σ' :
  jobs.step σ ev = Some σ' →
  Forall (λ j, jobs.Status j ∈ jobs.statuses) (jobs.heap σ) →
  Forall (λ j, jobs.Status j ∈ jobs.statuses) (jobs.heap σ').
Proof.
  intros Hstep Hall. destruct ev as [? ? ? ? ?|jobID now|jobID|i now]; cbn in Hstep.
  - injection Hstep as <-. cbn. apply Forall_app. split; [done|].
    apply Forall_singleton. cbn. by left.
  - injection Hstep as <-. unfold jobs.Start.
    destruct (jobs.jobs (jobs.manager σ) !! jobID); [|done].
    cbn. apply statuses_alter; [|done]. intros x _. cbn. right. by left.
  - injection Hstep as <-. unfold jobs.Delete.
    by destruct (jobs.jobs (jobs.manager σ) !! jobID).
  - destruct (executeStep_shape _ _ _ _ Hstep) as (t & j0 & f & pc' & _ & _ & -> & _ & Hf).
    cbn. apply statuses_alter; [|done]. intros x Hx.
    destruct Hf as [->|[[name ->]|[(name & result & err & ->)|[->|(v & -> & _)]]]];
      cbn; try done.
    + right. right. by left.
    + right. right. right. by left.
Qed.

Lemma statuses_exec runner evs σ :
  jobs.exec evs (jobs.NewManager runner) = Some σ →
  Forall (λ j, jobs.Status j ∈ jobs.statuses) (jobs.heap σ).
Proof.
  revert σ. induction evs as [|ev evs IH] using rev_ind; intros σ.
  - intros [= <-]. by apply Forall_nil.
  - rewrite jobs_exec_snoc.
    destruct (jobs.exec evs (jobs.NewManager runner)) as [σ0|] eqn:H0; [|done].
    intros Hs. apply (statuses_step σ0 ev); [done|by apply IH].
Qed.

Lemma statuses_cases (s : jobs.JobStatus) :
  s ∈ jobs.statuses →
  s = jobs.StatusPending ∨ s = jobs.StatusRunning
  ∨ s = jobs.StatusCompleted ∨ s = jobs.StatusFailed.
Proof.
  intros H. repeat (apply elem_of_cons in H as [H|H]; [tauto|]).
  by apply elem_of_nil in H.
Qed.

Lemma hasRunning_false (jobList : list jobs.Job) :
  Forall (λ j, jobs.Status j ∈ jobs.statuses) jobList →
  pages.hasRunning jobList = false
  ↔ Forall (λ j, jobs.Status j = jobs.StatusCompleted
                 ∨ jobs.Status j = jobs.StatusFailed) jobList.
Proof.
  induction 1 as [|j l Hj _ IH]; cbn.
  - split; [by intros _; apply Forall_nil|done].
  - unfold pages.hasRunning in IH. rewrite orb_false_iff, IH, Forall_cons.
    assert (Hhead :
      (String.eqb (jobs.Status j) jobs.StatusRunning
       || String.eqb (jobs.Status j) jobs.StatusPending) = false
      ↔ jobs.Status j = jobs.StatusCompleted ∨ jobs.Status j = jobs.StatusFailed).
    { destruct (statuses_cases _ Hj) as [E|[E|[E|E]]]; rewrite E; cbn; intuition discriminate. }
    by rewrite Hhead.
Qed.

(** X15: in every state the manager can reach, whatever is started how
    often, the status of every job is one of pending, running, completed and
    failed.  So [ScanList] reports no running scan exactly when every job it
    lists is completed or failed; and [GetScanReport], which always finds a
    job behind an id that [Get] knows, answers 404 exactly for an unknown
    id and 409 exactly for a job that is pending, running or failed. *)
Theorem handlers_read_the_status (runner : scanner.Runner) (evs : list jobs.Event)
    (σ : jobs.State) :
  jobs.exec evs (jobs.NewManager runner) = Some σ →
  (∀ p j, jobs.heap σ !! p = Some j → jobs.Status j ∈ jobs.statuses)
  ∧ (∀ jobList, Forall (λ j, j ∈ jobs.heap σ) jobList →
       pages.hasRunning jobList = false
       ↔ Forall (λ j, jobs.Status j = jobs.StatusCompleted
                      ∨ jobs.Status j = jobs.StatusFailed) jobList)
  ∧ ∀ render id,
      is_Some (api.GetScanReport render σ id)
      ∧ (api.GetScanReport render σ id = Some api.StatusNotFound
         ↔ jobs.jobs (jobs.manager σ) !! id = None)
      ∧ (api.GetScanReport render σ id = Some api.StatusConflict
         ↔ ∃ p j, jobs.jobs (jobs.manager σ) !! id = Some p ∧ jobs.heap σ !! p = Some j
                  ∧ jobs.Status j ∈ [jobs.StatusPending; jobs.StatusRunning;
                                     jobs.StatusFailed]).
Proof.
  intros Hexec. pose proof (statuses_exec runner evs σ Hexec) as Hall.
  pose proof (invariant_exec _ _ _ (invariant_NewManager runner) Hexec) as (Hmap & _ & _).
  split; [|split].
  - intros p j Hp. by apply (proj1 (Forall_lookup _ _) Hall p).
  - intros jobList Hin. apply hasRunning_false.
    eapply Forall_impl; [exact Hin|]. intros j Hj. cbn in Hj.
    by apply (proj1 (Forall_forall _ _) Hall).
  - intros render id. unfold api.GetScanReport, jobs.Get.
    destruct (jobs.jobs (jobs.manager σ) !! id) as [p|] eqn:Hid.
    + destruct (lookup_lt_is_Some_2 (jobs.heap σ) p (Hmap _ _ Hid)) as [j Hj].
      rewrite Hj.
      pose proof (proj1 (Forall_lookup _ _) Hall p j Hj) as Hs. cbn in Hs.
      split; [|split].
      * destruct (negb _); [by eexists|]. destruct (render _); by eexists.
      * split; [|done].
        destruct (negb _); [done|]. by destruct (render _).
      * split.
        -- intros Hc. exists p, j. split; [done|]. split; [done|].
           destruct (statuses_cases _ Hs) as [E|[E|[E|E]]]; rewrite E in *; cbn in *.
           ++ by left.
           ++ right. by left.
           ++ by destruct (render _).
           ++ right. right. by left.
        -- intros (p' & j' & [= <-] & Hj' & Hs'). rewrite Hj in Hj'. injection Hj' as <-.
           repeat (apply elem_of_cons in Hs' as [Hs'|Hs']; [by rewrite Hs'|]).
           by apply elem_of_nil in Hs'.
    + split; [by eexists|]. split; [done|]. split; [done|].
      by intros (p & j & ? & _).
Qed.

Lemma handlers_read_the_status_witness :
  let runner :=
    scanner.NewRunner (scanner.Register scanner.NewRegistry (probes.mockScanner "headers")) in
  let evs :=
    [jobs.CallCreate probes.example_com ["headers"] scanner.DefaultOptions 1 2;
     jobs.CallStart "1" 3; jobs.Exec 0 4] in
  ∃ σ,
    jobs.exec evs (jobs.NewManager runner) = Some σ
    ∧ api.GetScanReport (λ _, None) σ "1" = Some api.StatusConflict
    ∧ api.GetScanReport (λ _, None) σ "2" = Some api.StatusNotFound
    ∧ ∀ p j, jobs.heap σ !! p = Some j → jobs.Status j ∈ jobs.statuses.
Proof.
  intros runner evs.
  eassert (Hexec : jobs.exec evs (jobs.NewManager runner) = Some _)
    by (vm_compute; reflexivity).
  eexists. split; [exact Hexec|]. split; [reflexivity|]. split; [reflexivity|].
  exact (proj1 (handlers_read_the_status runner evs _ Hexec)).
Defined.

(** ** CreateScan *)

Lemma capacity_of_positive opts :
  1 ≤ scanner.Concurrency opts → scanner.capacity opts = scanner.Concurrency opts.
Proof. intros H. unfold scanner.capacity. destruct (Z.ltb_spec (scanner.Concurrency opts) 1); lia. Qed.

(** X16: what [decodeCreateScanRequest] lets through.  An accepted request
    has a target, a concurrency of at least 1 (10 standing for 0) and a
    timeout that is empty or parses; nothing else of the body is changed,
    and an accepted request is accepted again as it is.  The options
    [CreateScan] builds from it have that concurrency, which is then also
    the capacity [RunAll] would use, and as timeout 5 s or the duration
    parsed, never the zero the handler would take for a parse error.  A
    rejected request has an empty target, a negative concurrency or a
    timeout that does not parse. *)
Theorem CreateScan_request_validation
    (ParseDuration : string → Go.Duration + Go.error) (req : api.CreateScanRequest) :
  (∀ req', api.validate ParseDuration req = inl req' →
     api.Target req' = api.Target req ∧ api.Target req ≠ ""
     ∧ api.Scanners req' = api.Scanners req ∧ api.Timeout req' = api.Timeout req
     ∧ 0 ≤ api.Concurrency req
     ∧ api.Concurrency req'
       = (if api.Concurrency req =? 0 then 10 else api.Concurrency req)
     ∧ api.validate ParseDuration req' = inl req'
     ∧ scanner.Concurrency (api.options ParseDuration req') = api.Concurrency req'
     ∧ scanner.capacity (api.options ParseDuration req') = api.Concurrency req'
     ∧ ((api.Timeout req = ""
         ∧ scanner.Timeout (api.options ParseDuration req') = 5 * Go.Second)
        ∨ (api.Timeout req ≠ ""
           ∧ ParseDuration (api.Timeout req)
             = inl (scanner.Timeout (api.options ParseDuration req')))))
  ∧ (∀ err, api.validate ParseDuration req = inr err →
       (api.Target req = "" ∧ Go.Error err = "target is required")
       ∨ (api.Target req ≠ "" ∧ api.Concurrency req < 0
          ∧ Go.Error err = "concurrency must be non-negative")
       ∨ (api.Target req ≠ "" ∧ 0 ≤ api.Concurrency req ∧ api.Timeout req ≠ ""
          ∧ ∃ e, ParseDuration (api.Timeout req) = inr e
                 ∧ err = Go.wrapError
                           ("invalid timeout " +:+ Go.Quote (api.Timeout req) +:+ ": "
                            +:+ Go.Error e) e)).
Proof.
  destruct req as [target names conc timeout]. unfold api.validate, api.options. cbn.
  destruct (String.eqb_spec target "") as [->|Ht]; cbn.
  { split; [done|]. intros err [= <-]. by left. }
  destruct (Z.ltb_spec conc 0) as [Hneg|Hpos]; cbn.
  { split; [done|]. intros err [= <-]. right. by left. }
  assert (Hconc : ∀ c', c' = (if conc =? 0 then 10 else conc) →
            1 ≤ c' ∧ (c' <? 0) = false ∧ (c' =? 0) = false).
  { intros c' ->. destruct (Z.eqb_spec conc 0); lia. }
  destruct (String.eqb_spec timeout "") as [->|Hto]; cbn.
  - split; [|by destruct (conc =? 0)].
    intros req' Hreq'.
    assert (req' = api.mkCreateScanRequest target names
                     (if conc =? 0 then 10 else conc) "") as ->
      by (destruct (conc =? 0); by injection Hreq' as <-).
    destruct (Hconc _ eq_refl) as (H1 & H2 & H3). cbn.
    destruct (String.eqb_spec target "") as [|_]; [done|]. rewrite H2, H3. cbn.
    repeat split; try done. { by apply capacity_of_positive. } by left.
  - assert (Hcase : (if conc =? 0
                     then api.mkCreateScanRequest target names 10 timeout
                     else api.mkCreateScanRequest target names conc timeout)
                    = api.mkCreateScanRequest target names
                        (if conc =? 0 then 10 else conc) timeout)
      by (by destruct (conc =? 0)).
    rewrite Hcase. cbn.
    destruct (String.eqb_spec timeout "") as [|_]; [done|]. cbn.
    destruct (ParseDuration timeout) as [d|e] eqn:Hd.
    + split; [|done]. intros req' [= <-]. cbn.
      destruct (Hconc _ eq_refl) as (H1 & H2 & H3).
      destruct (String.eqb_spec target "") as [|_]; [done|]. rewrite H2, H3. cbn.
      destruct (String.eqb_spec timeout "") as [|_]; [done|]. cbn. rewrite Hd.
      repeat split; try done. { by apply capacity_of_positive. } by right.
    + split; [done|]. intros err [= <-]. right. right.
      repeat split; try done. by exists e.
Qed.

Lemma CreateScan_request_validation_witness :
  let ParseDuration := λ s : string,
    if String.eqb s "30s" then inl (30 * Go.Second)
    else inr (Go.errorString "time: invalid duration") in
  let req := api.mkCreateScanRequest "example.com" [] 0 "30s" in
  ∃ req',
    api.validate ParseDuration req = inl req'
    ∧ api.Concurrency req' = 10
    ∧ scanner.capacity (api.options ParseDuration req') = api.Concurrency req'
    ∧ api.validate ParseDuration req' = inl req'.
Proof.
  intros ParseDuration req. eexists. split; [reflexivity|]. split; [reflexivity|].
  destruct (proj1 (CreateScan_request_validation ParseDuration req) _ eq_refl)
    as (_ & _ & _ & _ & _ & _ & Hidem & _ & Hcap & _).
  split; [exact Hcap|exact Hidem].
Defined.

Lemma All_registered_names l all :
  all ≡ₚ scanner.All (scanner.registered l) →
  NoDup (scanner.Name <$> all)
  ∧ ∀ name, name ∈ scanner.Name <$> all
            ↔ is_Some (scanner.scanners (scanner.registered l) !! name).
Proof.
  intros Hall. pose proof (keyed_registered l) as Hk.
  split; [rewrite Hall, (All_names _ Hk); apply NoDup_fst_map_to_list|].
  intros name. rewrite Hall, (All_names _ Hk), list_elem_of_fmap. split.
  - intros ([k s] & -> & Hin). apply elem_of_map_to_list in Hin. by exists s.
  - intros [s Hs]. exists (name, s). split; [done|]. by apply elem_of_map_to_list.
Qed.

(** X17: the scanners of a scan created over the API.  With no scanner list
    in the request, or with the list ["all"], [CreateScan] asks for every
    registered scanner once: the names are pairwise distinct, each is
    registered, so [RunOne] finds it, and each registered name is among
    them.  Any other list is passed on as it is, also one that has "all"
    next to other names. *)
Theorem CreateScan_scanner_names (l : list scanner.Scanner)
    (all : list scanner.Scanner) (req : api.CreateScanRequest) :
  all ≡ₚ scanner.All (scanner.registered l) →
  let names := api.scannerNames req all in
  (api.Scanners req = [] ∨ api.Scanners req = ["all"] →
   NoDup names
   ∧ (∀ name, name ∈ names ↔ name ∈ scanner.Name <$> l)
   ∧ ∀ name, name ∈ names →
       ∃ s, scanner.Get (scanner.registered l) name = inl s ∧ scanner.Name s = name)
  ∧ (api.Scanners req ≠ [] → api.Scanners req ≠ ["all"] → names = api.Scanners req).
Proof.
  intros Hall names. destruct (All_registered_names l all Hall) as [Hnd Hin].
  split.
  - intros Hdefault.
    assert (Hnames : names = scanner.Name <$> all).
    { unfold names, api.scannerNames. by destruct Hdefault as [-> | ->]. }
    rewrite Hnames. split; [done|]. split.
    + intros name. rewrite Hin, registered_lookup, last_filter_is_Some.
      rewrite list_elem_of_fmap. split.
      * intros (s & Hs & <-). by exists s.
      * intros (s & -> & Hs). by exists s.
    + intros name [s Hs]%Hin. exists s. unfold scanner.Get. rewrite Hs.
      split; [done|]. by apply (keyed_registered l).
  - intros Hne Hall'. unfold names, api.scannerNames.
    destruct (api.Scanners req) as [|name [|name' rest]]; try done. cbn.
    destruct (String.eqb_spec name "all") as [->|_]; done.
Qed.

Lemma CreateScan_scanner_names_witness :
  let l := [probes.mockScanner "ssl"; probes.nilScanner "headers"; probes.headersScanner] in
  let all := scanner.All (scanner.registered l) in
  let req := api.mkCreateScanRequest "example.com" ["all"] 0 "" in
  NoDup (api.scannerNames req all)
  ∧ ∀ name, name ∈ api.scannerNames req all ↔ name ∈ ["ssl"; "headers"; "headers"].
Proof.
  intros l all req.
  destruct (proj1 (CreateScan_scanner_names l all req (reflexivity _)) (or_intror eq_refl))
    as (Hnd & Hin & _).
  split; [exact Hnd|exact Hin].
Defined.

(* ===================================================================== *)
(** * Properties of the report formatters                                 *)
(* ===================================================================== *)

Lemma length_filter_cons {A} (P : A → Prop) `{∀ x, Decision (P x)} (x : A) (l : list A) :
  length (filter P (x :: l))
  = ((if decide (P x) then 1 else 0) + length (filter P l))%nat.
Proof.
  destruct (decide (P x)); [by rewrite filter_cons_True|by rewrite filter_cons_False].
Qed.

Lemma having_app sev l k :
  output.having sev (l ++ k) = output.having sev l + output.having sev k.
Proof. unfold output.having. rewrite filter_app, length_app. lia. Qed.

Lemma having_cons sev f l :
  output.having sev (f :: l)
  = (if String.eqb (types.Severity_ f) sev then 1 else 0) + output.having sev l.
Proof.
  unfold output.having. rewrite length_filter_cons.
  destruct (String.eqb_spec (types.Severity_ f) sev); case_decide; try done; lia.
Qed.

Lemma countSeverity_inner sev fs n :
  foldl (λ n f, if String.eqb (types.Severity_ f) sev then n + 1 else n) n fs
  = n + output.having sev fs.
Proof.
  revert n. induction fs as [|f fs IH]; intros n; cbn [foldl].
  - unfold output.having. cbn. lia.
  - rewrite IH, having_cons. destruct (String.eqb _ _); lia.
Qed.

Lemma countSeverity_outer sev rs n :
  foldl (λ n r,
           foldl (λ n f, if String.eqb (types.Severity_ f) sev then n + 1 else n)
             n (types.Findings r)) n rs
  = n + output.having sev (output.allFindings rs).
Proof.
  revert n. induction rs as [|r rs IH]; intros n; cbn [foldl].
  - unfold output.having. cbn. lia.
  - rewrite IH, countSeverity_inner. unfold output.allFindings. cbn.
    rewrite having_app. lia.
Qed.

Lemma findingsCount_outer rs n :
  foldl (λ n r, n + Z.of_nat (length (types.Findings r))) n rs
  = n + Z.of_nat (length (output.allFindings rs)).
Proof.
  revert n. induction rs as [|r rs IH]; intros n; cbn [foldl].
  - cbn. lia.
  - rewrite IH. unfold output.allFindings. cbn. rewrite length_app. lia.
Qed.

Lemma SeverityRank_range s : 0 ≤ types.SeverityRank s ≤ 5.
Proof. unfold types.SeverityRank. repeat (destruct (String.eqb _ _); [lia|]). lia. Qed.

Lemma bucket_one (s : types.Severity) :
  1 = (if String.eqb s types.SeverityCritical then 1 else 0)
      + (if String.eqb s types.SeverityHigh then 1 else 0)
      + (if String.eqb s types.SeverityMedium then 1 else 0)
      + (if String.eqb s types.SeverityLow then 1 else 0)
      + (if String.eqb s types.SeverityInfo then 1 else 0)
      + Z.of_nat (if decide (types.SeverityRank s = 5) then 1 else 0).
Proof.
  unfold types.SeverityRank.
  destruct (String.eqb_spec s types.SeverityCritical) as [->|_]; [by vm_compute|].
  destruct (String.eqb_spec s types.SeverityHigh) as [->|_]; [by vm_compute|].
  destruct (String.eqb_spec s types.SeverityMedium) as [->|_]; [by vm_compute|].
  destruct (String.eqb_spec s types.SeverityLow) as [->|_]; [by vm_compute|].
  destruct (String.eqb_spec s types.SeverityInfo) as [->|_]; [by vm_compute|].
  by rewrite decide_True.
Qed.

(** Every finding is counted in exactly one place. *)
Lemma buckets fs :
  Z.of_nat (length fs)
  = output.having types.SeverityCritical fs + output.having types.SeverityHigh fs
    + output.having types.SeverityMedium fs + output.having types.SeverityLow fs
    + output.having types.SeverityInfo fs + output.unranked fs.
Proof.
  induction fs as [|f fs IH].
  - by cbn.
  - rewrite !having_cons. unfold output.unranked in *.
    rewrite length_filter_cons, Nat2Z.inj_add. cbn [length]. rewrite Nat2Z.inj_succ.
    pose proof (bucket_one (types.Severity_ f)). lia.
Qed.

Lemma unranked_zero fs :
  output.unranked fs = 0
  ↔ Forall (λ f, types.SeverityRank (types.Severity_ f) < 5) fs.
Proof.
  unfold output.unranked. induction fs as [|f fs IH].
  - split; [by intros _; apply Forall_nil|done].
  - rewrite length_filter_cons, Forall_cons, <- IH.
    pose proof (SeverityRank_range (types.Severity_ f)).
    case_decide; lia.
Qed.

(** X18: the numbers of the HTML report.  The total [findingsCount] is the
    sum of the five badges [countSeverity] for critical, high, medium, low
    and info plus the number of findings whose severity is none of these
    five; so the badges add up to the total exactly when every finding has
    one of the five severities.  A finding of another severity is shown
    with the class of an info finding although the info badge does not
    count it: [severityClass] gives "info" exactly for rank 4 and 5.  The
    total is the [FindingCount] of a job with these results. *)
Theorem report_counts (results : list types.ScanResult) :
  let badges :=
    output.countSeverity results types.SeverityCritical
    + output.countSeverity results types.SeverityHigh
    + output.countSeverity results types.SeverityMedium
    + output.countSeverity results types.SeverityLow
    + output.countSeverity results types.SeverityInfo in
  output.findingsCount results = badges + output.unranked (output.allFindings results)
  ∧ badges ≤ output.findingsCount results
  ∧ (badges = output.findingsCount results
     ↔ Forall (λ f, types.SeverityRank (types.Severity_ f) < 5)
         (output.allFindings results))
  ∧ (∀ sev, output.severityClass sev = "info" ↔ 4 ≤ types.SeverityRank sev)
  ∧ ∀ j, jobs.Results j = results → jobs.FindingCount j = output.findingsCount results.
Proof.
  intros badges.
  assert (Htotal : output.findingsCount results
                   = badges + output.unranked (output.allFindings results)).
  { unfold badges, output.findingsCount, output.countSeverity.
    rewrite findingsCount_outer, !countSeverity_outer.
    rewrite (buckets (output.allFindings results)). lia. }
  split; [done|]. split; [|split; [|split]].
  - rewrite Htotal. unfold output.unranked. lia.
  - rewrite <- unranked_zero. lia.
  - intros sev. unfold output.severityClass, types.SeverityRank.
    repeat (destruct (String.eqb _ _); [split; [discriminate|lia]|]).
    destruct (String.eqb _ _); split; (done || lia).
  - by intros j <-.
Qed.

(** ** The summary line of the Markdown and the table formatter *)

Lemma total_insert (m : gmap string Z) (k : string) (v : Z) :
  map_fold (λ _ c total, total + c) 0 (<[k:=v]> m)
  = map_fold (λ _ c total, total + c) 0 m - default 0 (m !! k) + v.
Proof.
  destruct (m !! k) as [c|] eqn:Hk; cbn.
  - rewrite <- (insert_delete_eq m k v).
    rewrite map_fold_insert_L; [|intros; lia|apply lookup_delete_eq].
    rewrite (map_fold_delete_L _ _ k c m); [lia|intros; lia|done].
  - rewrite map_fold_insert_L; [lia|intros; lia|done].
Qed.

Lemma tally_snoc fs f :
  output.tally (fs ++ [f])
  = <[types.Severity_ f := default 0 (output.tally fs !! types.Severity_ f) + 1]>
      (output.tally fs).
Proof. unfold output.tally. by rewrite foldl_app. Qed.

Lemma tally_lookup fs sev :
  default 0 (output.tally fs !! sev) = output.having sev fs.
Proof.
  induction fs as [|f fs IH] using rev_ind; [done|].
  rewrite tally_snoc, having_app, having_cons.
  destruct (String.eqb_spec (types.Severity_ f) sev) as [->|Hne].
  - rewrite lookup_insert_eq. cbn. rewrite IH. unfold output.having at 3. cbn. lia.
  - rewrite lookup_insert_ne by done. rewrite IH. unfold output.having at 3. cbn. lia.
Qed.

Lemma tally_total fs :
  map_fold (λ _ c total, total + c) 0 (output.tally fs) = Z.of_nat (length fs).
Proof.
  induction fs as [|f fs IH] using rev_ind; [done|].
  rewrite tally_snoc, total_insert, IH, length_app, Nat2Z.inj_add.
  change (Z.of_nat (length [f])) with 1.
  unfold types.Severity in *.
  destruct (output.tally fs !! types.Severity_ f); cbn; lia.
Qed.

(** X19: the summary line under a table of findings.  After the loop over
    the findings of a result, the total that [markdownSummary] and
    [formatSummary] print is the number of rows of the table, and the five
    counts are the numbers of findings of severity critical, high, medium,
    low and info.  The five add up to the total exactly when every finding
    has one of these severities; a finding of another severity is in the
    total only. *)
Theorem summary_counts (findings : list types.Finding) :
  let five :=
    output.having types.SeverityCritical findings
    + output.having types.SeverityHigh findings
    + output.having types.SeverityMedium findings
    + output.having types.SeverityLow findings
    + output.having types.SeverityInfo findings in
  output.summary (output.tally findings)
  = (Z.of_nat (length findings),
     [output.having types.SeverityCritical findings;
      output.having types.SeverityHigh findings;
      output.having types.SeverityMedium findings;
      output.having types.SeverityLow findings;
      output.having types.SeverityInfo findings])
  ∧ Z.of_nat (length findings) = five + output.unranked findings
  ∧ (five = Z.of_nat (length findings)
     ↔ Forall (λ f, types.SeverityRank (types.Severity_ f) < 5) findings).
Proof.
  intros five. split; [|split].
  - unfold output.summary. rewrite tally_total. cbn [fmap list_fmap].
    by rewrite !tally_lookup.
  - apply buckets.
  - rewrite <- unranked_zero. pose proof (buckets findings). unfold five. lia.
Qed.

(** ** escapeMarkdown *)

Lemma escapeMarkdown_head s rest : output.escapeMarkdown s ≠ String "|" rest.
Proof.
  destruct s as [|c s]; cbn; [done|].
  destruct (Ascii.eqb_spec c "|"); [done|]. by intros [= ? _].
Qed.

(** X20: [escapeMarkdown] puts a backslash before every pipe and changes
    nothing else.  A string without a pipe is returned as it is; the result
    is longer by the number of pipes; every pipe in the result has a
    backslash right before it, so none is left at the start of a cell; and
    different strings have different results. *)
Theorem escapeMarkdown_protects_pipes (s : string) :
  String.length (output.escapeMarkdown s)
  = (String.length s
     + length (filter (λ c, c = "|"%char) (list_ascii_of_string s)))%nat
  ∧ ((∀ i, String.get i s ≠ Some "|"%char) → output.escapeMarkdown s = s)
  ∧ (∀ i, String.get i (output.escapeMarkdown s) = Some "|"%char →
       ∃ i', i = S i' ∧ String.get i' (output.escapeMarkdown s) = Some "\"%char)
  ∧ ∀ s', output.escapeMarkdown s = output.escapeMarkdown s' → s = s'.
Proof.
  split; [|split; [|split]].
  - induction s as [|c s IH]; [done|]. cbn [output.escapeMarkdown list_ascii_of_string].
    rewrite length_filter_cons.
    destruct (Ascii.eqb_spec c "|") as [->|Hne].
    + rewrite decide_True by done. cbn. rewrite IH. lia.
    + rewrite decide_False by done. cbn. rewrite IH. lia.
  - induction s as [|c s IH]; [done|]. intros Hno. cbn.
    destruct (Ascii.eqb_spec c "|") as [->|Hne]; [by destruct (Hno 0%nat)|].
    rewrite IH; [done|]. intros i. apply (Hno (S i)).
  - induction s as [|c s IH]; intros i; cbn; [by destruct i|].
    destruct (Ascii.eqb_spec c "|") as [->|Hne].
    + destruct i as [|[|i]]; cbn; [done| |].
      * intros _. by exists 0%nat.
      * intros Hi. destruct (IH _ Hi) as (i' & -> & Hi'). by exists (S (S i')).
    + destruct i as [|i]; cbn; [by intros [= ->]|].
      intros Hi. destruct (IH _ Hi) as (i' & -> & Hi'). by exists (S i').
  - induction s as [|c s IH]; intros [|c' s']; cbn.
    + done.
    + by destruct (Ascii.eqb c' "|").
    + by destruct (Ascii.eqb c "|").
    + destruct (Ascii.eqb_spec c "|") as [->|Hne],
               (Ascii.eqb_spec c' "|") as [->|Hne'].
      * intros [= H]. by rewrite (IH _ H).
      * intros [= _ H]. by destruct (escapeMarkdown_head _ _ (eq_sym H)).
      * intros [= _ H]. by destruct (escapeMarkdown_head _ _ H).
      * intros [= -> H]. by rewrite (IH _ H).
Qed.

(* ===================================================================== *)
(** * Properties of the headers scanner and of scan full                  *)
(* ===================================================================== *)



(** ** scan full *)

Section ScanFull.
Variables port headers ssl dirs vuln : scanner.Scanner.
Hypothesis Hnamed : cli.named port headers ssl dirs vuln.

Lemma fullRegistry_lookup name :
  name ∈ cli.webScannerNames →
  ∃ s, scanner.scanners (cli.fullRegistry port headers ssl dirs vuln) !! name = Some s
       ∧ s ∈ [port; headers; ssl; dirs; vuln].
Proof.
  destruct Hnamed as (Hp & Hh & Hs & Hd & Hv).
  unfold cli.fullRegistry, scanner.Register. cbn [scanner.scanners].
  rewrite Hp, Hh, Hs, Hd, Hv. unfold cli.webScannerNames. intros Hin.
  repeat (apply elem_of_cons in Hin as [->|Hin]).
  - exists port. split; [by simplify_map_eq|]. set_solver.
  - exists headers. split; [by simplify_map_eq|]. set_solver.
  - exists ssl. split; [by simplify_map_eq|]. set_solver.
  - exists dirs. split; [by simplify_map_eq|]. set_solver.
  - exists vuln. split; [by simplify_map_eq|]. set_solver.
  - by apply elem_of_nil in Hin.
Qed.

Lemma fullRegistry_known :
  forallb (scanner.known (scanner.NewRunner (cli.fullRegistry port headers ssl dirs vuln)))
    cli.webScannerNames = true.
Proof.
  apply forallb_forall. intros name Hin. apply known_Get.
  destruct (fullRegistry_lookup name) as (s & Hs & _); [|by exists s].
  by apply list_elem_of_In.
Qed.

Lemma fullRegistry_Get :
  let reg := cli.fullRegistry port headers ssl dirs vuln in
  Forall2 (λ name s, scanner.Get reg name = inl s ∧ scanner.Name s = name)
    cli.webScannerNames [port; headers; ssl; dirs; vuln].
Proof.
  destruct Hnamed as (Hp & Hh & Hs & Hd & Hv).
  unfold cli.fullRegistry, scanner.Register, scanner.Get, cli.webScannerNames.
  cbn [scanner.scanners]. rewrite Hp, Hh, Hs, Hd, Hv.
  repeat (constructor; [split; [by simplify_map_eq|done]|]). constructor.
Qed.

End ScanFull.

Section RunAllNeverAppends.
Variable r : scanner.Runner.
Variable target : types.Target.
Variable opts : scanner.Options.

Lemma neverAppends_step σ ev σ' :
  scanner.neverAppends r σ → scanner.step r target opts σ ev = Some σ' →
  scanner.neverAppends r σ'.
Proof.
  unfold scanner.neverAppends, scanner.step. intros Hna.
  destruct (scanner.panic σ); [done|].
  destruct ev as [|i|i|i|e].
  - unfold scanner.mainStep.
    destruct (scanner.main σ) as [[|name rest]|snap x rest| |out]; try done.
    + by intros [= <-].
    + cbn [forallb] in Hna. apply andb_prop in Hna as [Hk Hrest].
      destruct (scanner.Get (scanner.registry r) name) as [s|err] eqn:Hget.
      * by intros [= <-].
      * destruct (Get_unknown r target name err Hget) as [Hk' _]. congruence.
    + destruct (forallb scanner.exited (scanner.workers σ)); by intros [= <-].
  - unfold scanner.sendStep.
    destruct (scanner.workers σ !! i) as [w|]; [|done].
    destruct (scanner.pc w); try done.
    destruct (scanner.sem σ <? scanner.capacity opts); [|done].
    by intros [= <-].
  - unfold scanner.recvStep.
    destruct (scanner.workers σ !! i) as [w|]; [|done].
    destruct (scanner.pc w); try done.
    destruct (Go.Err (scanner.ctx σ)); [|done].
    by intros [= <-].
  - unfold scanner.nextStep.
    destruct (scanner.workers σ !! i) as [w|]; [|done].
    destruct (scanner.pc w) as [| |slot [x|]|slot snap x|slot|]; try done.
    + destruct (scanner.Run _ _ _ _) as [result [err|]|v|]; try done; by intros [= <-].
    + destruct (scanner.mu σ); [done|]. by intros [= <-].
    + destruct (scanner.mu σ); [done|]. by intros [= <-].
    + by intros [= <-].
    + by intros [= <-].
  - unfold scanner.cancelStep. destruct (Go.Err (scanner.ctx σ)); [done|].
    by intros [= <-].
Qed.

Lemma neverAppends_exec evs σ σ' :
  scanner.neverAppends r σ → scanner.exec r target opts evs σ = Some σ' →
  scanner.neverAppends r σ'.
Proof.
  revert σ. induction evs as [|ev evs IH]; intros σ Hna; cbn; [by intros [= <-]|].
  destruct (scanner.step r target opts σ ev) as [σ1|] eqn:Hs; [|done].
  apply IH. by apply (neverAppends_step σ ev).
Qed.

Lemma roster_start c names : scanner.roster r names (scanner.start c names).
Proof. exists []. cbn. split; [done|]. split; [done|]. by constructor. Qed.

Lemma roster_set names σ i w p' results' sem' mu' ctx' panic' :
  scanner.roster r names σ → scanner.workers σ !! i = Some w →
  scanner.roster r names
    (scanner.mkState (scanner.main σ) (scanner.setWorker σ i w p') results' sem' mu'
       ctx' panic').
Proof.
  intros (done & Hn & Happ & Hws) Hi. exists done. cbn. unfold scanner.setWorker.
  by rewrite (fmap_wscanner_insert _ _ _ _ Hi).
Qed.

Lemma roster_step names σ ev σ' :
  scanner.roster r names σ → scanner.step r target opts σ ev = Some σ' →
  scanner.roster r names σ'.
Proof.
  intros Hinv. unfold scanner.step. destruct (scanner.panic σ); [done|].
  destruct ev as [|i|i|i|e].
  - destruct Hinv as (done & Hn & Happ & Hws). unfold scanner.mainStep.
    destruct (scanner.main σ) as [[|name rest]|snap x rest| |out] eqn:Hm.
    + intros [= <-]. exists done. cbn in *. by rewrite app_nil_r in *.
    + destruct (scanner.Get (scanner.registry r) name) as [s|err] eqn:Hget;
        intros [= <-].
      * pose proof (Get_known _ _ _ Hget) as Hk.
        exists (done ++ [name]).
        cbn [scanner.main scanner.workers scanner.ahead] in *.
        split; [by rewrite Hn, <- app_assoc|]. split; [done|].
        rewrite (filter_snoc_True (λ name, scanner.known r name = true)) by done.
        rewrite fmap_app. cbn [fmap list_fmap scanner.wscanner].
        apply Forall2_app; [done|]. by constructor.
      * destruct (Get_unknown _ target _ _ Hget) as [Hk _].
        exists done. cbn in *. split; [done|]. split; [|done].
        by intros snap x rest' [= <- <- <-].
    + intros [= <-]. pose proof (Happ _ _ _ eq_refl) as Hk.
      exists (done ++ [types.ScannerName x]).
      cbn [scanner.main scanner.workers scanner.ahead] in *.
      split; [by rewrite Hn, <- app_assoc|]. split; [done|].
      by rewrite (filter_snoc_False (λ name, scanner.known r name = true))
        by (by rewrite Hk).
    + destruct (forallb scanner.exited (scanner.workers σ)); [|done].
      intros [= <-]. by exists done.
    + done.
  - unfold scanner.sendStep.
    destruct (scanner.workers σ !! i) as [w|] eqn:Hi; [|done].
    destruct (scanner.pc w); try done.
    destruct (scanner.sem σ <? scanner.capacity opts); [|done].
    intros [= <-]. by apply roster_set.
  - unfold scanner.recvStep.
    destruct (scanner.workers σ !! i) as [w|] eqn:Hi; [|done].
    destruct (scanner.pc w); try done.
    destruct (Go.Err (scanner.ctx σ)); [|done].
    intros [= <-]. by apply roster_set.
  - unfold scanner.nextStep.
    destruct (scanner.workers σ !! i) as [w|] eqn:Hi; [|done].
    destruct (scanner.pc w) as [| |slot [x|]|slot snap x|slot|]; try done.
    + destruct (scanner.Run _ _ _ _) as [result [err|]|v|]; try done;
        intros [= <-]; (by apply roster_set) || done.
    + destruct (scanner.mu σ); [done|]. intros [= <-]. by apply roster_set.
    + destruct (scanner.mu σ); [done|]. intros [= <-]. by apply roster_set.
    + intros [= <-]. by apply roster_set.
    + intros [= <-]. by apply roster_set.
  - unfold scanner.cancelStep. destruct (Go.Err (scanner.ctx σ)); [done|].
    by intros [= <-].
Qed.

Lemma roster_exec c names evs σ :
  scanner.exec r target opts evs (scanner.start c names) = Some σ →
  scanner.roster r names σ.
Proof.
  generalize (roster_start c names). generalize (scanner.start c names).
  induction evs as [|ev evs IH]; intros σ0 Hinv; cbn; [by intros [= <-]|].
  destruct (scanner.step r target opts σ0 ev) as [σ1|] eqn:Hs; [|done].
  apply IH. by apply (roster_step names σ0 ev).
Qed.

End RunAllNeverAppends.

(** X22: [scan full] asks only for scanners it has registered.  Each of the
    five names of [webScannerNames] is the key, in the registry
    [runScanFull] builds, of the scanner of that name.  So, whatever the
    five scanners do and under every schedule, [RunAll] never takes the
    branch of a name that is not found, and a worker is started for every
    name; what [RunAll] gives back has at most five entries, and each of
    them was made by the worker of one of the five scanners, at some
    moment of the run and under the context as it stood then: it is what
    the scanner returned, or the failure entry for its error or for the
    error of the context.  If none of the five returns a nil result with a
    nil error or panics, there are exactly five entries, and they are, in
    some order, one entry made by the worker of [port], one by that of
    [headers], one by that of [ssl], one by that of [dirs] and one by that
    of [vuln]. *)
Theorem scan_full_finds_its_scanners (port headers ssl dirs vuln : scanner.Scanner)
    (target : types.Target) (opts : scanner.Options) (c : Go.Context) :
  cli.named port headers ssl dirs vuln →
  let reg := cli.fullRegistry port headers ssl dirs vuln in
  let r := scanner.NewRunner reg in
  Forall2 (λ name s, scanner.Get reg name = inl s ∧ scanner.Name s = name)
    cli.webScannerNames [port; headers; ssl; dirs; vuln]
  ∧ (∀ evs σ,
       scanner.exec r target opts evs (scanner.start c cli.webScannerNames) = Some σ →
       scanner.neverAppends r σ
       ∧ (∀ snap x rest, scanner.main σ ≠ scanner.Appending snap x rest)
       ∧ (length (scanner.workers σ) ≤ 5)%nat
       ∧ (∀ out, scanner.main σ = scanner.Finished out →
            scanner.wscanner <$> scanner.workers σ = [port; headers; ssl; dirs; vuln]))
  ∧ (∀ evs out,
       scanner.RunAll r target opts c cli.webScannerNames evs = Some out →
       (length out ≤ 5)%nat
       ∧ Forall (λ x, ∃ s, s ∈ [port; headers; ssl; dirs; vuln]
                           ∧ scanner.fromScanner target opts c evs s x) out
       ∧ (scanner.never_nil_nil reg → scanner.never_panics reg →
          length out = 5%nat
          ∧ ∃ es, out ≡ₚ es
                  ∧ Forall2 (scanner.fromScanner target opts c evs)
                      [port; headers; ssl; dirs; vuln] es)).
Proof.
  intros Hnamed reg r.
  pose proof (fullRegistry_Get port headers ssl dirs vuln Hnamed) as Hget.
  pose proof (fullRegistry_known port headers ssl dirs vuln Hnamed) as Hknown.
  fold reg in Hget, Hknown. fold r in Hknown.
  split; [exact Hget|]. split.
  { intros evs σ Hexec.
    assert (Hna : scanner.neverAppends r σ)
      by (by apply (neverAppends_exec r target opts evs
                      (scanner.start c cli.webScannerNames))).
    split; [done|]. split.
    { intros snap x rest Hm. unfold scanner.neverAppends in Hna. by rewrite Hm in Hna. }
    pose proof (roster_exec r target opts c cli.webScannerNames evs σ Hexec)
      as (done & Hn & _ & Hws).
    split.
    - apply (f_equal length) in Hn. rewrite length_app in Hn. cbn in Hn.
      apply Forall2_length in Hws. rewrite length_fmap in Hws.
      pose proof (length_filter (λ name, scanner.known r name = true) done). lia.
    - intros out Hm. rewrite Hm in Hn. cbn in Hn. rewrite app_nil_r in Hn. subst done.
      rewrite filter_all in Hws
        by (apply Forall_forall; intros name Hin;
            apply (proj1 (forallb_forall _ _) Hknown); by apply list_elem_of_In).
      clear -Hws Hget. revert Hws Hget. generalize (scanner.wscanner <$> scanner.workers σ).
      generalize cli.webScannerNames. generalize [port; headers; ssl; dirs; vuln].
      intros five names ws H1. revert five.
      induction H1 as [|name s names ws Hs _ IH]; intros five H2.
      + by inversion H2.
      + inversion H2 as [|? s' ? five' [Hs' _] H2']; subst. f_equal; [|by apply IH].
        fold reg in Hs'. change (scanner.registry r) with reg in Hs. congruence. }
  intros evs out. unfold scanner.RunAll.
  destruct (scanner.exec r target opts evs (scanner.start c cli.webScannerNames))
    as [σ|] eqn:Hexec; [|done].
  destruct (scanner.main σ) as [rest|snap x rest| |out'] eqn:Hm; try done.
  intros [= <-]. split; [|split].
  - destruct (atMost_exec r target opts _ _ _ _
                (atMost_start c cli.webScannerNames) Hexec) as (Hlen & _ & _ & Hfin).
    destruct (Hfin _ Hm) as [-> _]. cbn in Hlen. lia.
  - pose proof (provenance_exec r target opts c cli.webScannerNames _ _ Hexec)
      as (_ & _ & Hmain & _).
    rewrite Hm in Hmain. eapply Forall_impl; [exact Hmain|].
    intros x (name & Hin & Hsrc).
    destruct (fullRegistry_lookup port headers ssl dirs vuln Hnamed name Hin)
      as (s & Hs & Hfive).
    unfold scanner.entryOf, scanner.Get in Hsrc.
    change (scanner.registry r) with reg in Hsrc. fold reg in Hs.
    rewrite Hs in Hsrc. by exists s.
  - intros Hnil Hpanic.
    assert (Hu : scanner.unknown_first r cli.webScannerNames = true)
      by (by apply forallb_known_unknown_first).
    destruct (exact_exec r target opts Hnil Hpanic _ _ _ _
                (gate_start opts c _) (exact_start r c _ Hu) Hexec)
      as (_ & (Hlen & _ & _ & Hmain) & _).
    pose proof (perName_exec r target opts c cli.webScannerNames evs σ Hnil Hpanic Hu Hexec)
      as Hper.
    rewrite Hm in Hmain, Hlen. destruct Hmain as [-> Hall].
    split; [rewrite (exited_not_owing _ Hall) in Hlen; cbn in Hlen; lia|].
    destruct (perName_finished r target opts c cli.webScannerNames evs σ _ Hper Hm
                eq_refl Hall) as (es & Hperm & Hes).
    exists es. split; [done|].
    clear -Hes Hget. revert Hes Hget. generalize cli.webScannerNames.
    generalize [port; headers; ssl; dirs; vuln].
    intros five names H1. revert five.
    induction H1 as [|name x names es Hx _ IH]; intros five H2.
    + inversion H2. constructor.
    + inversion H2 as [|? s ? five' [Hs _] H2']; subst. constructor; [|by apply IH].
      unfold scanner.entryOf in Hx. change (scanner.registry r) with reg in Hx.
      by rewrite Hs in Hx.
Qed.

Lemma scan_full_finds_its_scanners_witness :
  let port := probes.mockScanner "port" in
  let ssl := probes.mockScanner "ssl" in
  let dirs := probes.nilScanner "dirs" in
  let vuln := probes.mockScanner "vuln" in
  let reg := cli.fullRegistry port probes.headersScanner ssl dirs vuln in
  let evs :=
    [scanner.Main; scanner.Main; scanner.Main; scanner.Main; scanner.Main; scanner.Main;
     scanner.Send 0; scanner.Send 1; scanner.Send 2; scanner.Send 3; scanner.Send 4;
     scanner.Next 0; scanner.Next 1; scanner.Next 2; scanner.Next 3; scanner.Next 4;
     scanner.Next 4; scanner.Next 4; scanner.Next 4;
     scanner.Next 3; scanner.Next 3;
     scanner.Next 2; scanner.Next 2; scanner.Next 2;
     scanner.Next 1; scanner.Next 1; scanner.Next 1;
     scanner.Next 0; scanner.Next 0; scanner.Next 0;
     scanner.Main] in
  ∃ out,
    scanner.RunAll (scanner.NewRunner reg) probes.example_com scanner.DefaultOptions
      (cli.fullContext (5 * Go.Second) 0) cli.webScannerNames evs = Some out
    ∧ types.ScannerName <$> out = ["vuln"; "ssl"; "headers"; "port"]
    ∧ (length out ≤ 5)%nat
    ∧ Forall (λ x, ∃ s, s ∈ [port; probes.headersScanner; ssl; dirs; vuln]
                        ∧ scanner.fromScanner probes.example_com scanner.DefaultOptions
                            (cli.fullContext (5 * Go.Second) 0) evs s x) out.
Proof.
  intros port ssl dirs vuln reg evs.
  eassert (Hrun : scanner.RunAll (scanner.NewRunner reg) probes.example_com
                    scanner.DefaultOptions (cli.fullContext (5 * Go.Second) 0)
                    cli.webScannerNames evs = Some _)
    by (vm_compute; reflexivity).
  eexists. split; [exact Hrun|]. split; [reflexivity|].
  assert (Hnamed : cli.named port probes.headersScanner ssl dirs vuln)
    by (by repeat split).
  destruct (proj2 (proj2 (scan_full_finds_its_scanners port probes.headersScanner ssl dirs
                            vuln probes.example_com scanner.DefaultOptions
                            (cli.fullContext (5 * Go.Second) 0) Hnamed)) evs _ Hrun)
    as (Hlen & Hsrc & _).
  split; [exact Hlen|exact Hsrc].
Defined.

(* ===================================================================== *)
(** * The bookkeeping of a job that is started more than once             *)
(* ===================================================================== *)

Lemma restarted_NewManager runner : jobs.restarted (jobs.NewManager runner).
Proof.
  split; [|split].
  - intros id p. cbn. by rewrite lookup_empty.
  - intros i t. cbn. by rewrite lookup_nil.
  - intros p j. cbn. by rewrite lookup_nil.
Qed.

Lemma restarted_update σ i t j0 (f : jobs.Job → jobs.Job) pc' :
  jobs.restarted σ →
  jobs.tasks σ !! i = Some t → jobs.heap σ !! jobs.job t = Some j0 →
  jobs.Scanners (f j0) = jobs.Scanners j0 →
  Z.of_nat (length (jobs.Results (f j0))) ≤ jobs.CompletedScanners (jobs.Progress (f j0)) →
  jobs.CompletedScanners (jobs.Progress (f j0))
  + Z.of_nat (jobs.owed (length (jobs.Scanners j0)) pc')
  ≤ jobs.CompletedScanners (jobs.Progress j0)
    + Z.of_nat (jobs.owed (length (jobs.Scanners j0)) (jobs.at_ t)) →
  jobs.restarted
    (jobs.mkState (jobs.manager σ) (alter f (jobs.job t) (jobs.heap σ))
       (jobs.setTask σ i t pc')).
Proof.
  intros (Hmap & Htasks & Hjobs) Hi Hj0 Hsc Hres Hstep.
  split; [|split].
  - intros id p Hp. cbn. rewrite length_alter. by apply (Hmap id).
  - intros k tk. cbn. rewrite length_alter. unfold jobs.setTask.
    destruct (decide (k = i)) as [->|Hne].
    + rewrite list_lookup_insert_eq by (by apply lookup_lt_Some in Hi).
      intros [= <-]. cbn. by apply (Htasks i).
    + rewrite list_lookup_insert_ne by done. apply Htasks.
  - intros p j'. rewrite launches_setTask by done. cbn. unfold jobs.setTask.
    destruct (decide (jobs.job t = p)) as [<-|Hne].
    + rewrite list_lookup_alter_eq, Hj0. intros [= <-]. split; [done|].
      destruct (Hjobs _ _ Hj0) as [_ Hle]. rewrite Hsc.
      pose proof (sum_insert (jobs.owedBy (jobs.job t) (length (jobs.Scanners j0)))
                    _ _ _ (jobs.mkTask (jobs.job t) pc') Hi) as Hsum.
      unfold jobs.owedBy at 2 4 in Hsum. cbn in Hsum.
      rewrite !decide_True in Hsum by done. lia.
    + rewrite list_lookup_alter_ne by done. intros Hp.
      destruct (Hjobs _ _ Hp) as [Hr Hle]. split; [done|].
      pose proof (sum_insert (jobs.owedBy p (length (jobs.Scanners j')))
                    _ _ _ (jobs.mkTask (jobs.job t) pc') Hi) as Hsum.
      unfold jobs.owedBy at 2 4 in Hsum. cbn in Hsum.
      rewrite !decide_False in Hsum by done. lia.
Qed.

Lemma restarted_executeStep σ i now σ' :
  jobs.restarted σ → jobs.executeStep σ i now = Some σ' → jobs.restarted σ'.
Proof.
  intros Hinv. unfold jobs.executeStep.
  destruct (jobs.tasks σ !! i) as [t|] eqn:Hi; [|done].
  destruct (jobs.heap σ !! jobs.job t) as [j|] eqn:Hj; [|done].
  pose proof Hinv as (_ & _ & Hjobs). destruct (Hjobs _ _ Hj) as [Hres _].
  assert (Hid : jobs.heap σ = alter id (jobs.job t) (jobs.heap σ))
    by (by rewrite list_alter_id).
  destruct (jobs.at_ t) as [|c [|name rest]|c name rest|c name result err rest|v|]
    eqn:Hpc; try done.
  - intros [= <-]. rewrite Hid.
    apply (restarted_update σ i t j id); try done. rewrite Hpc. cbn. lia.
  - intros [= <-].
    apply (restarted_update σ i t j (jobs.setCompleted now)); try done.
    rewrite Hpc. cbn. lia.
  - intros [= <-].
    apply (restarted_update σ i t j (jobs.setCurrent name)); try done.
    rewrite Hpc. cbn -[Z.of_nat]. lia.
  - destruct (scanner.RunOne _ _ _ _ _); intros [= <-]; rewrite Hid;
      apply (restarted_update σ i t j id); try done; rewrite Hpc; cbn -[Z.of_nat]; lia.
  - intros [= <-].
    apply (restarted_update σ i t j (jobs.record name result err)); try done.
    + cbn -[Z.of_nat]. destruct err; [|destruct result];
        rewrite ?length_app; cbn -[Z.of_nat]; lia.
    + rewrite Hpc. cbn -[Z.of_nat]. lia.
  - intros [= <-].
    apply (restarted_update σ i t j (jobs.setFailed v now)); try done.
    rewrite Hpc. cbn. lia.
Qed.

Lemma restarted_step σ ev σ' :
  jobs.restarted σ → jobs.step σ ev = Some σ' → jobs.restarted σ'.
Proof.
  intros Hinv. pose proof Hinv as (Hmap & Htasks & Hjobs).
  destruct ev as [target scanners opts tID tCreated|jobID now|jobID|i now]; cbn.
  - intros [= <-]. split; [|split]; cbn.
    + intros id p. rewrite length_app. cbn.
      destruct (decide (jobs.newUUID tID = id)) as [<-|Hne].
      * rewrite lookup_insert_eq. intros [= <-]. lia.
      * rewrite lookup_insert_ne by done. intros Hp. specialize (Hmap _ _ Hp). lia.
    + intros i t Hi. rewrite length_app. cbn. specialize (Htasks _ _ Hi). lia.
    + intros p j Hp. unfold jobs.launches. cbn.
      apply lookup_app_Some in Hp as [Hp|[Hge Hp]]; [by apply Hjobs|].
      apply list_lookup_singleton_Some in Hp as [Hp0 <-]. cbn -[Z.of_nat].
      assert (p = length (jobs.heap σ)) as -> by lia.
      rewrite sum_zero; [lia|].
      intros t [k Hk]%list_elem_of_lookup. unfold jobs.owedBy.
      specialize (Htasks _ _ Hk). rewrite decide_False by lia. done.
  - intros [= <-]. unfold jobs.Start.
    destruct (jobs.jobs (jobs.manager σ) !! jobID) as [p0|] eqn:Hid; [|done].
    split; [|split]; cbn.
    + intros id p Hp. rewrite length_alter. by apply (Hmap id).
    + intros i t. rewrite length_alter. intros Hi.
      apply lookup_app_Some in Hi as [Hi|[_ Hi]]; [by apply (Htasks i)|].
      apply list_lookup_singleton_Some in Hi as [_ <-]. cbn. by apply (Hmap jobID).
    + intros p j'. unfold jobs.launches. cbn.
      rewrite sum_list_with_app, (count_snoc (λ t, jobs.job t = p)). cbn.
      unfold jobs.owedBy at 2. cbn.
      destruct (decide (p0 = p)) as [<-|Hne].
      * rewrite list_lookup_alter_eq.
        destruct (jobs.heap σ !! p0) as [j|] eqn:Hj; [|done]. intros [= <-]. cbn.
        destruct (Hjobs _ _ Hj) as [Hr Hle]. split; [done|].
        unfold jobs.launches in Hle. nia.
      * rewrite list_lookup_alter_ne by done. intros Hp.
        destruct (Hjobs _ _ Hp) as [Hr Hle]. split; [done|].
        unfold jobs.launches in Hle. lia.
  - intros [= <-]. unfold jobs.Delete.
    destruct (jobs.jobs (jobs.manager σ) !! jobID) as [p0|] eqn:Hid; [|done].
    split; [|split]; cbn; try done.
    intros id p [_ Hp]%lookup_delete_Some. by apply (Hmap id).
  - by apply restarted_executeStep.
Qed.

Lemma restarted_exec runner evs σ :
  jobs.exec evs (jobs.NewManager runner) = Some σ → jobs.restarted σ.
Proof.
  revert σ. induction evs as [|ev evs IH] using rev_ind; intros σ.
  - intros [= <-]. apply restarted_NewManager.
  - rewrite jobs_exec_snoc.
    destruct (jobs.exec evs (jobs.NewManager runner)) as [σ0|] eqn:H0; [|done].
    intros Hs. apply (restarted_step σ0 ev); [by apply IH|done].
Qed.

(** X23: the counters of a job, however often it is started.  At every
    moment [len(results) <= completedScanners], and [completedScanners] is
    at most [totalScanners] times the number of times [Start] has launched
    the job: each goroutine of [execute] adds at most one round over the
    names, and nothing ever resets the counter or the results. *)
Theorem restart_bookkeeping (runner : scanner.Runner) (evs : list jobs.Event)
    (σ : jobs.State) (p : nat) (j : jobs.Job) :
  jobs.exec evs (jobs.NewManager runner) = Some σ →
  jobs.heap σ !! p = Some j →
  0 ≤ Z.of_nat (length (jobs.Results j)) ≤ jobs.CompletedScanners (jobs.Progress j)
  ∧ jobs.CompletedScanners (jobs.Progress j)
    ≤ Z.of_nat (jobs.launches σ p) * jobs.TotalScanners (jobs.Progress j).
Proof.
  intros Hexec Hj.
  destruct (restarted_exec runner evs σ Hexec) as (_ & _ & Hjobs).
  destruct (Hjobs _ _ Hj) as [Hres Hle].
  pose proof (invariant_exec _ _ _ (invariant_NewManager runner) Hexec) as (_ & _ & Hinv).
  destruct (Hinv _ _ Hj) as (Htot & _). rewrite Htot.
  split; [lia|]. nia.
Qed.

Lemma restart_bookkeeping_witness :
  let runner :=
    scanner.NewRunner (scanner.Register scanner.NewRegistry (probes.mockScanner "headers")) in
  let evs :=
    [jobs.CallCreate probes.example_com ["headers"] scanner.DefaultOptions 1 2;
     jobs.CallStart "1" 3; jobs.Exec 0 4; jobs.Exec 0 5; jobs.Exec 0 6; jobs.Exec 0 7;
     jobs.Exec 0 8;
     jobs.CallStart "1" 9; jobs.Exec 1 10; jobs.Exec 1 11; jobs.Exec 1 12; jobs.Exec 1 13;
     jobs.Exec 1 14] in
  ∃ σ j,
    jobs.exec evs (jobs.NewManager runner) = Some σ
    ∧ jobs.heap σ !! 0%nat = Some j
    ∧ jobs.Status j = jobs.StatusCompleted
    ∧ jobs.TotalScanners (jobs.Progress j) = 1
    ∧ jobs.CompletedScanners (jobs.Progress j) = 2
    ∧ length (jobs.Results j) = 2%nat
    ∧ jobs.CompletedScanners (jobs.Progress j)
      ≤ Z.of_nat (jobs.launches σ 0) * jobs.TotalScanners (jobs.Progress j).
Proof.
  intros runner evs.
  eassert (Hexec : jobs.exec evs (jobs.NewManager runner) = Some _)
    by (vm_compute; reflexivity).
  eexists _, _. split; [exact Hexec|]. split; [reflexivity|].
  split; [reflexivity|]. split; [reflexivity|]. split; [reflexivity|].
  split; [reflexivity|].
  exact (proj2 (restart_bookkeeping runner evs _ 0%nat _ Hexec eq_refl)).
Defined.

(* ===================================================================== *)
(** * The context of a job's goroutine                                    *)
(* ===================================================================== *)

Lemma jobs_exec_app evs1 evs2 σ0 :
  jobs.exec (evs1 ++ evs2) σ0 =
  match jobs.exec evs1 σ0 with Some σ => jobs.exec evs2 σ | None => None end.
Proof.
  revert σ0. induction evs1 as [|e evs1 IH]; intros σ0; cbn; [done|].
  destruct (jobs.step σ0 e); [apply IH|done].
Qed.

Lemma instants_snoc i evs ev :
  jobs.instants i (evs ++ [ev])
  = jobs.instants i evs ++ match jobs.instant i ev with Some now => [now] | None => [] end.
Proof.
  unfold jobs.instants. rewrite omap_app. cbn. by destruct (jobs.instant i ev).
Qed.

Lemma entered_app i evs evs' t0 :
  jobs.entered i evs = Some t0 → jobs.entered i (evs ++ evs') = Some t0.
Proof.
  unfold jobs.entered, jobs.instants. rewrite omap_app.
  by destruct (omap (jobs.instant i) evs).
Qed.

Lemma entered_snoc_other i evs ev :
  jobs.instant i ev = None → jobs.entered i (evs ++ [ev]) = jobs.entered i evs.
Proof.
  intros Hev. unfold jobs.entered. by rewrite instants_snoc, Hev, app_nil_r.
Qed.

Lemma entered_snoc_Exec i evs now :
  jobs.entered i (evs ++ [jobs.Exec i now])
  = match jobs.entered i evs with Some t0 => Some t0 | None => Some now end.
Proof.
  unfold jobs.entered. rewrite instants_snoc. cbn. rewrite decide_True by done.
  by destruct (jobs.instants i evs).
Qed.

(** One step of [execute]: the first builds the context, the later ones
    keep it, and the one taken from [Calling] calls [RunOne] under it. *)
Lemma executeStep_next σ i now σ' :
  jobs.executeStep σ i now = Some σ' →
  ∃ t j pc',
    jobs.tasks σ !! i = Some t ∧ jobs.heap σ !! jobs.job t = Some j
    ∧ jobs.tasks σ' = jobs.setTask σ i t pc'
    ∧ pc' ≠ jobs.Entered
    ∧ (jobs.at_ t = jobs.Entered →
       pc' = jobs.Looping (jobs.executeContext j now) (jobs.Scanners j))
    ∧ (jobs.at_ t ≠ jobs.Entered →
       ∀ c', jobs.contextOf pc' = Some c' → jobs.contextOf (jobs.at_ t) = Some c')
    ∧ (∀ c name rest, jobs.at_ t = jobs.Calling c name rest →
       jobs.calledUnder (jobs.runner (jobs.manager σ)) j c now name rest pc').
Proof.
  unfold jobs.executeStep.
  destruct (jobs.tasks σ !! i) as [t|] eqn:Hi; [|done].
  destruct (jobs.heap σ !! jobs.job t) as [j|] eqn:Hj; [|done].
  destruct (jobs.at_ t) as [|c [|name rest]|c name rest|c name result err rest|v|]
    eqn:Hpc; try done.
  all: try (destruct (scanner.RunOne _ _ _ _ _) as [result err|v|] eqn:Hrun; [| |done]).
  all: intros [= <-]; eexists t, j, _; split; [done|]; split; [done|];
    split; [reflexivity|]; rewrite Hpc.
  all: split; [done|]; split; [intros H; first [done|discriminate H]|]; split;
    [intros Hnot c' Hc'; first [by destruct Hnot|exact Hc'|discriminate Hc']|].
  all: intros c0 name0 rest0 H;
    first [discriminate H
          |injection H as <- <- <-; unfold jobs.calledUnder; by rewrite Hrun].
Qed.

(** A step leaves the goroutines it is not a step of as they are; [Start]
    adds one, at the entry of [execute]. *)
Lemma other_step σ ev σ' i t' :
  jobs.step σ ev = Some σ' → jobs.instant i ev = None →
  jobs.tasks σ' !! i = Some t' →
  jobs.tasks σ !! i = Some t'
  ∨ (jobs.tasks σ !! i = None ∧ jobs.at_ t' = jobs.Entered).
Proof.
  intros Hstep Hev Hi. destruct ev as [? ? ? ? ?|jobID now|jobID|i0 now]; cbn in Hstep.
  - injection Hstep as <-. by left.
  - injection Hstep as <-. unfold jobs.Start in Hi.
    destruct (jobs.jobs (jobs.manager σ) !! jobID); [|by left].
    cbn in Hi. apply lookup_app_Some in Hi as [Hi|[Hge Hi]]; [by left|].
    apply list_lookup_singleton_Some in Hi as [_ <-]. right.
    split; [by apply lookup_ge_None|done].
  - injection Hstep as <-. unfold jobs.Delete in Hi.
    destruct (jobs.jobs (jobs.manager σ) !! jobID); by left.
  - cbn in Hev. destruct (decide (i0 = i)) as [->|Hne]; [done|].
    destruct (executeStep_next _ _ _ _ Hstep) as (t & j & pc' & Hi0 & _ & Ht & _).
    rewrite Ht in Hi. unfold jobs.setTask in Hi.
    rewrite list_lookup_insert_ne in Hi by done. by left.
Qed.

Lemma absent_step σ ev σ' i :
  jobs.step σ ev = Some σ' → jobs.tasks σ' !! i = None →
  jobs.tasks σ !! i = None ∧ jobs.instant i ev = None.
Proof.
  intros Hstep Hi. destruct ev as [? ? ? ? ?|jobID now|jobID|i0 now]; cbn in Hstep.
  - injection Hstep as <-. by split.
  - injection Hstep as <-. unfold jobs.Start in Hi.
    destruct (jobs.jobs (jobs.manager σ) !! jobID); [|by split].
    cbn in Hi. apply lookup_ge_None in Hi. rewrite length_app in Hi.
    split; [|done]. apply lookup_ge_None. lia.
  - injection Hstep as <-. unfold jobs.Delete in Hi.
    destruct (jobs.jobs (jobs.manager σ) !! jobID); by split.
  - destruct (executeStep_next _ _ _ _ Hstep) as (t & j & pc' & Hi0 & _ & Ht & _).
    rewrite Ht in Hi. unfold jobs.setTask in Hi.
    apply lookup_ge_None in Hi. rewrite length_insert in Hi.
    split; [by apply lookup_ge_None|]. cbn.
    destruct (decide (i0 = i)) as [->|Hne]; [|done].
    apply lookup_lt_Some in Hi0. lia.
Qed.

Lemma keeps_job_step σ ev σ' i t :
  jobs.step σ ev = Some σ' → jobs.tasks σ !! i = Some t →
  ∃ t', jobs.tasks σ' !! i = Some t' ∧ jobs.job t' = jobs.job t.
Proof.
  intros Hstep Hi. destruct ev as [? ? ? ? ?|jobID now|jobID|i0 now]; cbn in Hstep.
  - injection Hstep as <-. by exists t.
  - injection Hstep as <-. unfold jobs.Start.
    destruct (jobs.jobs (jobs.manager σ) !! jobID); [|by exists t].
    exists t. split; [|done]. cbn. by apply lookup_app_l_Some.
  - injection Hstep as <-. unfold jobs.Delete.
    destruct (jobs.jobs (jobs.manager σ) !! jobID); by exists t.
  - destruct (executeStep_next _ _ _ _ Hstep) as (t0 & j & pc' & Hi0 & _ & Ht & _).
    rewrite Ht. unfold jobs.setTask.
    destruct (decide (i0 = i)) as [->|Hne].
    + rewrite list_lookup_insert_eq by (by apply lookup_lt_Some in Hi0).
      rewrite Hi in Hi0. injection Hi0 as <-. by eexists.
    + rewrite list_lookup_insert_ne by done. by exists t.
Qed.

Lemma keeps_job_exec evs σ σ' i t :
  jobs.exec evs σ = Some σ' → jobs.tasks σ !! i = Some t →
  ∃ t', jobs.tasks σ' !! i = Some t' ∧ jobs.job t' = jobs.job t.
Proof.
  revert σ t. induction evs as [|ev evs IH]; intros σ t; cbn.
  - intros [= <-] Hi. by exists t.
  - destruct (jobs.step σ ev) as [σ1|] eqn:Hs; [|done]. intros Hexec Hi.
    destruct (keeps_job_step _ _ _ _ _ Hs Hi) as (t1 & Hi1 & Hj1).
    destruct (IH _ _ Hexec Hi1) as (t' & Hi' & Hj'). exists t'. split; [done|]. congruence.
Qed.

(** A goroutine has no context before its first step; that step builds the
    context from the job and the instant, and the goroutine keeps it. *)
Lemma context_exec runner evs σ :
  jobs.exec evs (jobs.NewManager runner) = Some σ →
  (∀ i, jobs.tasks σ !! i = None → jobs.entered i evs = None)
  ∧ ∀ i t j, jobs.tasks σ !! i = Some t → jobs.heap σ !! jobs.job t = Some j →
      (jobs.entered i evs = None ↔ jobs.at_ t = jobs.Entered)
      ∧ ∀ t0 c, jobs.entered i evs = Some t0 → jobs.contextOf (jobs.at_ t) = Some c →
          c = jobs.executeContext j t0.
Proof.
  revert σ. induction evs as [|ev evs IH] using rev_ind; intros σ Hexec.
  - injection Hexec as <-. split; [done|]. intros i t j. cbn. by rewrite lookup_nil.
  - rewrite jobs_exec_snoc in Hexec.
    destruct (jobs.exec evs (jobs.NewManager runner)) as [σ0|] eqn:Hexec0; [|done].
    destruct (IH _ eq_refl) as [Habs Hinv].
    pose proof (invariant_exec _ _ _ (invariant_NewManager runner) Hexec0)
      as (_ & Htasks & _).
    split.
    { intros i Hi. destruct (absent_step _ _ _ _ Hexec Hi) as [Hi0 Hev].
      rewrite entered_snoc_other by done. by apply Habs. }
    intros i t j Hi Hj.
    destruct (jobs.instant i ev) as [now|] eqn:Hev.
    + destruct ev as [? ? ? ? ?|?|?|i0 now0]; try done. cbn in Hev.
      destruct (decide (i0 = i)) as [->|Hne]; [|done]. injection Hev as ->.
      cbn in Hexec.
      destruct (executeStep_next _ _ _ _ Hexec)
        as (t0 & j0 & pc' & Hi0 & Hj0 & Ht & Hne & Hfirst & Hkeep & _).
      rewrite Ht in Hi. unfold jobs.setTask in Hi.
      rewrite list_lookup_insert_eq in Hi by (by apply lookup_lt_Some in Hi0).
      injection Hi as <-. cbn [jobs.job jobs.at_] in *.
      destruct (heap_static_step σ0 (jobs.Exec i now) σ _ _ Hexec Hj0)
        as (j' & Hj' & Hopt & Hsc).
      rewrite Hj in Hj'. injection Hj' as <-.
      destruct (Hinv _ _ _ Hi0 Hj0) as [Hiff Hctx].
      rewrite entered_snoc_Exec. split.
      * split; [by destruct (jobs.entered i evs)|done].
      * intros t1 c. destruct (jobs.entered i evs) as [t1'|] eqn:Hent.
        -- intros [= <-] Hc.
           assert (Hnot : jobs.at_ t0 ≠ jobs.Entered)
             by (intros He; by apply Hiff in He).
           rewrite (Hctx _ _ eq_refl (Hkeep Hnot _ Hc)).
           symmetry. by apply executeContext_ext.
        -- intros [= <-] Hc. rewrite (Hfirst (proj1 Hiff eq_refl)) in Hc.
           cbn in Hc. injection Hc as <-. by apply executeContext_ext.
    + rewrite entered_snoc_other by done.
      destruct (other_step _ _ _ _ _ Hexec Hev Hi) as [Hi0|[Hi0 Hent]].
      * specialize (Htasks _ _ Hi0).
        destruct (jobs.heap σ0 !! jobs.job t) as [j0|] eqn:Hj0;
          [|by apply lookup_ge_None in Hj0; lia].
        destruct (heap_static_step _ _ _ _ _ Hexec Hj0) as (j' & Hj' & Hopt & Hsc).
        rewrite Hj in Hj'. injection Hj' as <-.
        destruct (Hinv _ _ _ Hi0 Hj0) as [Hiff Hctx]. split; [done|].
        intros t0 c Hent Hc. rewrite (Hctx _ _ Hent Hc).
        symmetry. by apply executeContext_ext.
      * rewrite (Habs _ Hi0), Hent. split; [done|]. by intros t0 c.
Qed.

(** C8, as the code has it.  A goroutine of [execute] has no context until
    its first step.  That step, taken at the instant [t0] at which
    [execute] is entered, builds the context [c] of the goroutine from the
    job: if [options.timeout] is positive, the deadline of [c] is [t0] plus
    [timeout * (len(scanners) + 1)], the product being taken in 64-bit
    arithmetic (it is exact when it is below 2^63); if [options.timeout] is
    zero or negative, [c] is the background context, with no deadline at
    all.  From then on the context of the goroutine is [c] at every
    program point, and every call of [RunOne] the goroutine has made, for
    whatever scanner of the job, was made under [c] as it is at the instant
    of the call, whose deadline is that of [c]. *)
Theorem execute_deadline (runner : scanner.Runner) (evs : list jobs.Event)
    (σ : jobs.State) (i : nat) (t : jobs.Task) (j : jobs.Job) :
  jobs.exec evs (jobs.NewManager runner) = Some σ →
  jobs.tasks σ !! i = Some t →
  jobs.heap σ !! jobs.job t = Some j →
  let timeout := scanner.Timeout (jobs.Options j) in
  let n := Z.of_nat (length (jobs.Scanners j)) in
  (jobs.entered i evs = None ↔ jobs.at_ t = jobs.Entered)
  ∧ ∀ t0, jobs.entered i evs = Some t0 →
      let c := jobs.executeContext j t0 in
      (0 < timeout →
       Go.Deadline c = Some (t0 + Go.wrap64 (timeout * (n + 1)))
       ∧ (timeout * (n + 1) < 2 ^ 63 → Go.Deadline c = Some (t0 + timeout * (n + 1))))
      ∧ (timeout ≤ 0 → c = Go.Background)
      ∧ (∀ later, Go.Deadline (Go.observe c later) = Go.Deadline c)
      ∧ (∀ c', jobs.contextOf (jobs.at_ t) = Some c' → c' = c)
      ∧ (∀ evs1 now evs2 σ1 σ2 t1 t2 c1 name rest,
           evs = evs1 ++ jobs.Exec i now :: evs2 →
           jobs.exec evs1 (jobs.NewManager runner) = Some σ1 →
           jobs.step σ1 (jobs.Exec i now) = Some σ2 →
           jobs.tasks σ1 !! i = Some t1 →
           jobs.at_ t1 = jobs.Calling c1 name rest →
           jobs.tasks σ2 !! i = Some t2 →
           c1 = c ∧ jobs.calledUnder runner j c now name rest (jobs.at_ t2)).
Proof.
  intros Hexec Hi Hj timeout n.
  destruct (context_exec runner evs σ Hexec) as [_ Hinv].
  destruct (Hinv _ _ _ Hi Hj) as [Hiff Hctx].
  split; [done|]. intros t0 Hent c.
  split; [|split; [|split; [|split]]].
  - intros Hpos. unfold c, jobs.executeContext. fold timeout. fold n.
    rewrite (proj2 (Z.ltb_lt 0 timeout) Hpos). cbn.
    split; [done|]. intros Hsmall. unfold Go.mulDuration.
    rewrite wrap64_small; [done|]. nia.
  - intros Hneg. unfold c, jobs.executeContext. fold timeout.
    by rewrite (proj2 (Z.ltb_ge 0 timeout) Hneg).
  - done.
  - intros c' Hc. by apply Hctx.
  - intros evs1 now evs2 σ1 σ2 t1 t2 c1 name rest -> Hexec1 Hstep Hi1 Hpc Hi2.
    rewrite jobs_exec_app, Hexec1 in Hexec.
    destruct (executeStep_next _ _ _ _ Hstep)
      as (t' & j1 & pc' & Hi' & Hj1 & Ht & _ & _ & _ & Hcall).
    rewrite Hi1 in Hi'. injection Hi' as <-.
    rewrite Ht in Hi2. unfold jobs.setTask in Hi2.
    rewrite list_lookup_insert_eq in Hi2 by (by apply lookup_lt_Some in Hi1).
    injection Hi2 as <-. cbn [jobs.at_].
    specialize (Hcall _ _ _ Hpc). rewrite (runner_exec _ _ _ Hexec1) in Hcall.
    cbn in Hcall.
    destruct (keeps_job_exec _ _ _ _ _ Hexec Hi1) as (t' & Hi' & Hjob).
    rewrite Hi in Hi'. injection Hi' as <-.
    destruct (evolves_exec _ _ _ _ _ Hexec Hj1) as (j' & Hj' & Hev).
    rewrite <- Hjob, Hj in Hj'. injection Hj' as <-.
    destruct Hev as (_ & Htarget & Hsc & Hopt & _).
    destruct (context_exec runner evs1 σ1 Hexec1) as [_ Hinv1].
    destruct (Hinv1 _ _ _ Hi1 Hj1) as [Hiff1 Hctx1].
    destruct (jobs.entered i evs1) as [t0'|] eqn:Hent1;
      [|pose proof (proj1 Hiff1 eq_refl) as Hbad; by rewrite Hpc in Hbad].
    rewrite (entered_app _ _ (jobs.Exec i now :: evs2) _ Hent1) in Hent.
    injection Hent as ->.
    assert (Hc1 : c1 = c).
    { rewrite (Hctx1 t0 c1 eq_refl) by (by rewrite Hpc).
      symmetry. by apply executeContext_ext. }
    split; [done|]. subst c1.
    unfold jobs.calledUnder in *. by rewrite Htarget, Hopt.
Qed.

Lemma execute_deadline_witness :
  let runner :=
    scanner.NewRunner (scanner.Register scanner.NewRegistry (probes.mockScanner "headers")) in
  let evs :=
    [jobs.CallCreate probes.example_com ["headers"] scanner.DefaultOptions 1 2;
     jobs.CallStart "1" 3; jobs.Exec 0 4; jobs.Exec 0 5; jobs.Exec 0 6] in
  ∃ σ t j,
    jobs.exec evs (jobs.NewManager runner) = Some σ
    ∧ jobs.tasks σ !! 0%nat = Some t
    ∧ jobs.heap σ !! jobs.job t = Some j
    ∧ jobs.entered 0 evs = Some 4
    ∧ Go.Deadline (jobs.executeContext j 4) = Some (4 + 10000000000)
    ∧ (∀ c', jobs.contextOf (jobs.at_ t) = Some c' → c' = jobs.executeContext j 4)
    ∧ ∃ result,
        jobs.at_ t = jobs.Got (jobs.executeContext j 4) "headers" result None []
        ∧ scanner.RunOne runner (Go.observe (jobs.executeContext j 4) 6) "headers"
            (jobs.Target j) (jobs.Options j) = scanner.Returned result None.
Proof.
  intros runner evs.
  eassert (Hexec : jobs.exec evs (jobs.NewManager runner) = Some _)
    by (vm_compute; reflexivity).
  eexists _, _, _. split; [exact Hexec|]. split; [reflexivity|]. split; [reflexivity|].
  split; [reflexivity|].
  destruct (proj2 (execute_deadline runner evs _ 0%nat _ _ Hexec eq_refl eq_refl)
              4 eq_refl) as (Hpos & _ & _ & Hctx & _).
  split; [exact (proj2 (Hpos ltac:(by vm_compute)) ltac:(by vm_compute))|].
  split; [exact Hctx|].
  eexists. split; [reflexivity|]. reflexivity.
Defined.

(** C8 as stated fails: with [options.timeout] zero, the zero value of
    [Options], the scanners of the job run under a context that has no
    deadline, not under one of [0 * (1 + 1)]. *)
Lemma no_deadline_without_timeout :
  let runner :=
    scanner.NewRunner (scanner.Register scanner.NewRegistry (probes.mockScanner "headers")) in
  ∃ σ c j,
    jobs.exec
      [jobs.CallCreate probes.example_com ["headers"] (scanner.mkOptions 0 0 false []) 1 2;
       jobs.CallStart "1" 3; jobs.Exec 0 4; jobs.Exec 0 5] (jobs.NewManager runner) = Some σ
    ∧ jobs.tasks σ !! 0%nat = Some (jobs.mkTask 0 (jobs.Calling c "headers" []))
    ∧ jobs.heap σ !! 0%nat = Some j
    ∧ scanner.Timeout (jobs.Options j) * (Z.of_nat (length (jobs.Scanners j)) + 1) = 0
    ∧ Go.Deadline c = None.
Proof.
  intros runner. eexists _, _, _.
  split; [vm_compute; reflexivity|].
  split; [reflexivity|]. split; [reflexivity|]. by vm_compute.
Qed.

(** With a timeout of 2^62 ns and one scanner the product leaves the 64-bit
    range: the duration handed to [context.WithTimeout] is negative and the
    context is done from the start. *)
Example execute_deadline_wraps :
  let j := jobs.mkJob "1" probes.example_com ["headers"]
             (scanner.mkOptions 1 (2 ^ 62) false []) jobs.StatusRunning [] ""
             (Some 2) (Some 3) None (jobs.mkJobProgress 1 0 "") in
  jobs.executeContext j 1700000000000000000
  = Go.mkContext (Some (1700000000000000000 - 2 ^ 63)) (Some Go.deadlineExceeded).
Proof. by vm_compute. Qed.

